(** * quicrq: the datagram acknowledgement engine, the sender priority,
    the warp/rush receive check and the subscribe/notify dispatch of
    [lib/quicrq.c], as a shallow embedding.

    Conventions.
    - [uint64_t] and [size_t] values are integers in [Z]; every operation
      that can wrap in C is written with [u64]; a conversion to [int64_t]
      is written [i64].
    - The splay tree of picoquic ([picosplay_*]) is represented by its
      in-order sequence of records: [picosplay_first] is the head of the
      list, [picosplay_next] the following element, [picosplay_insert]
      places a record before the first one that compares greater.
    - A pointer to an acknowledgement record is the key
      [(group_id, object_id, object_offset)] of the record; the tree never
      holds two records with one key, since [quicrq_datagram_ack_init]
      inserts only after a failed [quicrq_datagram_ack_find].
    - [malloc] is taken to succeed. *)

From Stdlib Require Import ZArith List Lia Bool Sorted.
Import ListNotations.
Local Open Scope Z_scope.

(** ** C integers *)

Definition UINT64_MAX : Z := 2 ^ 64 - 1.

(** Result of an unsigned 64-bit operation. *)
Definition u64 (z : Z) : Z := z mod 2 ^ 64.

(** Conversion of a 64-bit value to [int64_t]. *)
Definition i64 (z : Z) : Z :=
  let w := z mod 2 ^ 64 in if w <? 2 ^ 63 then w else w - 2 ^ 64.

Arguments u64 : simpl never.
Arguments i64 : simpl never.

(** Outcome of code that can read through a null pointer, or whose loop
    model can run out of fuel. *)
Inductive exec (A : Type) : Type :=
| Ok (a : A)
| NullDeref
| OutOfFuel.
Arguments Ok {A} a.
Arguments NullDeref {A}.
Arguments OutOfFuel {A}.

Definition ebind {A B : Type} (m : exec A) (k : A -> exec B) : exec B :=
  match m with
  | Ok a => k a
  | NullDeref => NullDeref
  | OutOfFuel => OutOfFuel
  end.

Definition akey : Type := (Z * Z * Z)%type.

Definition akey_eqb (a b : akey) : bool :=
  let '(g1, o1, f1) := a in
  let '(g2, o2, f2) := b in
  (g1 =? g2) && (o1 =? o2) && (f1 =? f2).

Arguments akey_eqb : simpl never.

(** Lexicographic order on [(group, object, offset)] triples. *)
Definition lex_lt (a b : akey) : Prop :=
  let '(g1, o1, f1) := a in
  let '(g2, o2, f2) := b in
  g1 < g2 \/ (g1 = g2 /\ (o1 < o2 \/ (o1 = o2 /\ f1 < f2))).

Definition lex_le (a b : akey) : Prop := lex_lt a b \/ a = b.

Definition lex_ltb (a b : akey) : bool :=
  let '(g1, o1, f1) := a in
  let '(g2, o2, f2) := b in
  (g1 <? g2) || ((g1 =? g2) && ((o1 <? o2) || ((o1 =? o2) && (f1 <? f2)))).

(** ** The acknowledgement engine *)
Module Ack.

(** [quicrq_datagram_ack_state_t]; the links [extra_next] and
    [extra_previous] are kept in the stream's [extra_list]. *)
Record quicrq_datagram_ack_state_t : Type := mk_das {
  group_id : Z;
  object_id : Z;
  object_offset : Z;
  flags : Z;
  nb_objects_previous_group : Z;
  length : Z;
  object_length : Z;
  queue_delay : Z;
  start_time : Z;
  last_sent_time : Z;
  is_acked : bool;
  nack_received : bool;
  is_extra_queued : bool;
  extra_data : option (list Z);
  extra_repeat_time : Z
}.

Abbreviation das := quicrq_datagram_ack_state_t.

Definition key (r : das) : akey := (group_id r, object_id r, object_offset r).
Arguments key : simpl never.

Definition set_is_acked (r : das) (b : bool) : das :=
  mk_das (group_id r) (object_id r) (object_offset r) (flags r)
    (nb_objects_previous_group r) (length r) (object_length r) (queue_delay r)
    (start_time r) (last_sent_time r) b (nack_received r)
    (is_extra_queued r) (extra_data r) (extra_repeat_time r).

Definition set_nack_received (r : das) (b : bool) : das :=
  mk_das (group_id r) (object_id r) (object_offset r) (flags r)
    (nb_objects_previous_group r) (length r) (object_length r) (queue_delay r)
    (start_time r) (last_sent_time r) (is_acked r) b
    (is_extra_queued r) (extra_data r) (extra_repeat_time r).

Definition set_length (r : das) (n : Z) : das :=
  mk_das (group_id r) (object_id r) (object_offset r) (flags r)
    (nb_objects_previous_group r) n (object_length r) (queue_delay r)
    (start_time r) (last_sent_time r) (is_acked r) (nack_received r)
    (is_extra_queued r) (extra_data r) (extra_repeat_time r).

Definition set_object_length (r : das) (n : Z) : das :=
  mk_das (group_id r) (object_id r) (object_offset r) (flags r)
    (nb_objects_previous_group r) (length r) n (queue_delay r)
    (start_time r) (last_sent_time r) (is_acked r) (nack_received r)
    (is_extra_queued r) (extra_data r) (extra_repeat_time r).

Definition set_last_sent_time (r : das) (t : Z) : das :=
  mk_das (group_id r) (object_id r) (object_offset r) (flags r)
    (nb_objects_previous_group r) (length r) (object_length r) (queue_delay r)
    (start_time r) t (is_acked r) (nack_received r)
    (is_extra_queued r) (extra_data r) (extra_repeat_time r).

Definition set_is_extra_queued (r : das) (b : bool) : das :=
  mk_das (group_id r) (object_id r) (object_offset r) (flags r)
    (nb_objects_previous_group r) (length r) (object_length r) (queue_delay r)
    (start_time r) (last_sent_time r) (is_acked r) (nack_received r)
    b (extra_data r) (extra_repeat_time r).

Definition set_extra (r : das) (d : option (list Z)) (t : Z) : das :=
  mk_das (group_id r) (object_id r) (object_offset r) (flags r)
    (nb_objects_previous_group r) (length r) (object_length r) (queue_delay r)
    (start_time r) (last_sent_time r) (is_acked r) (nack_received r)
    (is_extra_queued r) d t.

(** A datagram handed to [picoquic_queue_datagram_frame]: the fields given
    to [quicrq_datagram_header_encode], the payload copied behind the
    header, and the frame length. *)
Record datagram : Type := mk_datagram {
  dg_media_id : Z;
  dg_group_id : Z;
  dg_object_id : Z;
  dg_object_offset : Z;
  dg_queue_delay : Z;
  dg_flags : Z;
  dg_nb_objects_previous_group : Z;
  dg_object_length : Z;
  dg_payload : list Z;
  dg_length : Z
}.

(** The part of [quicrq_stream_ctx_t] that the acknowledgement engine reads
    and writes, together with what it reaches through [cnx_ctx]: whether
    the connection is there, the extra-repeat settings of the [qr_ctx], and
    the frames accepted by the transport. *)
Record quicrq_stream_ctx_t : Type := mk_stream {
  horizon_group_id : Z;
  horizon_object_id : Z;
  horizon_offset : Z;
  horizon_is_last_fragment : bool;
  datagram_ack_tree : list das;
  extra_list : list akey;
  nb_extra_sent : Z;
  nb_horizon_acks : Z;
  nb_horizon_events : Z;
  nb_fragment_lost : Z;
  media_id : Z;
  cnx_present : bool;
  extra_repeat_on_nack : bool;
  extra_repeat_after_received_delayed : bool;
  extra_repeat_delay : Z;
  datagram_queue : list datagram
}.

Abbreviation stream := quicrq_stream_ctx_t.

Definition horizon (s : stream) : akey :=
  (horizon_group_id s, horizon_object_id s, horizon_offset s).

Definition set_horizon (s : stream) (g o f : Z) (l : bool) : stream :=
  mk_stream g o f l (datagram_ack_tree s) (extra_list s) (nb_extra_sent s)
    (nb_horizon_acks s) (nb_horizon_events s) (nb_fragment_lost s)
    (media_id s) (cnx_present s) (extra_repeat_on_nack s)
    (extra_repeat_after_received_delayed s) (extra_repeat_delay s)
    (datagram_queue s).

Definition set_tree (s : stream) (t : list das) : stream :=
  mk_stream (horizon_group_id s) (horizon_object_id s) (horizon_offset s)
    (horizon_is_last_fragment s) t (extra_list s) (nb_extra_sent s)
    (nb_horizon_acks s) (nb_horizon_events s) (nb_fragment_lost s)
    (media_id s) (cnx_present s) (extra_repeat_on_nack s)
    (extra_repeat_after_received_delayed s) (extra_repeat_delay s)
    (datagram_queue s).

Definition set_extra_list (s : stream) (l : list akey) (n : Z) : stream :=
  mk_stream (horizon_group_id s) (horizon_object_id s) (horizon_offset s)
    (horizon_is_last_fragment s) (datagram_ack_tree s) l n
    (nb_horizon_acks s) (nb_horizon_events s) (nb_fragment_lost s)
    (media_id s) (cnx_present s) (extra_repeat_on_nack s)
    (extra_repeat_after_received_delayed s) (extra_repeat_delay s)
    (datagram_queue s).

Definition set_counters (s : stream) (acks events lost : Z) : stream :=
  mk_stream (horizon_group_id s) (horizon_object_id s) (horizon_offset s)
    (horizon_is_last_fragment s) (datagram_ack_tree s) (extra_list s)
    (nb_extra_sent s) acks events lost
    (media_id s) (cnx_present s) (extra_repeat_on_nack s)
    (extra_repeat_after_received_delayed s) (extra_repeat_delay s)
    (datagram_queue s).

Definition set_datagram_queue (s : stream) (q : list datagram) : stream :=
  mk_stream (horizon_group_id s) (horizon_object_id s) (horizon_offset s)
    (horizon_is_last_fragment s) (datagram_ack_tree s) (extra_list s)
    (nb_extra_sent s) (nb_horizon_acks s) (nb_horizon_events s)
    (nb_fragment_lost s)
    (media_id s) (cnx_present s) (extra_repeat_on_nack s)
    (extra_repeat_after_received_delayed s) (extra_repeat_delay s) q.

(** *** The tree *)

(** [quicrq_datagram_ack_node_compare]. *)
Definition quicrq_datagram_ack_node_compare (l r : das) : Z :=
  let ret := i64 (group_id l - group_id r) in
  let ret := if ret =? 0 then i64 (object_id l - object_id r) else ret in
  let ret := if ret =? 0 then i64 (object_offset l - object_offset r) else ret in
  ret.

(** [picosplay_insert]: the new node goes left of the first node that it
    compares below. *)
Fixpoint picosplay_insert (t : list das) (v : das) : list das :=
  match t with
  | [] => [v]
  | x :: t' =>
      if quicrq_datagram_ack_node_compare v x <? 0 then v :: x :: t'
      else x :: picosplay_insert t' v
  end.

(** [picosplay_find] followed by [quicrq_datagram_ack_node_value], as used
    by [quicrq_datagram_ack_find]: the record that compares equal to the
    target, which is the one with the target's key. *)
Fixpoint quicrq_datagram_ack_find (t : list das) (k : akey) : option das :=
  match t with
  | [] => None
  | x :: t' => if akey_eqb (key x) k then Some x else quicrq_datagram_ack_find t' k
  end.

(** Writing through a record pointer. *)
Definition update_das (t : list das) (k : akey) (f : das -> das) : list das :=
  map (fun x => if akey_eqb (key x) k then f x else x) t.

Fixpoint remove_key (l : list akey) (k : akey) : list akey :=
  match l with
  | [] => []
  | x :: l' => if akey_eqb x k then l' else x :: remove_key l' k
  end.

(** [quicrq_datagram_ack_extra_dequeue]. *)
Definition quicrq_datagram_ack_extra_dequeue (s : stream) (k : akey) : stream :=
  match quicrq_datagram_ack_find (datagram_ack_tree s) k with
  | None => s
  | Some r =>
      match extra_data r with
      | None => s
      | Some _ =>
          let s1 := set_extra_list s (remove_key (extra_list s) k) (nb_extra_sent s) in
          set_tree s1 (update_das (datagram_ack_tree s1) k (fun x => set_extra x None 0))
      end
  end.

(** [quicrq_datagram_ack_extra_queue]; [memcpy] takes [das->length] bytes
    of [data]. *)
Definition quicrq_datagram_ack_extra_queue (s : stream) (k : akey)
    (data : list Z) (repeat_time : Z) : stream :=
  match quicrq_datagram_ack_find (datagram_ack_tree s) k with
  | None => s
  | Some r =>
      if is_extra_queued r then s
      else
        let s1 := set_tree s (update_das (datagram_ack_tree s) k
                                (fun x => set_is_extra_queued x true)) in
        let s2 := match extra_data r with
                  | Some _ => quicrq_datagram_ack_extra_dequeue s1 k
                  | None => s1
                  end in
        let copy := firstn (Z.to_nat (length r)) data in
        let s3 := set_tree s2 (update_das (datagram_ack_tree s2) k
                                 (fun x => set_extra x (Some copy) repeat_time)) in
        set_extra_list s3 (extra_list s3 ++ [k]) (nb_extra_sent s3 + 1)
  end.

(** [quicrq_datagram_ack_node_delete], the callback that
    [picosplay_delete_hint] runs on the node it unlinks, and the unlinking
    itself. *)
Fixpoint remove_das (t : list das) (k : akey) : list das :=
  match t with
  | [] => []
  | x :: t' => if akey_eqb (key x) k then t' else x :: remove_das t' k
  end.

Definition picosplay_delete_hint (s : stream) (k : akey) : stream :=
  let s1 := quicrq_datagram_ack_extra_dequeue s k in
  set_tree s1 (remove_das (datagram_ack_tree s1) k).

(** [quicrq_datagram_ack_ctx_init], on a stream context that
    [quicrq_create_stream_context] has zeroed. *)
Definition quicrq_datagram_ack_ctx_init (media : Z) (cnx : bool)
    (on_nack after_delayed : bool) (delay : Z) : stream :=
  mk_stream UINT64_MAX UINT64_MAX UINT64_MAX true [] [] 0 0 0 0
    media cnx on_nack after_delayed delay [].

(** [quicrq_datagram_check_horizon]. *)
Definition quicrq_datagram_check_horizon (s : stream) (g o off : Z) : Z :=
  let ret := i64 (g - horizon_group_id s) in
  let ret := if ret =? 0 then i64 (o - horizon_object_id s) else ret in
  let ret := if ret =? 0 then i64 (off - horizon_offset s) else ret in
  ret.

(** [quicrq_datagram_ack_init]: the returned triple is the [int] result,
    what the call stores in [*p_created_state] (nothing when no record is
    created), and the stream afterwards. *)
Definition quicrq_datagram_ack_init (s : stream) (group_id object_id object_offset : Z)
    (flags nb_objects_previous_group : Z) (data : list Z) (length : Z)
    (queue_delay object_length : Z) (current_time : Z)
  : Z * option akey * stream :=
  if quicrq_datagram_check_horizon s group_id object_id object_offset <? 0 then
    (0, None,
     set_counters s (nb_horizon_acks s) (u64 (nb_horizon_events s + 1)) (nb_fragment_lost s))
  else
    let k := (group_id, object_id, object_offset) in
    match quicrq_datagram_ack_find (datagram_ack_tree s) k with
    | Some _ => (1, None, s)
    | None =>
        let da_new :=
          mk_das group_id object_id object_offset flags nb_objects_previous_group
            length object_length queue_delay current_time 0 false false false None 0 in
        let s1 := set_tree s (picosplay_insert (datagram_ack_tree s) da_new) in
        let s2 :=
          if extra_repeat_after_received_delayed s1
             && (extra_repeat_delay s1 >? 0) && (queue_delay >? 20)
          then quicrq_datagram_ack_extra_queue s1 k data
                 (u64 (current_time + extra_repeat_delay s1))
          else s1 in
        (0, Some k, s2)
    end.

(** *** Acknowledgements *)

(** The loop of [quicrq_datagram_handle_ack] that marks records, started
    on the record found and the nodes after it. *)
Fixpoint mark_acked (found_on : list das) (g o : Z)
    (acked_offset acked_length : Z) : exec (list das) :=
  match found_on with
  | [] => Ok []
  | found :: rest =>
      if acked_length >? 0 then
        let found' := set_is_acked found true in
        let acked_length' := i64 (acked_length - length found) in
        let acked_offset' := u64 (acked_offset + length found) in
        if acked_length' >? 0 then
          match rest with
          | [] => NullDeref
          | next :: _ =>
              if negb (group_id next =? g) || negb (object_id next =? o)
                 || negb (object_offset next =? acked_offset')
              then Ok (found' :: rest)
              else ebind (mark_acked rest g o acked_offset' acked_length')
                     (fun rest' => Ok (found' :: rest'))
          end
        else Ok (found' :: rest)
      else Ok (found :: rest)
  end.

(** The tree after the marking loop, entered at the record with key [k]. *)
Fixpoint mark_from (t : list das) (k : akey) (acked_length : Z) : exec (list das) :=
  match t with
  | [] => Ok []
  | x :: t' =>
      if akey_eqb (key x) k
      then mark_acked t (fst (fst k)) (snd (fst k)) (snd k) acked_length
      else ebind (mark_from t' k acked_length) (fun t'' => Ok (x :: t''))
  end.

(** The test [just_after] of the horizon loop. *)
Definition just_after (s : stream) (r : das) : bool :=
  if group_id r =? horizon_group_id s then
    if object_id r =? horizon_object_id s then
      object_offset r =? horizon_offset s
    else if horizon_is_last_fragment s then
      (u64 (object_id r - horizon_object_id s) =? 1) && (object_offset r =? 0)
    else false
  else
    horizon_is_last_fragment s
    && (group_id r =? u64 (horizon_group_id s + 1))
    && (object_offset r =? 0)
    && (nb_objects_previous_group r =? u64 (horizon_object_id s + 1)).

(** One collapse of the horizon over the record [r]. *)
Definition collapse (s : stream) (r : das) : stream :=
  let off := u64 (object_offset r + length r) in
  let s1 := set_horizon s (group_id r) (object_id r) off (object_length r <=? off) in
  picosplay_delete_hint s1 (key r).

(** The loop that progresses the horizon, over the nodes from
    [picosplay_first] on. *)
Fixpoint progress_horizon (s : stream) (nodes : list das) : stream :=
  match nodes with
  | [] => s
  | r :: nodes' =>
      if negb (is_acked r) then s
      else if negb (just_after s r) then s
      else progress_horizon (collapse s r) nodes'
  end.

(** The first part of [quicrq_datagram_handle_ack], which handles the case
    where the acked data overlaps the horizon: it yields [is_below_horizon],
    [should_check_horizon], [acked_offset], [acked_length] and the stream
    with its counter of acknowledgements below the horizon. *)
Definition ack_versus_horizon (s : stream) (g o object_offset : Z) (length : Z)
  : bool * bool * Z * Z * stream :=
  let horizon_delta_group := i64 (g - horizon_group_id s) in
  let horizon_delta := i64 (o - horizon_object_id s) in
  let acked_length := i64 length in
  let acked_offset := object_offset in
  if (horizon_delta_group =? 0) && (horizon_delta =? 0) then
    if u64 (object_offset + length) <? horizon_offset s then
      (true, false, acked_offset, acked_length,
       set_counters s (u64 (nb_horizon_acks s + 1)) (nb_horizon_events s) (nb_fragment_lost s))
    else if object_offset <? horizon_offset s then
      (false, true, horizon_offset s,
       i64 (acked_length - u64 (horizon_offset s - object_offset)), s)
    else if object_offset =? horizon_offset s then
      (false, true, acked_offset, acked_length, s)
    else (false, false, acked_offset, acked_length, s)
  else if (horizon_delta_group <? 0) || ((horizon_delta_group =? 0) && (horizon_delta <? 0)) then
    (true, false, acked_offset, acked_length,
     set_counters s (u64 (nb_horizon_acks s + 1)) (nb_horizon_events s) (nb_fragment_lost s))
  else if (horizon_delta_group =? 0) && (horizon_delta =? 1)
          && horizon_is_last_fragment s && (object_offset =? 0) then
    (false, true, acked_offset, acked_length, s)
  else if horizon_group_id s =? UINT64_MAX then
    (false, true, acked_offset, acked_length, s)
  else (false, false, acked_offset, acked_length, s).

(** The second part: marking the records. *)
Definition ack_mark (s : stream) (g o : Z) (is_below_horizon : bool)
    (acked_offset acked_length : Z) : exec stream :=
  if is_below_horizon then Ok s
  else ebind (mark_from (datagram_ack_tree s) (g, o, acked_offset) acked_length)
         (fun t => Ok (set_tree s t)).

(** [quicrq_datagram_handle_ack]; the [int] result is always 0. *)
Definition quicrq_datagram_handle_ack (s : stream) (g o object_offset : Z)
    (length : Z) : exec stream :=
  let '(is_below_horizon, should_check_horizon, acked_offset, acked_length, s0) :=
    ack_versus_horizon s g o object_offset length in
  ebind (ack_mark s0 g o is_below_horizon acked_offset acked_length)
    (fun s1 =>
       if should_check_horizon then Ok (progress_horizon s1 (datagram_ack_tree s1))
       else Ok s1).

(** *** Repeats *)

Section Transport.

(** Constants and functions of picoquic and of the message codec, declared
    outside [lib/quicrq.c]: the two size limits, the number of bytes that
    [quicrq_datagram_header_encode] writes for the given fields (taken to
    fit in the packet buffer), and the result of
    [picoquic_queue_datagram_frame] for a frame of the given length. *)
Variable PICOQUIC_MAX_PACKET_SIZE : Z.
Variable PICOQUIC_DATAGRAM_QUEUE_MAX_LENGTH : Z.
Variable quicrq_datagram_header_length : Z -> Z -> Z -> Z -> Z -> Z -> Z -> Z -> Z.
Variable picoquic_queue_datagram_frame : Z -> Z.

(** [queue_delay_delta] of [quicrq_datagram_handle_repeat]. *)
Definition queue_delay_delta (current_time : Z) (found : das) : Z :=
  if current_time >? start_time found
  then u64 (current_time - start_time found + 500) / 1000
  else 0.

(** What one turn of the [while] loop of [quicrq_datagram_handle_repeat]
    leads to: the loop ends with a result, or goes on with a new [found],
    [data] and [data_length], or the turn reads through the null pointer
    that [quicrq_datagram_ack_init] left in [p_next_record]. *)
Inductive turn : Type :=
| Done (ret : Z) (s : stream)
| Next (s : stream) (found : akey) (data : list Z) (data_length : Z)
| Crash.

(** The loop test and the body of the loop; [found] is the record pointer,
    [data] and [data_length] the bytes left to queue. *)
Definition repeat_turn (s : stream) (found : akey) (data : list Z) (data_length : Z)
    (prepare_extra : bool) (current_time : Z) : turn :=
  match quicrq_datagram_ack_find (datagram_ack_tree s) found with
  | None => Crash
  | Some r =>
      if (data_length >? 0) || (flags r =? 255) then
        let delta := queue_delay_delta current_time r in
        let s1 := set_tree s (update_das (datagram_ack_tree s) found
                                (fun x => set_last_sent_time x current_time)) in
        let qd := u64 (queue_delay r + delta) in
        let header_length :=
          quicrq_datagram_header_length (media_id s) (group_id r) (object_id r)
            (object_offset r) qd (flags r) (nb_objects_previous_group r)
            (object_length r) in
        let datagram_length := u64 (header_length + data_length) in
        let too_long := datagram_length >? PICOQUIC_DATAGRAM_QUEUE_MAX_LENGTH in
        let fragment_length :=
          if too_long then u64 (PICOQUIC_DATAGRAM_QUEUE_MAX_LENGTH - header_length)
          else data_length in
        let datagram_length :=
          if too_long then PICOQUIC_DATAGRAM_QUEUE_MAX_LENGTH else datagram_length in
        if header_length + fragment_length >? PICOQUIC_MAX_PACKET_SIZE then Done (-1) s1
        else
          let ret := picoquic_queue_datagram_frame datagram_length in
          if ret =? 0 then
            let dg := mk_datagram (media_id s) (group_id r) (object_id r)
                        (object_offset r) qd (flags r) (nb_objects_previous_group r)
                        (object_length r)
                        (firstn (Z.to_nat fragment_length) data) datagram_length in
            let s2 := set_datagram_queue s1 (datagram_queue s1 ++ [dg]) in
            let s3 :=
              if prepare_extra && (extra_repeat_delay s2 >? 0)
              then quicrq_datagram_ack_extra_queue s2 found data
                     (u64 (current_time + extra_repeat_delay s2))
              else s2 in
            if fragment_length <? data_length then
              let next_offset := u64 (object_offset r + fragment_length) in
              let data' := skipn (Z.to_nat fragment_length) data in
              let data_length' := u64 (data_length - fragment_length) in
              let '(ret, p_next_record, s4) :=
                quicrq_datagram_ack_init s3 (group_id r) (object_id r) next_offset
                  (flags r) (nb_objects_previous_group r) data' data_length'
                  (queue_delay r) (object_length r) (start_time r) in
              if ret =? 0 then
                match p_next_record with
                | None => Crash
                | Some next_record =>
                    let t5 := update_das (datagram_ack_tree s4) next_record
                                (fun x => set_nack_received
                                            (set_object_length x (object_length r))
                                            (nack_received r)) in
                    let t6 := update_das t5 found
                                (fun x => set_length x fragment_length) in
                    Next (set_tree s4 t6) next_record data' data_length'
                end
              else Done ret s4
            else Done 0 s3
          else Done ret s1
      else Done 0 s
  end.

(** The quantities that one turn computes for the record [r]. *)
Definition repeat_queue_delay (current_time : Z) (r : das) : Z :=
  u64 (queue_delay r + queue_delay_delta current_time r).

Definition repeat_header_length (s : stream) (r : das) (current_time : Z) : Z :=
  quicrq_datagram_header_length (media_id s) (group_id r) (object_id r)
    (object_offset r) (repeat_queue_delay current_time r) (flags r)
    (nb_objects_previous_group r) (object_length r).

Definition repeat_too_long (s : stream) (r : das) (data_length current_time : Z) : bool :=
  u64 (repeat_header_length s r current_time + data_length)
  >? PICOQUIC_DATAGRAM_QUEUE_MAX_LENGTH.

Definition repeat_fragment_length (s : stream) (r : das) (data_length current_time : Z) : Z :=
  if repeat_too_long s r data_length current_time
  then u64 (PICOQUIC_DATAGRAM_QUEUE_MAX_LENGTH - repeat_header_length s r current_time)
  else data_length.

Definition repeat_datagram (s : stream) (r : das) (data : list Z)
    (data_length current_time : Z) : datagram :=
  mk_datagram (media_id s) (group_id r) (object_id r) (object_offset r)
    (repeat_queue_delay current_time r) (flags r) (nb_objects_previous_group r)
    (object_length r)
    (firstn (Z.to_nat (repeat_fragment_length s r data_length current_time)) data)
    (if repeat_too_long s r data_length current_time
     then PICOQUIC_DATAGRAM_QUEUE_MAX_LENGTH
     else u64 (repeat_header_length s r current_time + data_length)).

(** The record that a split creates for the tail of [r]. *)
Definition tail_record (r : das) (next_offset data_length : Z) : das :=
  mk_das (group_id r) (object_id r) next_offset (flags r)
    (nb_objects_previous_group r) data_length (object_length r) (queue_delay r)
    (start_time r) 0 false false false None 0.

Definition inherit (r : das) (x : das) : das :=
  set_nack_received (set_object_length x (object_length r)) (nack_received r).

(** The [while] loop of [quicrq_datagram_handle_repeat]. The result is the
    [int] result and the stream afterwards. *)
Fixpoint handle_repeat_loop (fuel : nat) (s : stream) (found : akey)
    (data : list Z) (data_length : Z) (prepare_extra : bool) (current_time : Z)
  : exec (Z * stream) :=
  match fuel with
  | O => OutOfFuel
  | S fuel' =>
      match repeat_turn s found data data_length prepare_extra current_time with
      | Done ret s' => Ok (ret, s')
      | Next s' found' data' data_length' =>
          handle_repeat_loop fuel' s' found' data' data_length' prepare_extra current_time
      | Crash => NullDeref
      end
  end.

(** [quicrq_datagram_handle_repeat]. Every turn of the loop but the last
    takes at least one byte off [data_length]. *)
Definition quicrq_datagram_handle_repeat (s : stream) (found : akey)
    (data : list Z) (data_length : Z) (prepare_extra : bool) (current_time : Z)
  : exec (Z * stream) :=
  if negb (cnx_present s) then Ok (-1, s)
  else handle_repeat_loop (S (Z.to_nat data_length)) s found data data_length
         prepare_extra current_time.

(** [quicrq_datagram_handle_lost]. *)
Definition quicrq_datagram_handle_lost (s : stream) (g o off : Z) (sent_time : Z)
    (bytes : list Z) (length : Z) (current_time : Z) : exec (Z * stream) :=
  match quicrq_datagram_ack_find (datagram_ack_tree s) (g, o, off) with
  | None => Ok (0, s)
  | Some found =>
      if negb (is_acked found) then
        if negb (is_extra_queued found) || (last_sent_time found <=? u64 (sent_time + 1000)) then
          let s1 := set_tree s (update_das (datagram_ack_tree s) (g, o, off)
                                  (fun x => set_nack_received x true)) in
          let s2 := set_counters s1 (nb_horizon_acks s1) (nb_horizon_events s1)
                      (nb_fragment_lost s1 + 1) in
          quicrq_datagram_handle_repeat s2 (g, o, off) bytes length
            (extra_repeat_on_nack s2) current_time
        else Ok (0, s)
      else Ok (0, s)
  end.

End Transport.

(** *** Predicates used in the statements *)

Definition is_u64 (z : Z) : Prop := 0 <= z < 2 ^ 64.

(** A value that a variable-length integer of QUIC can carry. *)
Definition in_range (z : Z) : Prop := 0 <= z < 2 ^ 62.

(** The horizon still has the value given by
    [quicrq_datagram_ack_ctx_init]; this is the test made by
    [quicrq_datagram_handle_ack]. *)
Definition horizon_uninitialized (s : stream) : Prop :=
  horizon_group_id s = UINT64_MAX.

(** The rule of advance in the words of the specification, with its four
    cases. *)
Definition spec_advance_rule (s : stream) (r : das) : Prop :=
  (group_id r = horizon_group_id s /\ object_id r = horizon_object_id s
   /\ object_offset r = horizon_offset s)
  \/ (group_id r = horizon_group_id s /\ object_id r = horizon_object_id s + 1
      /\ object_offset r = 0 /\ horizon_is_last_fragment s = true)
  \/ (group_id r = horizon_group_id s + 1 /\ object_id r = 0 /\ object_offset r = 0
      /\ horizon_is_last_fragment s = true
      /\ nb_objects_previous_group r = horizon_object_id s + 1)
  \/ horizon_uninitialized s.

(** The three cases that the loop tests, with the additions made on 64
    bits. *)
Definition advance_rule (s : stream) (r : das) : Prop :=
  (group_id r = horizon_group_id s /\ object_id r = horizon_object_id s
   /\ object_offset r = horizon_offset s)
  \/ (group_id r = horizon_group_id s /\ object_id r = u64 (horizon_object_id s + 1)
      /\ object_offset r = 0 /\ horizon_is_last_fragment s = true)
  \/ (group_id r = u64 (horizon_group_id s + 1) /\ object_id r = 0 /\ object_offset r = 0
      /\ horizon_is_last_fragment s = true
      /\ nb_objects_previous_group r = u64 (horizon_object_id s + 1)).

(** What the repeat path never changes on a record besides its length:
    everything except the time of the last transmission and the
    extra-repeat fields. *)
Definition core (x : das) : akey * Z * Z * Z * Z * Z * Z * bool * bool :=
  (key x, flags x, nb_objects_previous_group x, length x, object_length x,
   queue_delay x, start_time x, is_acked x, nack_received x).

Definition core_fun (f : das -> das) : Prop := forall x, core (f x) = core x.

(** What a split hands down from a record to the record of its tail. *)
Definition lineage (x : das) : Z * Z * Z * Z * Z * Z * Z * bool :=
  (group_id x, object_id x, flags x, nb_objects_previous_group x,
   object_length x, queue_delay x, start_time x, nack_received x).

(** What a repeat leaves on the record it starts from (its length may
    shrink). *)
Definition meta (x : das) : akey * Z * Z * Z * Z * Z * bool * bool :=
  (key x, flags x, nb_objects_previous_group x, object_length x,
   queue_delay x, start_time x, is_acked x, nack_received x).

(** What the repeat path never changes on a stream. *)
Definition env (s : stream) : akey * bool * Z * bool * bool * bool * Z * Z :=
  (horizon s, horizon_is_last_fragment s, media_id s, cnx_present s,
   extra_repeat_on_nack s, extra_repeat_after_received_delayed s,
   extra_repeat_delay s, nb_fragment_lost s).

(** The queue delays carried by the datagrams queued when a call
    returns. *)
Definition queued_delays (e : exec (Z * stream)) : list Z :=
  match e with
  | Ok (_, s) => map dg_queue_delay (datagram_queue s)
  | _ => []
  end.

(** *** Well-formed trees *)

(** The key and the length of a record: the bytes that it covers. *)
Definition shape (x : das) : akey * Z := (key x, length x).

(** [a] comes before [b] in key order and, in one object, ends before [b]
    starts: fragments do not overlap. *)
Definition shape_before (a b : akey * Z) : Prop :=
  lex_lt (fst a) (fst b)
  /\ (fst (fst (fst a)) = fst (fst (fst b)) -> snd (fst (fst a)) = snd (fst (fst b)) ->
      snd (fst a) + snd a <= snd (fst b)).

(** Identifiers and offsets that variable-length integers can carry. *)
Definition shape_ok (a : akey * Z) : Prop :=
  in_range (fst (fst (fst a))) /\ in_range (snd (fst (fst a)))
  /\ 0 <= snd (fst a) /\ 0 <= snd a /\ snd (fst a) + snd a < 2 ^ 62.

(** Either the horizon is not initialized, or it is made of such values
    and no record of the tree is below it. *)
Definition horizon_ok (s : stream) : Prop :=
  horizon_uninitialized s
  \/ (in_range (horizon_group_id s) /\ in_range (horizon_object_id s)
      /\ in_range (horizon_offset s)
      /\ Forall (fun k => lex_le (horizon s) k) (map key (datagram_ack_tree s))).

Definition ack_wf (s : stream) : Prop :=
  StronglySorted shape_before (map shape (datagram_ack_tree s))
  /\ Forall shape_ok (map shape (datagram_ack_tree s))
  /\ horizon_ok s.

(** [quicrq_datagram_ack_node_compare] and [picosplay_insert] on shapes. *)
Definition key_compare (a b : akey) : Z :=
  let ret := i64 (fst (fst a) - fst (fst b)) in
  let ret := if ret =? 0 then i64 (snd (fst a) - snd (fst b)) else ret in
  let ret := if ret =? 0 then i64 (snd a - snd b) else ret in
  ret.

Fixpoint shape_insert (l : list (akey * Z)) (v : akey * Z) : list (akey * Z) :=
  match l with
  | [] => [v]
  | x :: l' =>
      if key_compare (fst v) (fst x) <? 0 then v :: x :: l'
      else x :: shape_insert l' v
  end.

(** The shapes after the record of key [k] has its length set to [n]. *)
Definition shrink (k : akey) (n : Z) (l : list (akey * Z)) : list (akey * Z) :=
  map (fun sh => if akey_eqb (fst sh) k then (fst sh, n) else sh) l.

(** The three outcomes of [quicrq_datagram_ack_init] named by the
    specification, read off the [int] result and [*p_created_state]. *)
Inductive ack_init_result : Type :=
| Created
| BelowHorizon
| Duplicate
| MemoryError.

Definition ack_init_report (ret : Z) (created : option akey) : ack_init_result :=
  if ret =? 1 then Duplicate
  else if ret =? 0 then
    match created with Some _ => Created | None => BelowHorizon end
  else MemoryError.

(** *** The fragments of a repeat *)

(** What is taken of the transport where a repeat is followed to its end:
    the queue takes no frame longer than a packet, a header leaves room
    for at least one byte, and a frame that fits is accepted. *)
Definition transport_ok (MAXP QMAX : Z)
    (hlen : Z -> Z -> Z -> Z -> Z -> Z -> Z -> Z -> Z) (qframe : Z -> Z) : Prop :=
  QMAX <= MAXP /\ QMAX < 2 ^ 62
  /\ (forall m g o off qd fl nb ol, 0 <= hlen m g o off qd fl nb ol < QMAX)
  /\ (forall n, n <= QMAX -> qframe n = 0).

(** Datagrams whose payloads follow each other from the offset [off]. *)
Fixpoint chained (off : Z) (l : list datagram) : Prop :=
  match l with
  | [] => True
  | d :: l' =>
      dg_object_offset d = off
      /\ chained (off + Z.of_nat (List.length (dg_payload d))) l'
  end.

(** The datagram [d] is a fragment of the record [r] repeated at
    [current_time]: its header is the one of [r] but for the offset, its
    frame is the header and the payload and fits the queue, and the tree of
    [s] records it at its offset with its length and with what a split
    hands down from [r]. *)
Definition fragment_of (QMAX : Z)
    (hlen : Z -> Z -> Z -> Z -> Z -> Z -> Z -> Z -> Z) (current_time : Z)
    (s : stream) (r : das) (d : datagram) : Prop :=
  dg_media_id d = media_id s
  /\ dg_group_id d = group_id r /\ dg_object_id d = object_id r
  /\ dg_flags d = flags r
  /\ dg_nb_objects_previous_group d = nb_objects_previous_group r
  /\ dg_object_length d = object_length r
  /\ dg_queue_delay d
     = u64 (queue_delay r
            + (if current_time >? start_time r
               then u64 (current_time - start_time r + 500) / 1000 else 0))
  /\ dg_length d
     = hlen (dg_media_id d) (dg_group_id d) (dg_object_id d) (dg_object_offset d)
         (dg_queue_delay d) (dg_flags d) (dg_nb_objects_previous_group d)
         (dg_object_length d)
       + Z.of_nat (List.length (dg_payload d))
  /\ dg_length d <= QMAX
  /\ exists x,
       quicrq_datagram_ack_find (datagram_ack_tree s)
         (group_id r, object_id r, dg_object_offset d) = Some x
       /\ length x = Z.of_nat (List.length (dg_payload d))
       /\ lineage x = lineage r.

End Ack.

(** ** Choice of the next message on a control stream *)
Module Send.

Inductive quicrq_stream_sending_state_enum : Type :=
| quicrq_sending_ready
| quicrq_sending_single_stream
| quicrq_sending_initial
| quicrq_sending_repair
| quicrq_sending_final_point
| quicrq_sending_start_point
| quicrq_sending_cache_policy
| quicrq_sending_subscribe
| quicrq_sending_notify
| quicrq_waiting_notify
| quicrq_notify_ready
| quicrq_sending_fin
| quicrq_sending_no_more.

Inductive quicrq_transport_mode_enum : Type :=
| quicrq_transport_mode_single_stream
| quicrq_transport_mode_datagram
| quicrq_transport_mode_warp
| quicrq_transport_mode_rush.

(** The messages that the ready state prepares, as the action code and the
    fields given to the encoder. *)
Inductive quicrq_message_t : Type :=
| QUICRQ_ACTION_START_POINT (group_id object_id : Z)
| QUICRQ_ACTION_FIN_DATAGRAM (group_id object_id : Z)
| QUICRQ_ACTION_CACHE_POLICY (cache_policy : Z).

(** The fields of [quicrq_stream_ctx_t] read and written when the send
    state is [quicrq_sending_ready]; [message_sent] is the content of the
    message buffer and [is_active] the mark kept by
    [picoquic_mark_active_stream]. *)
Record quicrq_stream_ctx_t : Type := mk_stream {
  send_state : quicrq_stream_sending_state_enum;
  is_sender : bool;
  start_group_id : Z;
  start_object_id : Z;
  is_start_object_id_sent : bool;
  final_group_id : Z;
  final_object_id : Z;
  is_final_object_id_sent : bool;
  is_cache_real_time : bool;
  is_cache_policy_sent : bool;
  transport_mode : quicrq_transport_mode_enum;
  message_sent : option quicrq_message_t;
  is_active : bool
}.

Definition set_message (s : quicrq_stream_ctx_t) (m : quicrq_message_t)
    (st : quicrq_stream_sending_state_enum) : quicrq_stream_ctx_t :=
  mk_stream st (is_sender s) (start_group_id s) (start_object_id s)
    (is_start_object_id_sent s) (final_group_id s) (final_object_id s)
    (is_final_object_id_sent s) (is_cache_real_time s) (is_cache_policy_sent s)
    (transport_mode s) (Some m) (is_active s).

Definition set_send_state (s : quicrq_stream_ctx_t)
    (st : quicrq_stream_sending_state_enum) : quicrq_stream_ctx_t :=
  mk_stream st (is_sender s) (start_group_id s) (start_object_id s)
    (is_start_object_id_sent s) (final_group_id s) (final_object_id s)
    (is_final_object_id_sent s) (is_cache_real_time s) (is_cache_policy_sent s)
    (transport_mode s) (message_sent s) (is_active s).

Definition picoquic_mark_active_stream (s : quicrq_stream_ctx_t) (active : bool)
  : quicrq_stream_ctx_t :=
  mk_stream (send_state s) (is_sender s) (start_group_id s) (start_object_id s)
    (is_start_object_id_sent s) (final_group_id s) (final_object_id s)
    (is_final_object_id_sent s) (is_cache_real_time s) (is_cache_policy_sent s)
    (transport_mode s) (message_sent s) active.

Definition is_single_stream (m : quicrq_transport_mode_enum) : bool :=
  match m with quicrq_transport_mode_single_stream => true | _ => false end.

Section Codec.

(** Declared outside [lib/quicrq.c]: whether [quicrq_msg_buffer_alloc] and
    the encoder of the message both succeed, and
    [quicrq_fragment_is_ready_to_send] on the media context of the stream,
    for the given space and time. *)
Variable msg_prepared : quicrq_message_t -> bool.
Variable quicrq_fragment_is_ready_to_send : Z -> Z -> bool.

(** Queue a message and move to the given state, or fail with -1. *)
Definition prepare_message (s : quicrq_stream_ctx_t) (m : quicrq_message_t)
    (st : quicrq_stream_sending_state_enum) : Z * quicrq_stream_ctx_t :=
  if msg_prepared m then (0, set_message s m st) else (-1, s).

(** [quicrq_prepare_start_point]. *)
Definition quicrq_prepare_start_point (s : quicrq_stream_ctx_t) : Z * quicrq_stream_ctx_t :=
  prepare_message s (QUICRQ_ACTION_START_POINT (start_group_id s) (start_object_id s))
    quicrq_sending_start_point.

(** The branch [send_state == quicrq_sending_ready] of
    [quicrq_prepare_to_send_on_stream], up to the [switch] that sends what
    was chosen. *)
Definition prepare_to_send_ready (s : quicrq_stream_ctx_t) (space current_time : Z)
  : Z * quicrq_stream_ctx_t :=
  if is_sender s then
    if ((start_group_id s >? 0) || (start_object_id s >? 0))
       && negb (is_start_object_id_sent s) then
      quicrq_prepare_start_point s
    else if ((final_group_id s >? 0) || (final_object_id s >? 0))
            && negb (is_final_object_id_sent s) then
      prepare_message s (QUICRQ_ACTION_FIN_DATAGRAM (final_group_id s) (final_object_id s))
        quicrq_sending_final_point
    else if is_cache_real_time s && negb (is_cache_policy_sent s) then
      prepare_message s (QUICRQ_ACTION_CACHE_POLICY 1) quicrq_sending_cache_policy
    else if is_single_stream (transport_mode s)
            && quicrq_fragment_is_ready_to_send space current_time then
      (0, set_send_state s quicrq_sending_single_stream)
    else (0, picoquic_mark_active_stream s false)
  else (0, s).

End Codec.

(** The conditions of the priority order. *)
Definition start_pending (s : quicrq_stream_ctx_t) : Prop :=
  (start_group_id s, start_object_id s) <> (0, 0) /\ is_start_object_id_sent s = false.

Definition final_pending (s : quicrq_stream_ctx_t) : Prop :=
  (final_group_id s, final_object_id s) <> (0, 0) /\ is_final_object_id_sent s = false.

Definition cache_policy_pending (s : quicrq_stream_ctx_t) : Prop :=
  is_cache_real_time s = true /\ is_cache_policy_sent s = false.

(** A sender stream in the ready state, with identifiers that are unsigned
    values. *)
Definition ready_sender (s : quicrq_stream_ctx_t) : Prop :=
  send_state s = quicrq_sending_ready /\ is_sender s = true
  /\ 0 <= start_group_id s /\ 0 <= start_object_id s
  /\ 0 <= final_group_id s /\ 0 <= final_object_id s.

End Send.

(** ** Object headers on a warp or rush substream *)
Module Uni.

Inductive quicrq_transport_mode_enum : Type :=
| quicrq_transport_mode_single_stream
| quicrq_transport_mode_datagram
| quicrq_transport_mode_warp
| quicrq_transport_mode_rush.

Inductive quicrq_stream_receive_state_enum : Type :=
| quicrq_receive_open
| quicrq_receive_warp_header
| quicrq_receive_object_header
| quicrq_receive_object_data.

(** The fields of [quicrq_uni_stream_ctx_t] used on receive;
    [control_stream_ctx] is the transport mode of the control stream, or
    [None] for a null pointer. *)
Record quicrq_uni_stream_ctx_t : Type := mk_uni {
  receive_state : quicrq_stream_receive_state_enum;
  control_stream_ctx : option quicrq_transport_mode_enum;
  current_group_id : Z;
  current_object_id : Z;
  current_object_length : Z;
  current_object_flags : Z;
  nb_objects_previous_group : Z;
  current_object_offset : Z
}.

(** The fields of a decoded [QUICRQ_ACTION_OBJECT_HEADER]. *)
Record quicrq_message_t : Type := mk_object_header {
  object_id : Z;
  msg_nb_objects_previous_group : Z;
  flags : Z;
  object_length : Z
}.

(** [quicrq_create_uni_stream_context] zeroes the context; the warp header
    then sets the group and the control stream. *)
Definition after_warp_header (mode : quicrq_transport_mode_enum) (group_id : Z)
  : quicrq_uni_stream_ctx_t :=
  mk_uni quicrq_receive_warp_header (Some mode) group_id 0 0 0 0 0.

Definition is_rush (m : quicrq_transport_mode_enum) : bool :=
  match m with quicrq_transport_mode_rush => true | _ => false end.

Definition is_warp (m : quicrq_transport_mode_enum) : bool :=
  match m with quicrq_transport_mode_warp => true | _ => false end.

Definition header_expected (st : quicrq_stream_receive_state_enum) : bool :=
  match st with
  | quicrq_receive_warp_header | quicrq_receive_object_header => true
  | _ => false
  end.

Section Consumer.

(** Declared outside [lib/quicrq.c]: the result of the consumer callback
    for an empty object [(group_id, object_id, flags,
    nb_objects_previous_group)], the value [quicrq_consumer_finished], and
    [quicrq_cnx_handle_consumer_finished] on that value. *)
Variable consumer_fn : Z -> Z -> Z -> Z -> Z.
Variable quicrq_consumer_finished : Z.
Variable quicrq_cnx_handle_consumer_finished : Z -> Z.

(** The case [QUICRQ_ACTION_OBJECT_HEADER] of
    [quicrq_receive_warp_or_rush_stream_data]. *)
Definition receive_object_header (u : quicrq_uni_stream_ctx_t) (incoming : quicrq_message_t)
  : Z * quicrq_uni_stream_ctx_t :=
  if negb (header_expected (receive_state u)) then (-1, u)
  else
    match control_stream_ctx u with
    | None => (-1, u)
    | Some mode =>
        if (is_rush mode && negb (current_object_id u =? 0))
           || (is_warp mode && negb (current_object_id u =? object_id incoming))
        then (-1, u)
        else if object_length incoming >? 0 then
          (0, mk_uni quicrq_receive_object_data (control_stream_ctx u)
                (current_group_id u) (object_id incoming) (object_length incoming)
                (flags incoming) (msg_nb_objects_previous_group incoming) 0)
        else
          let ret := consumer_fn (current_group_id u) (object_id incoming)
                       (flags incoming) (msg_nb_objects_previous_group incoming) in
          let u' := mk_uni quicrq_receive_object_header (control_stream_ctx u)
                      (current_group_id u) (u64 (current_object_id u + 1))
                      (current_object_length u) (current_object_flags u)
                      (nb_objects_previous_group u) (current_object_offset u) in
          (if ret =? quicrq_consumer_finished
           then quicrq_cnx_handle_consumer_finished ret else ret, u')
    end.

End Consumer.

(** The ordering rule in the words of the specification, on the object id
    of the header. *)
Definition spec_header_rule (u : quicrq_uni_stream_ctx_t) (incoming : quicrq_message_t)
  : Prop :=
  match control_stream_ctx u with
  | Some quicrq_transport_mode_rush => object_id incoming = 0
  | Some quicrq_transport_mode_warp => object_id incoming = current_object_id u
  | _ => True
  end.

(** The rule that the code tests: in rush mode it is on the object id kept
    by the substream. *)
Definition header_rule (mode : quicrq_transport_mode_enum) (u : quicrq_uni_stream_ctx_t)
    (incoming : quicrq_message_t) : Prop :=
  (mode = quicrq_transport_mode_rush -> current_object_id u = 0)
  /\ (mode = quicrq_transport_mode_warp -> current_object_id u = object_id incoming).

End Uni.

(** ** Subscribe and notify *)
Module Notify.

Inductive quicrq_stream_sending_state_enum : Type :=
| quicrq_sending_ready
| quicrq_sending_subscribe
| quicrq_sending_notify
| quicrq_waiting_notify
| quicrq_notify_ready
| quicrq_sending_other.

Inductive quicrq_stream_receive_state_enum : Type :=
| quicrq_receive_initial
| quicrq_receive_notify
| quicrq_receive_done.

(** The fields of [quicrq_stream_ctx_t] used by subscribe and notify:
    [first_notify_url] is the chain of [quicrq_notify_url_t], first element
    first; [is_woken] records [quicrq_wakeup_media_stream]. *)
Record quicrq_stream_ctx_t : Type := mk_stream {
  stream_id : Z;
  send_state : quicrq_stream_sending_state_enum;
  receive_state : quicrq_stream_receive_state_enum;
  subscribe_prefix : list Z;
  first_notify_url : list (list Z);
  is_woken : bool
}.

Definition is_notify_ready (st : quicrq_stream_sending_state_enum) : bool :=
  match st with quicrq_notify_ready => true | _ => false end.

(** [memcmp(url, prefix, prefix_length) == 0], on a URL that is at least
    as long as the prefix. *)
Fixpoint memcmp_prefix (prefix url : list Z) : bool :=
  match prefix, url with
  | [], _ => true
  | p :: prefix', u :: url' => (p =? u) && memcmp_prefix prefix' url'
  | _ :: _, [] => false
  end.

(** [quicrq_notify_url_to_stream]. *)
Definition quicrq_notify_url_to_stream (s : quicrq_stream_ctx_t) (url : list Z)
  : Z * quicrq_stream_ctx_t :=
  if (Z.of_nat (List.length (subscribe_prefix s)) <=? Z.of_nat (List.length url))
     && memcmp_prefix (subscribe_prefix s) url
  then (1, mk_stream (stream_id s) (send_state s) (receive_state s)
             (subscribe_prefix s) (url :: first_notify_url s) true)
  else (0, s).

(** The inner loop of [quicrq_notify_url_to_all], over the streams of one
    connection; [ret] is the value of the variable on entry. *)
Fixpoint notify_url_to_streams (ret : Z) (streams : list quicrq_stream_ctx_t)
    (url : list Z) : Z * list quicrq_stream_ctx_t :=
  match streams with
  | [] => (ret, [])
  | stream_ctx :: next =>
      if is_notify_ready (send_state stream_ctx) then
        let '(r, stream_ctx') := quicrq_notify_url_to_stream stream_ctx url in
        if r >? 0 then (0, stream_ctx' :: next)
        else
          let '(r', next') := notify_url_to_streams r next url in
          (r', stream_ctx' :: next')
      else
        let '(r', next') := notify_url_to_streams ret next url in
        (r', stream_ctx :: next')
  end.

(** The outer loop, over the connections of the context. *)
Fixpoint notify_url_to_cnx (ret : Z) (cnxs : list (list quicrq_stream_ctx_t))
    (url : list Z) : Z * list (list quicrq_stream_ctx_t) :=
  match cnxs with
  | [] => (ret, [])
  | cnx_ctx :: next =>
      if ret =? 0 then
        let '(r, cnx_ctx') := notify_url_to_streams ret cnx_ctx url in
        let '(r', next') := notify_url_to_cnx r next url in
        (r', cnx_ctx' :: next')
      else (ret, cnx_ctx :: next)
  end.

(** [quicrq_notify_url_to_all], on the connections of the [qr_ctx]. *)
Definition quicrq_notify_url_to_all (qr_ctx : list (list quicrq_stream_ctx_t))
    (url : list Z) : Z * list (list quicrq_stream_ctx_t) :=
  notify_url_to_cnx 0 qr_ctx url.

(** The loop of [quicrq_process_incoming_subscribe] over the media sources. *)
Fixpoint notify_sources (s : quicrq_stream_ctx_t) (sources : list (list Z))
  : Z * quicrq_stream_ctx_t :=
  match sources with
  | [] => (0, s)
  | media_url :: next_source =>
      let '(r, s') := quicrq_notify_url_to_stream s media_url in
      if r <? 0 then (-1, s') else notify_sources s' next_source
  end.

(** [quicrq_process_incoming_subscribe], with the URLs of the sources
    registered in the [qr_ctx], first source first. *)
Definition quicrq_process_incoming_subscribe (s : quicrq_stream_ctx_t)
    (url : list Z) (sources : list (list Z)) : Z * quicrq_stream_ctx_t :=
  let s1 := mk_stream (stream_id s) quicrq_notify_ready quicrq_receive_done url
              (first_notify_url s) (is_woken s) in
  notify_sources s1 sources.

(** [p] is a prefix of [u]. *)
Definition prefix_of (p u : list Z) : Prop := exists rest, u = p ++ rest.

(** A stream that waits for notifications and whose prefix matches. *)
Definition subscribed_to (s : quicrq_stream_ctx_t) (url : list Z) : Prop :=
  send_state s = quicrq_notify_ready /\ prefix_of (subscribe_prefix s) url.

(** The stream with one more NOTIFY queued, in front. *)
Definition enqueue_notify (s : quicrq_stream_ctx_t) (url : list Z) : quicrq_stream_ctx_t :=
  mk_stream (stream_id s) (send_state s) (receive_state s) (subscribe_prefix s)
    (url :: first_notify_url s) true.

(** The streams of a connection before and after a URL is notified: the
    first subscribed stream, if there is one, gets the NOTIFY. *)
Inductive cnx_notified (url : list Z)
  : list quicrq_stream_ctx_t -> list quicrq_stream_ctx_t -> Prop :=
| notified_none (c : list quicrq_stream_ctx_t) :
    Forall (fun s => ~ subscribed_to s url) c -> cnx_notified url c c
| notified_first (before : list quicrq_stream_ctx_t) (s : quicrq_stream_ctx_t)
    (after : list quicrq_stream_ctx_t) :
    Forall (fun s => ~ subscribed_to s url) before ->
    subscribed_to s url ->
    cnx_notified url (before ++ s :: after) (before ++ enqueue_notify s url :: after).

(** Two subscriptions to the prefix "v" on one connection, and the URL
    "vi". *)
Definition two_subscribers : list quicrq_stream_ctx_t :=
  [mk_stream 0 quicrq_notify_ready quicrq_receive_done [118] [] false;
   mk_stream 4 quicrq_notify_ready quicrq_receive_done [118] [] false].

End Notify.

(** ** Message buffers *)
Module MsgBuffer.

(** [quicrq_message_buffer_t]; [buffer] holds the [buffer_alloc] bytes of
    the block, and is empty for a null pointer. *)
Record quicrq_message_buffer_t : Type := mk_buffer {
  nb_bytes_read : Z;
  message_size : Z;
  buffer_alloc : Z;
  buffer : list Z
}.

(** A call returns, or reads or writes outside of a block. *)
Inductive outcome (A : Type) : Type :=
| Returns (a : A)
| Overflow.
Arguments Returns {A} a.
Arguments Overflow {A}.

Definition set_read (mb : quicrq_message_buffer_t) (nb size : Z) : quicrq_message_buffer_t :=
  mk_buffer nb size (buffer_alloc mb) (buffer mb).

Definition set_block (mb : quicrq_message_buffer_t) (alloc : Z) (b : list Z)
  : quicrq_message_buffer_t :=
  mk_buffer (nb_bytes_read mb) (message_size mb) alloc b.

(** [memcpy (dst + off, src, n)], inside of both blocks. *)
Definition memcpy (dst : list Z) (off : Z) (src : list Z) (n : Z) : list Z :=
  firstn (Z.to_nat off) dst ++ firstn (Z.to_nat n) src
  ++ skipn (Z.to_nat (off + n)) dst.

(** [quicrq_msg_buffer_reset]. *)
Definition quicrq_msg_buffer_reset (mb : quicrq_message_buffer_t) : quicrq_message_buffer_t :=
  set_read mb 0 0.

Section Heap.

(** [malloc]: the block of the size asked, with whatever it holds, or
    nothing. *)
Variable malloc : Z -> option (list Z).

(** [quicrq_msg_buffer_alloc]. *)
Definition quicrq_msg_buffer_alloc (mb : quicrq_message_buffer_t) (space bytes_stored : Z)
  : Z * quicrq_message_buffer_t :=
  if bytes_stored >? buffer_alloc mb then (-1, mb)
  else if space >? buffer_alloc mb then
    match malloc space with
    | None => (-1, mb)
    | Some x =>
        let x' := if (bytes_stored >? 0) && (bytes_stored <=? space)
                  then memcpy x 0 (buffer mb) bytes_stored
                  else x in
        (0, set_block mb space x')
    end
  else (0, mb).

(** The first loop of [quicrq_msg_buffer_store], which reads the two
    bytes of the message size; it makes at most two turns, since
    [nb_bytes_read] grows by one at each. *)
Fixpoint store_size (turns : nat) (bytes : list Z) (length : Z)
    (mb : quicrq_message_buffer_t)
  : outcome (list Z * Z * quicrq_message_buffer_t) :=
  match turns with
  | O => Returns (bytes, length, mb)
  | S turns' =>
      if (nb_bytes_read mb <? 2) && (length >? 0) then
        match bytes with
        | [] => Overflow
        | b :: bytes' =>
            store_size turns' bytes' (length - 1)
              (set_read mb (u64 (nb_bytes_read mb + 1))
                 (u64 (u64 (message_size mb * 256) + b)))
        end
      else Returns (bytes, length, mb)
  end.

(** [quicrq_msg_buffer_store]: [bytes] is what the pointer points to, of
    which the call may read [length] bytes. The result is the pointer
    returned (nothing for [NULL]), the buffer, and [*is_finished]. *)
Definition quicrq_msg_buffer_store (bytes : list Z) (length : Z)
    (mb : quicrq_message_buffer_t)
  : outcome (option (list Z) * quicrq_message_buffer_t * bool) :=
  match store_size 2 bytes length mb with
  | Overflow => Overflow
  | Returns (bytes, length, mb) =>
      if nb_bytes_read mb >=? 2 then
        let bytes_stored := u64 (nb_bytes_read mb - 2) in
        let required := u64 (message_size mb - bytes_stored) in
        if required >? 0 then
          let '(ret, mb) := quicrq_msg_buffer_alloc mb (message_size mb) bytes_stored in
          if negb (ret =? 0) then Returns (None, mb, false)
          else
            let is_finished := length >=? required in
            let length := if is_finished then required else length in
            if (bytes_stored + length >? buffer_alloc mb)
               || (length >? Z.of_nat (List.length bytes))
            then Overflow
            else
              Returns (Some (skipn (Z.to_nat length) bytes),
                       mk_buffer (u64 (nb_bytes_read mb + length)) (message_size mb)
                         (buffer_alloc mb)
                         (memcpy (buffer mb) bytes_stored bytes length),
                       is_finished)
        else Returns (Some bytes, mb, true)
      else Returns (Some bytes, mb, false)
  end.

End Heap.

Section Stream.

(** [picoquic_provide_stream_data_buffer], declared by picoquic: whether
    it gives a buffer for the number of bytes asked. *)
Variable picoquic_provide_stream_data_buffer : Z -> bool.

(** The loop of [quicrq_msg_buffer_prepare_to_send_message] that writes
    the two bytes of the size; [written] is what the buffer given by
    picoquic holds so far. *)
Fixpoint send_size (turns : nat) (total_size : Z) (written : list Z) (available : Z)
    (nb : Z) : list Z * Z * Z :=
  match turns with
  | O => (written, available, nb)
  | S turns' =>
      if (nb <? 2) && (available >? 0) then
        let b := if nb =? 0 then Z.land (Z.shiftr total_size 8) 255
                 else Z.land total_size 255 in
        send_size turns' total_size (written ++ [b]) (available - 1) (u64 (nb + 1))
      else (written, available, nb)
  end.

(** [quicrq_msg_buffer_prepare_to_send_message]: the result is the [int]
    returned, the buffer, the bytes written to the stream (nothing when
    picoquic is not asked or gives no buffer), and the value of
    [more_to_send] given to picoquic. *)
Definition quicrq_msg_buffer_prepare_to_send_message (mb : quicrq_message_buffer_t)
    (space : Z) (more_to_send : bool)
  : outcome (Z * quicrq_message_buffer_t * option (list Z) * bool) :=
  let total_size := message_size mb in
  let total_to_send := u64 (2 + total_size) in
  if nb_bytes_read mb <? total_to_send then
    let available := u64 (total_to_send - nb_bytes_read mb) in
    let more_to_send := if available >? space then true else more_to_send in
    let available := if available >? space then space else available in
    let finish (mb : quicrq_message_buffer_t) :=
      if nb_bytes_read mb >=? total_to_send then set_read mb 0 0 else mb in
    if picoquic_provide_stream_data_buffer available then
      let '(written, available, nb) :=
        send_size 2 total_size [] available (nb_bytes_read mb) in
      if (available >? 0) && (nb <? u64 (message_size mb + 2)) then
        let offset := u64 (nb - 2) in
        if offset + available >? buffer_alloc mb then Overflow
        else
          let data := firstn (Z.to_nat available) (skipn (Z.to_nat offset) (buffer mb)) in
          Returns (0, finish (set_read mb (u64 (nb + available)) (message_size mb)),
                   Some (written ++ data), more_to_send)
      else
        Returns (0, finish (set_read mb nb (message_size mb)), Some written, more_to_send)
    else Returns (-1, finish mb, None, more_to_send)
  else Returns (0, mb, None, more_to_send).

End Stream.

(** *** Messages on the wire *)

(** A message behind its length on two bytes, the high one first. *)
Definition framed (msg : list Z) : list Z :=
  let n := Z.of_nat (List.length msg) in
  (n / 256) :: (n mod 256) :: msg.

(** The size that the bytes read so far give. *)
Definition size_read (p : list Z) : Z :=
  match p with
  | [] => 0
  | [a] => a
  | a :: b :: _ => a * 256 + b
  end.

(** The buffer has read the bytes [p] of a framed message since it was
    reset: it has counted them, [message_size] is what the first two of
    them give, and the others are in the block. *)
Definition has_read (mb : quicrq_message_buffer_t) (p : list Z) : Prop :=
  nb_bytes_read mb = Z.of_nat (List.length p)
  /\ message_size mb = size_read p
  /\ Z.of_nat (List.length (buffer mb)) = buffer_alloc mb
  /\ firstn (List.length p - 2) (buffer mb) = skipn 2 p.

(** The sender has the message [msg] in the block and has sent [k] bytes
    of it, size included. *)
Definition has_sent (mb : quicrq_message_buffer_t) (msg : list Z) (k : Z) : Prop :=
  nb_bytes_read mb = k
  /\ message_size mb = Z.of_nat (List.length msg)
  /\ Z.of_nat (List.length (buffer mb)) = buffer_alloc mb
  /\ firstn (List.length msg) (buffer mb) = msg.

End MsgBuffer.

(** ** Names written as text *)
Module Text.

(** The first loop of [quicrq_uint8_t_to_text], from the byte [u[i]] on:
    [out] is what [buffer] holds below the index [l], which is its
    length. The result is the bytes not converted and the text. *)
Fixpoint text_loop (available : Z) (u : list Z) (out : list Z) : list Z * list Z :=
  match u with
  | [] => ([], out)
  | c :: u' =>
      if Z.of_nat (List.length out) <? available then
        if c =? 92 then text_loop available u' (out ++ [92; 92])
        else if (c >=? 32) && (c <=? 126) && negb (c =? 92) then
          text_loop available u' (out ++ [c])
        else
          let d1 := c / 100 in
          let c1 := c - 100 * d1 in
          let d2 := c1 / 10 in
          let c2 := c1 - 10 * d2 in
          text_loop available u' (out ++ [92; 48 + d1; 48 + d2; 48 + c2])
      else (u, out)
  end.

(** The loop that writes up to three dots. *)
Fixpoint text_dots (turns : nat) (available : Z) (out : list Z) : list Z :=
  match turns with
  | O => out
  | S turns' =>
      if Z.of_nat (List.length out) <? available
      then text_dots turns' available (out ++ [46])
      else out
  end.

(** [quicrq_uint8_t_to_text] on the [length] bytes [u]: the text
    returned, without the null character that ends it, and the number of
    characters written to [buffer], that one included. *)
Definition quicrq_uint8_t_to_text (u : list Z) (buffer_length : Z) : list Z * Z :=
  if buffer_length <? 16 then ([63; 63; 63], 0)
  else
    let '(rest, out) := text_loop (buffer_length - 8) u [] in
    let out := match rest with
               | [] => out
               | _ :: _ => text_dots 3 (buffer_length - 1) out
               end in
    (out, Z.of_nat (List.length out) + 1).

(** *** The text of a name *)

Definition is_u8 (c : Z) : Prop := 0 <= c < 256.

(** A printable character of ASCII. *)
Definition printable (c : Z) : Prop := 32 <= c <= 126.

(** A backslash is doubled, the other printable characters stand for
    themselves, and every other byte is a backslash and three decimal
    digits. *)
Definition escape_char (c : Z) : list Z :=
  if c =? 92 then [92; 92]
  else if (32 <=? c) && (c <=? 126) then [c]
  else [92; 48 + c / 100; 48 + (c mod 100) / 10; 48 + c mod 10].

Definition escape (u : list Z) : list Z := flat_map escape_char u.

(** Reading a text back. *)
Fixpoint unescape (t : list Z) : list Z :=
  match t with
  | [] => []
  | x :: t1 =>
      if x =? 92 then
        match t1 with
        | [] => [x]
        | a :: t2 =>
            if a =? 92 then 92 :: unescape t2
            else
              match t2 with
              | b :: c :: t3 =>
                  (100 * (a - 48) + 10 * (b - 48) + (c - 48)) :: unescape t3
              | _ => [x]
              end
        end
      else x :: unescape t1
  end.

End Text.

(** ** Receiving on a unidirectional substream *)
Module Substream.
Import Uni.

(** What [quicrq_msg_decode] gives for the messages that a substream
    handles: the fields of a warp header, of an object header, or the
    type of another message. *)
Inductive incoming_message : Type :=
| QUICRQ_ACTION_WARP_HEADER (media_id group_id : Z)
| QUICRQ_ACTION_OBJECT_HEADER (header : quicrq_message_t)
| other_action (message_type : Z).

(** One call of the consumer with [quicrq_media_datagram_ready]: the
    fields given, and the [data_length] bytes at the pointer given. *)
Record delivery : Type := mk_delivery {
  dl_data : list Z;
  dl_group_id : Z;
  dl_object_id : Z;
  dl_offset : Z;
  dl_flags : Z;
  dl_nb_objects_previous_group : Z;
  dl_object_length : Z;
  dl_data_length : Z
}.

(** The variables of [quicrq_receive_warp_or_rush_stream_data]: the
    context of the substream with its message buffer, what [bytes] points
    to, [length], [ret], and the calls made to the consumer so far. *)
Record receiving : Type := mk_receiving {
  uni_stream_ctx : quicrq_uni_stream_ctx_t;
  message_buffer : MsgBuffer.quicrq_message_buffer_t;
  bytes : list Z;
  length : Z;
  ret : Z;
  delivered : list delivery
}.

(** How a call ends: it returns, reads through a null pointer, leaves a
    block, or runs out of the turns of the model. *)
Inductive run (A : Type) : Type :=
| Fine (a : A)
| NullDeref
| OutOfBlock
| OutOfTurns.
Arguments Fine {A} a.
Arguments NullDeref {A}.
Arguments OutOfBlock {A}.
Arguments OutOfTurns {A}.

(** The control streams of a connection, each with its [media_id] and
    transport mode, in the order of the list that starts at
    [first_stream]. *)
Definition quicrq_cnx_ctx_t : Type := list (Z * quicrq_transport_mode_enum).

(** [quicrq_get_control_stream_for_media_id]. *)
Fixpoint quicrq_get_control_stream_for_media_id (cnx : quicrq_cnx_ctx_t) (media_id : Z)
  : option quicrq_transport_mode_enum :=
  match cnx with
  | [] => None
  | (m, mode) :: cnx' =>
      if m =? media_id then Some mode
      else quicrq_get_control_stream_for_media_id cnx' media_id
  end.

Definition set_receive_state (u : quicrq_uni_stream_ctx_t)
    (st : quicrq_stream_receive_state_enum) : quicrq_uni_stream_ctx_t :=
  mk_uni st (control_stream_ctx u) (current_group_id u) (current_object_id u)
    (current_object_length u) (current_object_flags u) (nb_objects_previous_group u)
    (current_object_offset u).

Definition is_receive_open (st : quicrq_stream_receive_state_enum) : bool :=
  match st with quicrq_receive_open => true | _ => false end.

Definition is_receive_object_data (st : quicrq_stream_receive_state_enum) : bool :=
  match st with quicrq_receive_object_data => true | _ => false end.

Section Callbacks.

(** Declared outside [lib/quicrq.c]: [malloc], the decoder of messages,
    the result of the consumer for a delivery, the value
    [quicrq_consumer_finished], and [quicrq_cnx_handle_consumer_finished]
    on that value. *)
Variable malloc : Z -> option (list Z).
Variable quicrq_msg_decode : list Z -> option incoming_message.
Variable consumer_fn : delivery -> Z.
Variable quicrq_consumer_finished : Z.
Variable quicrq_cnx_handle_consumer_finished : Z -> Z.

(** The case [QUICRQ_ACTION_WARP_HEADER]. *)
Definition receive_warp_header (cnx : quicrq_cnx_ctx_t) (u : quicrq_uni_stream_ctx_t)
    (media_id group_id : Z) : Z * quicrq_uni_stream_ctx_t :=
  if negb (is_receive_open (receive_state u)) then (-1, u)
  else
    let u1 := mk_uni quicrq_receive_warp_header (control_stream_ctx u) group_id
                (current_object_id u) (current_object_length u) (current_object_flags u)
                (nb_objects_previous_group u) (current_object_offset u) in
    match quicrq_get_control_stream_for_media_id cnx media_id with
    | None => (-1, u1)
    | Some ctrl =>
        (0, match control_stream_ctx u1 with
            | None =>
                mk_uni quicrq_receive_warp_header (Some ctrl) group_id
                  (current_object_id u) (current_object_length u)
                  (current_object_flags u) (nb_objects_previous_group u)
                  (current_object_offset u)
            | Some _ => u1
            end)
    end.

(** The consumer called for an empty object, as the case
    [QUICRQ_ACTION_OBJECT_HEADER] does. *)
Definition consumer_empty (group_id object_id flags nb_objects_previous_group : Z) : Z :=
  consumer_fn (mk_delivery [] group_id object_id 0 flags nb_objects_previous_group 0 0).

(** The branch of the loop taken in the state
    [quicrq_receive_object_data]. *)
Definition receive_object_data (r : receiving) : run receiving :=
  let u := uni_stream_ctx r in
  match control_stream_ctx u with
  | None => NullDeref
  | Some _ =>
      let copied :=
        if u64 (current_object_offset u + length r) >? current_object_length u
        then u64 (current_object_length u - current_object_offset u)
        else length r in
      let d := mk_delivery (firstn (Z.to_nat copied) (bytes r)) (current_group_id u)
                 (current_object_id u) (current_object_offset u) (current_object_flags u)
                 (nb_objects_previous_group u) (current_object_length u) copied in
      let ret := consumer_fn d in
      let offset := u64 (current_object_offset u + copied) in
      let u' :=
        if offset >=? current_object_length u then
          mk_uni quicrq_receive_object_header (control_stream_ctx u) (current_group_id u)
            (u64 (current_object_id u + 1)) (current_object_length u)
            (current_object_flags u) (nb_objects_previous_group u) 0
        else
          mk_uni (receive_state u) (control_stream_ctx u) (current_group_id u)
            (current_object_id u) (current_object_length u) (current_object_flags u)
            (nb_objects_previous_group u) offset in
      let ret := if ret =? quicrq_consumer_finished
                 then quicrq_cnx_handle_consumer_finished ret else ret in
      Fine (mk_receiving u' (message_buffer r) (bytes r) (u64 (length r - copied)) ret
              (delivered r ++ [d]))
  end.

(** The other branch: the next message is accumulated and, once
    complete, decoded and handled; [next_bytes] is further than [bytes] by
    the difference of what they point to. The deliveries of empty objects
    are not kept in [delivered]. *)
Definition receive_message (cnx : quicrq_cnx_ctx_t) (r : receiving) : run receiving :=
  match MsgBuffer.quicrq_msg_buffer_store malloc (bytes r) (length r) (message_buffer r) with
  | MsgBuffer.Overflow => OutOfBlock
  | MsgBuffer.Returns (None, mb, _) =>
      Fine (mk_receiving (uni_stream_ctx r) mb (bytes r) (length r) (-1) (delivered r))
  | MsgBuffer.Returns (Some next_bytes, mb, is_finished) =>
      let length' :=
        u64 (length r
             - (Z.of_nat (List.length (bytes r)) - Z.of_nat (List.length next_bytes))) in
      if is_finished then
        let '(ret, u) :=
          match quicrq_msg_decode
                  (firstn (Z.to_nat (MsgBuffer.message_size mb)) (MsgBuffer.buffer mb)) with
          | None => (-1, uni_stream_ctx r)
          | Some (QUICRQ_ACTION_WARP_HEADER media_id group_id) =>
              receive_warp_header cnx (uni_stream_ctx r) media_id group_id
          | Some (QUICRQ_ACTION_OBJECT_HEADER header) =>
              receive_object_header consumer_empty quicrq_consumer_finished
                quicrq_cnx_handle_consumer_finished (uni_stream_ctx r) header
          | Some (other_action _) => (-1, uni_stream_ctx r)
          end in
        Fine (mk_receiving u (MsgBuffer.quicrq_msg_buffer_reset mb) next_bytes length' ret
                (delivered r))
      else
        Fine (mk_receiving (uni_stream_ctx r) mb next_bytes length' (ret r) (delivered r))
  end.

(** The loop. *)
Fixpoint receive_loop (turns : nat) (cnx : quicrq_cnx_ctx_t) (r : receiving)
  : run receiving :=
  if (ret r =? 0) && (length r >? 0) then
    match turns with
    | O => OutOfTurns
    | S turns' =>
        match (if is_receive_object_data (receive_state (uni_stream_ctx r))
               then receive_object_data r else receive_message cnx r) with
        | Fine r' => receive_loop turns' cnx r'
        | NullDeref => NullDeref
        | OutOfBlock => OutOfBlock
        | OutOfTurns => OutOfTurns
        end
    end
  else Fine r.

(** [quicrq_receive_warp_or_rush_stream_data]: the [int] returned, the
    context of the substream and its buffer unless the call deleted them,
    and the calls made to the consumer. A turn of the loop that takes no
    byte is followed by one that does, or by the end of the loop. *)
Definition quicrq_receive_warp_or_rush_stream_data (cnx : quicrq_cnx_ctx_t)
    (u : quicrq_uni_stream_ctx_t) (mb : MsgBuffer.quicrq_message_buffer_t)
    (bytes : list Z) (length : Z) (is_fin : bool)
  : run (Z * option (quicrq_uni_stream_ctx_t * MsgBuffer.quicrq_message_buffer_t)
         * list delivery) :=
  match receive_loop (S (S (3 * Z.to_nat length))) cnx
          (mk_receiving u mb bytes length 0 []) with
  | Fine r =>
      if is_fin then
        match control_stream_ctx (uni_stream_ctx r) with
        | None => NullDeref
        | Some _ => Fine (ret r, None, delivered r)
        end
      else Fine (ret r, Some (uni_stream_ctx r, message_buffer r), delivered r)
  | NullDeref => NullDeref
  | OutOfBlock => OutOfBlock
  | OutOfTurns => OutOfTurns
  end.

End Callbacks.

End Substream.

(** A heap that always gives a zeroed block, a stream that always gives a
    buffer, a message of three bytes, and buffers at several points of
    sending and receiving it. *)
Module MsgBufferExamples.
Import MsgBuffer.

Definition ex_malloc (n : Z) : option (list Z) := Some (List.repeat 0 (Z.to_nat n)).
Definition ex_provide (_ : Z) : bool := true.
Definition ex_msg : list Z := [7; 8; 9].
Definition ex_reset : quicrq_message_buffer_t := mk_buffer 0 0 0 [].
Definition ex_receiver : quicrq_message_buffer_t := mk_buffer 3 3 3 [7; 0; 0].
Definition ex_sender_start : quicrq_message_buffer_t :=
  mk_buffer 0 3 8 [7; 8; 9; 0; 0; 0; 0; 0].
Definition ex_sender : quicrq_message_buffer_t :=
  mk_buffer 1 3 8 [7; 8; 9; 0; 0; 0; 0; 0].

End MsgBufferExamples.

(** ** Concrete streams used by the examples *)
Module AckExamples.
Import Ack.

(** A fresh context, and the acknowledged record of key (1, 0, 0). *)
Definition walk_s0 : stream := quicrq_datagram_ack_ctx_init 1 true false false 0.
Definition walk_r1 : das := mk_das 1 0 0 0 0 10 10 0 0 0 true false false None 0.

(** A horizon at the end of object (0, 0) and the acknowledged first
    fragment of object (0, 1). *)
Definition walk_r2 : das := mk_das 0 1 0 0 0 50 50 0 0 0 true false false None 0.
Definition walk_s1 : stream :=
  mk_stream 0 0 100 true [walk_r2] [] 0 0 0 0 1 true false false 0 [].

(** The same stream once the horizon has passed that fragment. *)
Definition walk_s2 : stream := collapse walk_s1 walk_r2.

(** A fragment of 50 bytes recorded, not acknowledged, at the horizon. *)
Definition walk_r3 : das := mk_das 0 0 100 0 0 50 200 0 0 0 false false false None 0.
Definition walk_s3 : stream :=
  mk_stream 0 0 100 false [walk_r3] [] 0 0 0 0 1 true false false 0 [].

(** A transport with a packet of 1536 bytes, a queue limit of 30 bytes, a
    header of 10 bytes, and frames always accepted. *)
Definition ex_hlen (_ _ _ _ _ _ _ _ : Z) : Z := 10.
Definition ex_qframe (_ : Z) : Z := 0.

(** A stream with one record of 50 bytes sent at time 0. *)
Definition ex_data : list Z := map Z.of_nat (seq 0 50).
Definition ex_r : das := mk_das 0 0 0 0 0 50 50 0 0 0 false false false None 0.
Definition ex_s : stream :=
  mk_stream UINT64_MAX UINT64_MAX UINT64_MAX true [ex_r] [] 0 0 0 0 1 true true false
    10000 [].

(** A delayed fragment recorded at time 100 with its extra repeat queued,
    then repeated at time 10100 the way [quicrq_handle_extra_repeat] does
    it. *)
Definition late_s0 : stream := quicrq_datagram_ack_ctx_init 1 true true true 10000.
Definition late_s1 : stream :=
  snd (quicrq_datagram_ack_init late_s0 0 0 0 0 0 (List.repeat 0 10) 10 21 10 100).
Definition late_s2 : stream :=
  match quicrq_datagram_handle_repeat 1536 1200 ex_hlen ex_qframe late_s1 (0, 0, 0)
          (List.repeat 0 10) 10 false 10100 with
  | Ok (_, s) => quicrq_datagram_ack_extra_dequeue s (0, 0, 0)
  | _ => late_s1
  end.

End AckExamples.

(** * Properties of the acknowledgement engine *)
Module AckFacts.
Import Ack AckExamples.

(** ** Keys and the tree *)

Lemma akey_eqb_eq (a b : akey) : akey_eqb a b = true <-> a = b.
Proof.
  destruct a as [[g1 o1] f1], b as [[g2 o2] f2]; unfold akey_eqb.
  rewrite !andb_true_iff, !Z.eqb_eq. split.
  - intros [[-> ->] ->]; reflexivity.
  - intros H; inversion H; auto.
Qed.

Lemma akey_eqb_refl (a : akey) : akey_eqb a a = true.
Proof. apply akey_eqb_eq; reflexivity. Qed.

Lemma akey_eqb_neq (a b : akey) : akey_eqb a b = false <-> a <> b.
Proof.
  split.
  - intros H E. apply akey_eqb_eq in E. congruence.
  - intros H. destruct (akey_eqb a b) eqn:E; [apply akey_eqb_eq in E; contradiction | reflexivity].
Qed.

(** A function on records that leaves the key alone. *)
Definition keeps_key (f : das -> das) : Prop := forall x, key (f x) = key x.

Lemma find_some (t : list das) (k : akey) (r : das) :
  quicrq_datagram_ack_find t k = Some r -> key r = k /\ In r t.
Proof.
  induction t as [|x t IH]; simpl; [discriminate|].
  destruct (akey_eqb (key x) k) eqn:E.
  - intros H. apply akey_eqb_eq in E. inversion H; subst.
    split; [reflexivity | left; reflexivity].
  - intros H. destruct (IH H). split; [assumption | right; assumption].
Qed.

Lemma find_none (t : list das) (k : akey) :
  quicrq_datagram_ack_find t k = None <-> ~ In k (map key t).
Proof.
  induction t as [|x t IH]; simpl; [tauto|].
  destruct (akey_eqb (key x) k) eqn:E.
  - apply akey_eqb_eq in E. split; [discriminate | tauto].
  - apply akey_eqb_neq in E. tauto.
Qed.

Lemma find_update_same (t : list das) (k : akey) (f : das -> das) :
  keeps_key f ->
  quicrq_datagram_ack_find (update_das t k f) k
  = option_map f (quicrq_datagram_ack_find t k).
Proof.
  intros Hf. induction t as [|x t IH]; simpl; [reflexivity|].
  destruct (akey_eqb (key x) k) eqn:E.
  - rewrite Hf, E. reflexivity.
  - rewrite E. exact IH.
Qed.

Lemma find_update_other (t : list das) (k k' : akey) (f : das -> das) :
  keeps_key f -> k <> k' ->
  quicrq_datagram_ack_find (update_das t k f) k' = quicrq_datagram_ack_find t k'.
Proof.
  intros Hf Hk. induction t as [|x t IH]; simpl; [reflexivity|].
  destruct (akey_eqb (key x) k) eqn:E.
  - rewrite Hf. apply akey_eqb_eq in E.
    assert (E' : akey_eqb (key x) k' = false) by (apply akey_eqb_neq; congruence).
    rewrite E'. exact IH.
  - destruct (akey_eqb (key x) k'); [reflexivity | exact IH].
Qed.

Lemma map_key_update (t : list das) (k : akey) (f : das -> das) :
  keeps_key f -> map key (update_das t k f) = map key t.
Proof.
  intros Hf. unfold update_das. rewrite map_map. apply map_ext.
  intros x. destruct (akey_eqb (key x) k); [apply Hf | reflexivity].
Qed.

Lemma find_insert_same (t : list das) (v : das) :
  quicrq_datagram_ack_find t (key v) = None ->
  quicrq_datagram_ack_find (picosplay_insert t v) (key v) = Some v.
Proof.
  induction t as [|x t IH]; simpl.
  - rewrite akey_eqb_refl. reflexivity.
  - destruct (akey_eqb (key x) (key v)) eqn:E; [discriminate|]. intros H.
    destruct (quicrq_datagram_ack_node_compare v x <? 0); simpl.
    + rewrite akey_eqb_refl. reflexivity.
    + rewrite E. auto.
Qed.

Lemma find_insert_other (t : list das) (v : das) (k : akey) :
  k <> key v ->
  quicrq_datagram_ack_find (picosplay_insert t v) k = quicrq_datagram_ack_find t k.
Proof.
  intros Hk.
  assert (E : akey_eqb (key v) k = false) by (apply akey_eqb_neq; congruence).
  induction t as [|x t IH]; simpl.
  - rewrite E. reflexivity.
  - destruct (quicrq_datagram_ack_node_compare v x <? 0); simpl.
    + rewrite E. reflexivity.
    + destruct (akey_eqb (key x) k); [reflexivity | exact IH].
Qed.

Lemma in_insert (t : list das) (v x : das) :
  In x (picosplay_insert t v) <-> x = v \/ In x t.
Proof.
  induction t as [|y t IH]; simpl.
  - intuition.
  - destruct (quicrq_datagram_ack_node_compare v y <? 0); simpl; intuition.
Qed.

Lemma update_das_absent (t : list das) (k : akey) (f : das -> das) :
  ~ In k (map key t) -> update_das t k f = t.
Proof.
  induction t as [|x t IH]; simpl; [reflexivity|]. intros H.
  destruct (akey_eqb (key x) k) eqn:E.
  - apply akey_eqb_eq in E. tauto.
  - f_equal. apply IH. tauto.
Qed.

Lemma keeps_key_set_is_acked b : keeps_key (fun x => set_is_acked x b).
Proof. intros x; reflexivity. Qed.
Lemma keeps_key_set_nack b : keeps_key (fun x => set_nack_received x b).
Proof. intros x; reflexivity. Qed.
Lemma keeps_key_set_length n : keeps_key (fun x => set_length x n).
Proof. intros x; reflexivity. Qed.
Lemma keeps_key_set_last_sent n : keeps_key (fun x => set_last_sent_time x n).
Proof. intros x; reflexivity. Qed.
Lemma keeps_key_set_queued b : keeps_key (fun x => set_is_extra_queued x b).
Proof. intros x; reflexivity. Qed.
Lemma keeps_key_set_extra d n : keeps_key (fun x => set_extra x d n).
Proof. intros x; reflexivity. Qed.
Lemma keeps_key_inherit n b :
  keeps_key (fun x => set_nack_received (set_object_length x n) b).
Proof. intros x; reflexivity. Qed.

Create HintDb das.

#[local] Hint Resolve keeps_key_set_is_acked keeps_key_set_nack keeps_key_set_length
  keeps_key_set_last_sent keeps_key_set_queued keeps_key_set_extra
  keeps_key_inherit : das.


Ltac wrap_lia := unfold is_u64, u64, i64, UINT64_MAX in *; Z.div_mod_to_equations; lia.

(** ** The marking loop *)

(** C10. A context that has recorded the fragment at offset 0, 100 bytes
    long, of object (0, 0) receives the acknowledgement of 200 bytes at
    that offset: the marking loop asks for the successor of the last
    record of the tree and reads through the null value it gets. *)
Theorem handle_ack_reads_null_successor :
  let s0 := quicrq_datagram_ack_ctx_init 1 true false false 0 in
  let '(ret, created, s1) :=
    quicrq_datagram_ack_init s0 0 0 0 0 0 (repeat 0 100) 100 0 100 0 in
  ret = 0 /\ created = Some (0, 0, 0)
  /\ List.length (datagram_ack_tree s1) = 1%nat
  /\ quicrq_datagram_handle_ack s1 0 0 0 200 = NullDeref.
Proof. vm_compute. repeat split; reflexivity. Qed.

(** ** The horizon loop *)

Lemma dequeue_horizon (s : stream) (k : akey) :
  horizon (quicrq_datagram_ack_extra_dequeue s k) = horizon s
  /\ horizon_is_last_fragment (quicrq_datagram_ack_extra_dequeue s k)
     = horizon_is_last_fragment s.
Proof.
  unfold quicrq_datagram_ack_extra_dequeue.
  destruct (quicrq_datagram_ack_find (datagram_ack_tree s) k) as [r|]; [|auto].
  destruct (extra_data r); auto.
Qed.

Lemma delete_hint_head (s : stream) (r : das) (rest : list das) :
  datagram_ack_tree s = r :: rest ->
  ~ In (key r) (map key rest) ->
  datagram_ack_tree (picosplay_delete_hint s (key r)) = rest.
Proof.
  intros Ht Hn. unfold picosplay_delete_hint, quicrq_datagram_ack_extra_dequeue.
  rewrite Ht. simpl. rewrite akey_eqb_refl.
  destruct (extra_data r); simpl.
  - rewrite Ht. simpl. rewrite akey_eqb_refl. simpl.
    change (key (set_extra r None 0)) with (key r). rewrite akey_eqb_refl.
    apply update_das_absent. exact Hn.
  - rewrite Ht. simpl. rewrite akey_eqb_refl. reflexivity.
Qed.

Lemma just_after_rule (s : stream) (r : das) :
  is_u64 (object_id r) ->
  group_id r = horizon_group_id s \/ object_id r = 0 ->
  just_after s r = true <-> advance_rule s r.
Proof.
  intros Ho Hside. unfold just_after, advance_rule.
  destruct (Z.eqb_spec (group_id r) (horizon_group_id s)) as [Eg|Ng].
  - destruct (Z.eqb_spec (object_id r) (horizon_object_id s)) as [Eo|No].
    + rewrite Z.eqb_eq. split; [auto|].
      intros [H|[H|H]]; [tauto | exfalso; wrap_lia | exfalso; wrap_lia].
    + destruct (horizon_is_last_fragment s).
      * rewrite andb_true_iff, !Z.eqb_eq. split.
        -- intros [H1 H2]. right; left. repeat split; auto. wrap_lia.
        -- intros [H|[H|H]]; [tauto | split; [wrap_lia | tauto] | exfalso; wrap_lia].
      * split; [discriminate|].
        intros [H|[H|H]]; [tauto | destruct H as (_ & _ & _ & H); discriminate
                          | destruct H as (_ & _ & _ & H & _); discriminate].
  - destruct Hside as [Hside|Hside]; [contradiction|].
    rewrite !andb_true_iff, !Z.eqb_eq. split.
    + intros [[[H1 H2] H3] H4]. right; right. auto.
    + intros [H|[H|H]]; tauto.
Qed.

(** C1, as amended. The loop that progresses the horizon goes through the
    records from the first one of the tree and stops at the first record
    that is not acknowledged. Over an acknowledged record [r] whose group
    is the group of the horizon, or whose object id is 0, it advances if
    and only if one of the three cases of [advance_rule] holds, where the
    successor of the horizon's group or object is taken modulo 2^64: there
    is no case of its own for a horizon that is not initialized, which
    stands at [UINT64_MAX] three times and is left by the third case. An
    advance sets the horizon to [(g, o, off + length)] and the last-fragment
    flag to [off + length >= object_length], and removes [r] from the
    tree. *)
Theorem progress_horizon_rule (s : stream) (r : das) (nodes : list das) :
  is_u64 (object_id r) ->
  progress_horizon s [] = s
  /\ (is_acked r = false -> progress_horizon s (r :: nodes) = s)
  /\ (is_acked r = true ->
      group_id r = horizon_group_id s \/ object_id r = 0 ->
      (advance_rule s r ->
       progress_horizon s (r :: nodes) = progress_horizon (collapse s r) nodes)
      /\ (~ advance_rule s r -> progress_horizon s (r :: nodes) = s))
  /\ horizon (collapse s r)
     = (group_id r, object_id r, u64 (object_offset r + length r))
  /\ horizon_is_last_fragment (collapse s r)
     = (object_length r <=? u64 (object_offset r + length r))
  /\ (datagram_ack_tree s = r :: nodes -> ~ In (key r) (map key nodes) ->
      datagram_ack_tree (collapse s r) = nodes)
  /\ (forall g o off len s',
         quicrq_datagram_handle_ack s g o off len = Ok s' ->
         let '(below, check, aoff, alen, sa) := ack_versus_horizon s g o off len in
         check = true ->
         exists s1, ack_mark sa g o below aoff alen = Ok s1
                    /\ s' = progress_horizon s1 (datagram_ack_tree s1)).
Proof.
  intros Ho. split; [reflexivity|]. split.
  { intros Ha. simpl. rewrite Ha. reflexivity. }
  split.
  { intros Ha Hside. pose proof (just_after_rule s r Ho Hside) as J. split.
    - intros Hr. apply J in Hr. simpl. rewrite Ha, Hr. reflexivity.
    - intros Hr. simpl. rewrite Ha. simpl.
      destruct (just_after s r); [exfalso; apply Hr, J; reflexivity | reflexivity]. }
  split.
  { unfold collapse, picosplay_delete_hint.
    match goal with |- horizon (set_tree ?x _) = _ => change (horizon x = (group_id r, object_id r, u64 (object_offset r + length r))) end.
    rewrite (proj1 (dequeue_horizon _ _)). reflexivity. }
  split.
  { unfold collapse, picosplay_delete_hint.
    match goal with |- horizon_is_last_fragment (set_tree ?x _) = _ =>
      change (horizon_is_last_fragment x = (object_length r <=? u64 (object_offset r + length r))) end.
    rewrite (proj2 (dequeue_horizon _ _)). reflexivity. }
  split.
  { intros Ht Hn. unfold collapse. apply delete_hint_head; [exact Ht | exact Hn]. }
  intros g o off len s' H. unfold quicrq_datagram_handle_ack in H.
  destruct (ack_versus_horizon s g o off len) as [[[[below check] aoff] alen] sa].
  intros ->. destruct (ack_mark sa g o below aoff alen) as [s1| |]; simpl in H;
    [|discriminate|discriminate].
  exists s1. split; [reflexivity|]. congruence.
Qed.


(** C1, as stated, fails: on a horizon that is not initialized the fourth
    case of the specification holds for every record, yet the call that
    acknowledges the only record of the tree, at key (1, 0, 0), checks the
    horizon and leaves the record in the tree and the horizon where it
    was. *)
Lemma spec_advance_rule_counterexample :
  let s1 := snd (quicrq_datagram_ack_init walk_s0 1 0 0 0 0 (repeat 0 10) 10 0 10 0) in
  let s2 := set_tree s1 [walk_r1] in
  snd (fst (fst (fst (ack_versus_horizon s1 1 0 0 10)))) = true
  /\ spec_advance_rule s1 walk_r1
  /\ quicrq_datagram_handle_ack s1 1 0 0 10 = Ok s2
  /\ datagram_ack_tree s2 = [walk_r1]
  /\ is_acked walk_r1 = true
  /\ horizon s2 = horizon s1.
Proof.
  cbv zeta. split; [vm_compute; reflexivity|]. split.
  - right; right; right. vm_compute. reflexivity.
  - split; [vm_compute; reflexivity|]. repeat split; vm_compute; reflexivity.
Qed.


Lemma progress_horizon_rule_witness :
  is_u64 (object_id walk_r2)
  /\ horizon (progress_horizon walk_s1 [walk_r2]) = (0, 1, 50)
  /\ datagram_ack_tree (progress_horizon walk_s1 [walk_r2]) = [].
Proof.
  assert (H : is_u64 (object_id walk_r2)) by (unfold is_u64; simpl; lia).
  split; [exact H|].
  destruct (progress_horizon_rule walk_s1 walk_r2 [] H) as (_ & _ & Hadv & _).
  destruct (Hadv eq_refl (or_introl eq_refl)) as [Hyes _].
  rewrite Hyes.
  - split; reflexivity.
  - right; left. repeat split; reflexivity.
Defined.

(** ** Initial acknowledgement state *)

Lemma i64_small (a b : Z) : in_range a -> in_range b -> i64 (a - b) = a - b.
Proof.
  unfold in_range, i64. intros Ha Hb. cbv zeta.
  destruct (Z.ltb_spec ((a - b) mod 2 ^ 64) (2 ^ 63)); Z.div_mod_to_equations; lia.
Qed.

Lemma check_horizon_lex (s : stream) (g o off : Z) :
  in_range g -> in_range o -> in_range off ->
  in_range (horizon_group_id s) -> in_range (horizon_object_id s) ->
  in_range (horizon_offset s) ->
  quicrq_datagram_check_horizon s g o off < 0 <-> lex_lt (g, o, off) (horizon s).
Proof.
  intros Hg Ho Hf Hhg Hho Hhf.
  unfold quicrq_datagram_check_horizon, horizon, lex_lt. cbv beta iota zeta.
  rewrite !i64_small by assumption.
  destruct (Z.eqb_spec (g - horizon_group_id s) 0);
    [destruct (Z.eqb_spec (o - horizon_object_id s) 0)
    |destruct (Z.eqb_spec (g - horizon_group_id s) 0)]; lia.
Qed.

Lemma check_horizon_uninitialized (s : stream) (g o off : Z) :
  horizon_uninitialized s -> in_range g ->
  0 <= quicrq_datagram_check_horizon s g o off.
Proof.
  unfold horizon_uninitialized, in_range, quicrq_datagram_check_horizon, UINT64_MAX.
  intros -> Hg.
  assert (E : i64 (g - (2 ^ 64 - 1)) = g + 1).
  { unfold i64; cbv zeta.
    destruct (Z.ltb_spec ((g - (2 ^ 64 - 1)) mod 2 ^ 64) (2 ^ 63));
      Z.div_mod_to_equations; lia. }
  rewrite E. cbv zeta.
  destruct (Z.eqb_spec (g + 1) 0); [lia|]. destruct (Z.eqb_spec (g + 1) 0); lia.
Qed.

Lemma extra_queue_fresh (s : stream) (k : akey) (r : das) (data : list Z) (t : Z) :
  quicrq_datagram_ack_find (datagram_ack_tree s) k = Some r ->
  is_extra_queued r = false -> extra_data r = None ->
  quicrq_datagram_ack_extra_queue s k data t
  = set_extra_list
      (set_tree s
         (update_das
            (update_das (datagram_ack_tree s) k (fun x => set_is_extra_queued x true))
            k (fun x => set_extra x (Some (firstn (Z.to_nat (length r)) data)) t)))
      (extra_list s ++ [k]) (nb_extra_sent s + 1).
Proof.
  intros Hf Hq Hd. unfold quicrq_datagram_ack_extra_queue.
  rewrite Hf, Hq, Hd. reflexivity.
Qed.

(** C3, as amended. [quicrq_datagram_ack_init] compares the key with the
    horizon by [quicrq_datagram_check_horizon], the signed 64-bit
    difference of the first component that differs. When that is negative
    the call inserts nothing, counts the event and reports BelowHorizon;
    otherwise a record with the same key makes it report Duplicate and
    change nothing; otherwise it inserts the record, reports Created and,
    when [extra_repeat_after_received_delayed] is set,
    [extra_repeat_delay > 0] and [queue_delay > 20], queues an extra repeat
    at [current_time + extra_repeat_delay]. The comparison is the
    lexicographic one when the components of the key and of the horizon
    are below 2^62; no key with a group below 2^62 is below a horizon that
    is not initialized. *)
Theorem ack_init_outcome (s : stream) (g o off fl nb : Z) (data : list Z)
    (len qd ol now : Z) :
  let '(ret, created, s') := quicrq_datagram_ack_init s g o off fl nb data len qd ol now in
  let k := (g, o, off) in
  (quicrq_datagram_check_horizon s g o off < 0 ->
   ack_init_report ret created = BelowHorizon
   /\ datagram_ack_tree s' = datagram_ack_tree s
   /\ nb_horizon_events s' = u64 (nb_horizon_events s + 1)
   /\ extra_list s' = extra_list s)
  /\ (0 <= quicrq_datagram_check_horizon s g o off ->
      quicrq_datagram_ack_find (datagram_ack_tree s) k <> None ->
      ack_init_report ret created = Duplicate /\ s' = s)
  /\ (0 <= quicrq_datagram_check_horizon s g o off ->
      quicrq_datagram_ack_find (datagram_ack_tree s) k = None ->
      ack_init_report ret created = Created /\ created = Some k
      /\ (forall k', k' <> k ->
            quicrq_datagram_ack_find (datagram_ack_tree s') k'
            = quicrq_datagram_ack_find (datagram_ack_tree s) k')
      /\ exists r,
          quicrq_datagram_ack_find (datagram_ack_tree s') k = Some r
          /\ key r = k /\ flags r = fl /\ nb_objects_previous_group r = nb
          /\ length r = len /\ object_length r = ol /\ queue_delay r = qd
          /\ start_time r = now /\ is_acked r = false /\ nack_received r = false
          /\ if extra_repeat_after_received_delayed s
                && (extra_repeat_delay s >? 0) && (qd >? 20)
             then is_extra_queued r = true
                  /\ extra_repeat_time r = u64 (now + extra_repeat_delay s)
                  /\ extra_list s' = extra_list s ++ [k]
             else is_extra_queued r = false /\ extra_list s' = extra_list s)
  /\ (in_range g -> in_range o -> in_range off ->
      in_range (horizon_group_id s) -> in_range (horizon_object_id s) ->
      in_range (horizon_offset s) ->
      quicrq_datagram_check_horizon s g o off < 0 <-> lex_lt k (horizon s))
  /\ (horizon_uninitialized s -> in_range g ->
      0 <= quicrq_datagram_check_horizon s g o off).
Proof.
  unfold quicrq_datagram_ack_init.
  destruct (Z.ltb_spec (quicrq_datagram_check_horizon s g o off) 0) as [Hb|Hb].
  - cbv zeta. split; [intros _; repeat split | split; [lia | split; [lia|]]].
    split; [apply check_horizon_lex | apply check_horizon_uninitialized].
  - destruct (quicrq_datagram_ack_find (datagram_ack_tree s) (g, o, off)) as [x|] eqn:Hf.
    + cbv zeta. split; [lia|]. split; [intros _ _; split; reflexivity|].
      split; [intros _ Hx; discriminate|].
      split; [apply check_horizon_lex | apply check_horizon_uninitialized].
    + set (da_new := mk_das g o off fl nb len ol qd now 0 false false false None 0).
      set (s1 := set_tree s (picosplay_insert (datagram_ack_tree s) da_new)).
      assert (Hnew : quicrq_datagram_ack_find (datagram_ack_tree s1) (g, o, off) = Some da_new).
      { apply (find_insert_same (datagram_ack_tree s) da_new). exact Hf. }
      change (extra_repeat_after_received_delayed s1) with (extra_repeat_after_received_delayed s).
      change (extra_repeat_delay s1) with (extra_repeat_delay s).
      cbv zeta. split; [lia|]. split; [intros _ Hx; contradiction|].
      split; [|split; [apply check_horizon_lex | apply check_horizon_uninitialized]].
      intros _ _. split; [reflexivity|]. split; [reflexivity|].
      destruct (extra_repeat_after_received_delayed s && (extra_repeat_delay s >? 0) && (qd >? 20)).
      * rewrite (extra_queue_fresh s1 (g, o, off) da_new data _ Hnew eq_refl eq_refl).
        simpl datagram_ack_tree. split.
        -- intros k' Hk'. rewrite !find_update_other by (auto with das).
           apply (find_insert_other (datagram_ack_tree s) da_new). exact Hk'.
        -- eexists. split.
           ++ rewrite !find_update_same by (auto with das).
              change (quicrq_datagram_ack_find (picosplay_insert (datagram_ack_tree s) da_new)
                        (g, o, off)) with
                (quicrq_datagram_ack_find (datagram_ack_tree s1) (g, o, off)).
              rewrite Hnew. reflexivity.
           ++ repeat split; reflexivity.
      * split.
        -- intros k' Hk'. apply (find_insert_other (datagram_ack_tree s) da_new). exact Hk'.
        -- exists da_new. split; [exact Hnew|]. repeat split; reflexivity.
Qed.

Lemma ack_init_outcome_witness :
  let s := quicrq_datagram_ack_ctx_init 1 true false true 10000 in
  let '(ret, created, s') :=
    quicrq_datagram_ack_init s 0 0 0 0 0 (repeat 0 10) 10 21 10 500 in
  ack_init_report ret created = Created
  /\ extra_list s' = [(0, 0, 0)].
Proof.
  pose proof (ack_init_outcome (quicrq_datagram_ack_ctx_init 1 true false true 10000)
                0 0 0 0 0 (repeat 0 10) 10 21 10 500) as H.
  cbv zeta in *.
  destruct (quicrq_datagram_ack_init (quicrq_datagram_ack_ctx_init 1 true false true 10000)
              0 0 0 0 0 (repeat 0 10) 10 21 10 500) as [[ret created] s'].
  destruct H as (_ & _ & H & _).
  destruct H as (Hr & _ & _ & r & _ & _ & _ & _ & _ & _ & _ & _ & _ & _ & Hx).
  - vm_compute. discriminate.
  - reflexivity.
  - split; [exact Hr|]. simpl in Hx. apply Hx.
Defined.

(** C3, as stated, fails: the key (0, 0, 0) is strictly below the horizon
    of a fresh context in the lexicographic order, and the call inserts
    the record and reports Created. *)
Lemma ack_init_below_horizon_counterexample :
  let s := quicrq_datagram_ack_ctx_init 1 true false false 0 in
  let '(ret, created, s') :=
    quicrq_datagram_ack_init s 0 0 0 0 0 (repeat 0 10) 10 0 10 0 in
  lex_lt (0, 0, 0) (horizon s)
  /\ ack_init_report ret created = Created
  /\ List.length (datagram_ack_tree s') = 1%nat
  /\ nb_horizon_events s' = 0.
Proof. vm_compute. split; [left; reflexivity | repeat split; reflexivity]. Qed.

(** ** Writes on records and what they keep *)

Lemma core_fun_keeps_key (f : das -> das) : core_fun f -> keeps_key f.
Proof. intros H x. specialize (H x). unfold core in H. congruence. Qed.

Lemma core_fun_id : core_fun (fun x => x).
Proof. intros x; reflexivity. Qed.

Lemma core_fun_comp (f g : das -> das) :
  core_fun f -> core_fun g -> core_fun (fun x => g (f x)).
Proof. intros Hf Hg x. rewrite Hg. apply Hf. Qed.

Lemma core_fun_last_sent n : core_fun (fun x => set_last_sent_time x n).
Proof. intros x; reflexivity. Qed.
Lemma core_fun_queued b : core_fun (fun x => set_is_extra_queued x b).
Proof. intros x; reflexivity. Qed.
Lemma core_fun_extra d n : core_fun (fun x => set_extra x d n).
Proof. intros x; reflexivity. Qed.

#[local] Hint Resolve core_fun_keeps_key core_fun_id core_fun_comp core_fun_last_sent
  core_fun_queued core_fun_extra : das.

Lemma update_update (t : list das) (k : akey) (f g : das -> das) :
  keeps_key f ->
  update_das (update_das t k f) k g = update_das t k (fun x => g (f x)).
Proof.
  intros Hf. unfold update_das. rewrite map_map. apply map_ext. intros x.
  destruct (akey_eqb (key x) k) eqn:E.
  - rewrite Hf, E. reflexivity.
  - rewrite E. reflexivity.
Qed.

Lemma update_id (t : list das) (k : akey) : update_das t k (fun x => x) = t.
Proof.
  unfold update_das. rewrite <- (map_id t) at 2. apply map_ext.
  intros x. destruct (akey_eqb (key x) k); reflexivity.
Qed.

Lemma in_remove_key (l : list akey) (k x : akey) :
  In x l -> x <> k -> In x (remove_key l k).
Proof.
  induction l as [|y l IH]; simpl; [tauto|]. intros [->|H] Hx.
  - destruct (akey_eqb x k) eqn:E; [apply akey_eqb_eq in E; contradiction | left; reflexivity].
  - destruct (akey_eqb y k); [exact H | right; auto].
Qed.

Lemma remove_key_incl (l : list akey) (k : akey) : incl (remove_key l k) l.
Proof.
  induction l as [|y l IH]; simpl; [apply incl_refl|].
  destruct (akey_eqb y k); [apply incl_tl, incl_refl|].
  intros x [->|H]; [left; reflexivity | right; apply IH, H].
Qed.

(** [quicrq_datagram_ack_extra_dequeue] writes on the record [k] only,
    and only its extra-repeat fields. *)
Lemma extra_dequeue_spec (s : stream) (k : akey) :
  let s' := quicrq_datagram_ack_extra_dequeue s k in
  env s' = env s /\ datagram_queue s' = datagram_queue s
  /\ (exists f, core_fun f /\ datagram_ack_tree s' = update_das (datagram_ack_tree s) k f)
  /\ (forall x, In x (extra_list s) -> x <> k -> In x (extra_list s'))
  /\ incl (extra_list s') (extra_list s).
Proof.
  unfold quicrq_datagram_ack_extra_dequeue.
  assert (Hsame : env s = env s /\ datagram_queue s = datagram_queue s
          /\ (exists f, core_fun f /\ datagram_ack_tree s = update_das (datagram_ack_tree s) k f)
          /\ (forall x, In x (extra_list s) -> x <> k -> In x (extra_list s))
          /\ incl (extra_list s) (extra_list s)).
  { repeat split; auto using incl_refl.
    exists (fun x => x). split; [apply core_fun_id | symmetry; apply update_id]. }
  destruct (quicrq_datagram_ack_find (datagram_ack_tree s) k) as [r|]; [|exact Hsame].
  destruct (extra_data r); [|exact Hsame].
  cbv zeta. repeat split.
  - exists (fun x => set_extra x None 0). split; [auto with das | reflexivity].
  - intros x Hx Hk. simpl. apply in_remove_key; assumption.
  - simpl. apply remove_key_incl.
Qed.

(** [quicrq_datagram_ack_extra_queue] likewise; the list of extra repeats
    keeps its other records and, unless the record was queued before,
    gains [k]. *)
Lemma extra_queue_spec (s : stream) (k : akey) (data : list Z) (t : Z) :
  let s' := quicrq_datagram_ack_extra_queue s k data t in
  env s' = env s /\ datagram_queue s' = datagram_queue s
  /\ (exists f, core_fun f /\ datagram_ack_tree s' = update_das (datagram_ack_tree s) k f)
  /\ incl (extra_list s) (extra_list s')
  /\ (forall x, In x (extra_list s') -> x = k \/ In x (extra_list s))
  /\ (forall r, quicrq_datagram_ack_find (datagram_ack_tree s) k = Some r ->
        is_extra_queued r = false -> In k (extra_list s')).
Proof.
  unfold quicrq_datagram_ack_extra_queue.
  assert (Hsame : env s = env s /\ datagram_queue s = datagram_queue s
          /\ (exists f, core_fun f /\ datagram_ack_tree s = update_das (datagram_ack_tree s) k f)
          /\ incl (extra_list s) (extra_list s)
          /\ (forall x, In x (extra_list s) -> x = k \/ In x (extra_list s))).
  { repeat split; auto using incl_refl.
    exists (fun x => x). split; [apply core_fun_id | symmetry; apply update_id]. }
  destruct (quicrq_datagram_ack_find (datagram_ack_tree s) k) as [r|] eqn:Hf.
  2:{ cbv zeta. destruct Hsame as (H1 & H2 & H3 & H4 & H5).
      repeat split; auto. discriminate. }
  destruct (is_extra_queued r) eqn:Hq.
  { cbv zeta. destruct Hsame as (H1 & H2 & H3 & H4 & H5).
    repeat split; auto. intros r' Hr' Hr. congruence. }
  set (s1 := set_tree s (update_das (datagram_ack_tree s) k (fun x => set_is_extra_queued x true))).
  set (s2 := match extra_data r with
             | Some _ => quicrq_datagram_ack_extra_dequeue s1 k
             | None => s1
             end).
  assert (H2 : env s2 = env s /\ datagram_queue s2 = datagram_queue s
          /\ (exists f, core_fun f /\ datagram_ack_tree s2 = update_das (datagram_ack_tree s) k f)
          /\ (forall x, In x (extra_list s) -> x <> k -> In x (extra_list s2))
          /\ incl (extra_list s2) (extra_list s)).
  { subst s2. destruct (extra_data r).
    - destruct (extra_dequeue_spec s1 k) as (E1 & E2 & (f & Hf1 & Hf2) & E4 & E5).
      repeat split; auto.
      exists (fun x => f (set_is_extra_queued x true)). split.
      + apply (core_fun_comp (fun x => set_is_extra_queued x true) f); auto with das.
      + rewrite Hf2. subst s1. simpl. apply update_update. auto with das.
    - repeat split; auto using incl_refl.
      exists (fun x => set_is_extra_queued x true). split; [auto with das | reflexivity]. }
  destruct H2 as (E1 & E2 & (f & Hf1 & Hf2) & E4 & E5).
  cbv zeta. split; [exact E1|]. split; [exact E2|]. split.
  { eexists. split; [|simpl; rewrite Hf2; apply update_update; auto with das].
    apply (core_fun_comp f); auto with das. }
  split; [|split].
  - intros x Hx. simpl. apply in_or_app.
    destruct (akey_eqb x k) eqn:E.
    + apply akey_eqb_eq in E. right. left. congruence.
    + apply akey_eqb_neq in E. left. auto.
  - intros x Hx. simpl in Hx. apply in_app_or in Hx. destruct Hx as [Hx|[Hx|[]]];
      [right; apply E5, Hx | left; congruence].
  - intros _ _ _. simpl. apply in_or_app. right. left. reflexivity.
Qed.

(** [quicrq_datagram_ack_init], by cases. *)
Lemma ack_init_spec (s : stream) (g o off fl nb : Z) (data : list Z) (len qd ol now : Z) :
  let '(ret, created, s') := quicrq_datagram_ack_init s g o off fl nb data len qd ol now in
  let k := (g, o, off) in
  env s' = env s /\ datagram_queue s' = datagram_queue s
  /\ incl (extra_list s) (extra_list s')
  /\ ((ret = 0 /\ created = None /\ quicrq_datagram_check_horizon s g o off < 0
       /\ datagram_ack_tree s' = datagram_ack_tree s)
      \/ (ret = 1 /\ created = None /\ 0 <= quicrq_datagram_check_horizon s g o off
          /\ quicrq_datagram_ack_find (datagram_ack_tree s) k <> None /\ s' = s)
      \/ (ret = 0 /\ created = Some k /\ 0 <= quicrq_datagram_check_horizon s g o off
          /\ quicrq_datagram_ack_find (datagram_ack_tree s) k = None
          /\ exists f, core_fun f
               /\ datagram_ack_tree s'
                  = update_das (picosplay_insert (datagram_ack_tree s)
                                  (mk_das g o off fl nb len ol qd now 0 false false false None 0))
                      k f)).
Proof.
  unfold quicrq_datagram_ack_init.
  destruct (Z.ltb_spec (quicrq_datagram_check_horizon s g o off) 0) as [Hb|Hb].
  { cbv zeta. repeat split; auto using incl_refl. }
  destruct (quicrq_datagram_ack_find (datagram_ack_tree s) (g, o, off)) as [x|] eqn:Hf.
  { cbv zeta. repeat split; auto using incl_refl. right; left. repeat split; auto. discriminate. }
  set (da_new := mk_das g o off fl nb len ol qd now 0 false false false None 0).
  set (s1 := set_tree s (picosplay_insert (datagram_ack_tree s) da_new)).
  destruct (extra_repeat_after_received_delayed s1 && (extra_repeat_delay s1 >? 0) && (qd >? 20)).
  - destruct (extra_queue_spec s1 (g, o, off) data (u64 (now + extra_repeat_delay s1)))
      as (E1 & E2 & (f & Hf1 & Hf2) & E4 & _).
    cbv zeta. split; [exact E1|]. split; [exact E2|]. split; [exact E4|].
    right; right. repeat split; auto. exists f. split; [exact Hf1 | exact Hf2].
  - cbv zeta. repeat split; auto using incl_refl. right; right. repeat split; auto.
    exists (fun x => x). split; [apply core_fun_id | symmetry; apply update_id].
Qed.

(** ** Sorted trees without overlap *)

Lemma lex_lt_irrefl (a : akey) : ~ lex_lt a a.
Proof. destruct a as [[g o] f]. unfold lex_lt. lia. Qed.

Lemma lex_lt_trans (a b c : akey) : lex_lt a b -> lex_lt b c -> lex_lt a c.
Proof.
  destruct a as [[g1 o1] f1], b as [[g2 o2] f2], c as [[g3 o3] f3].
  unfold lex_lt. lia.
Qed.

Lemma lex_total (a b : akey) : lex_lt a b \/ a = b \/ lex_lt b a.
Proof.
  destruct a as [[g1 o1] f1], b as [[g2 o2] f2]. unfold lex_lt.
  destruct (Z.lt_total g1 g2) as [H|[H|H]]; [lia| |lia].
  destruct (Z.lt_total o1 o2) as [H'|[H'|H']]; [lia| |lia].
  destruct (Z.lt_total f1 f2) as [H''|[H''|H'']]; [lia| |lia].
  right; left. congruence.
Qed.

Lemma node_compare_key (v x : das) :
  quicrq_datagram_ack_node_compare v x = key_compare (key v) (key x).
Proof. reflexivity. Qed.

Lemma key_compare_lex (a b : akey * Z) :
  shape_ok a -> shape_ok b ->
  key_compare (fst a) (fst b) < 0 <-> lex_lt (fst a) (fst b).
Proof.
  destruct a as [[[g1 o1] f1] l1], b as [[[g2 o2] f2] l2].
  unfold shape_ok, key_compare, lex_lt. simpl.
  intros (Hg1 & Ho1 & Hf1 & Hl1 & He1) (Hg2 & Ho2 & Hf2 & Hl2 & He2).
  assert (If1 : in_range f1) by (unfold in_range; lia).
  assert (If2 : in_range f2) by (unfold in_range; lia).
  rewrite !i64_small by assumption.
  destruct (Z.eqb_spec (g1 - g2) 0);
    [destruct (Z.eqb_spec (o1 - o2) 0) | destruct (Z.eqb_spec (g1 - g2) 0)]; lia.
Qed.

Lemma map_shape_insert (t : list das) (v : das) :
  map shape (picosplay_insert t v) = shape_insert (map shape t) (shape v).
Proof.
  induction t as [|x t IH]; simpl; [reflexivity|].
  rewrite node_compare_key. change (fst (shape v)) with (key v).
  change (fst (shape x)) with (key x).
  destruct (key_compare (key v) (key x) <? 0); simpl; [reflexivity | rewrite IH; reflexivity].
Qed.

Lemma map_shape_update (t : list das) (k : akey) (f : das -> das) :
  (forall x, shape (f x) = shape x) -> map shape (update_das t k f) = map shape t.
Proof.
  intros Hf. unfold update_das. rewrite map_map. apply map_ext.
  intros x. destruct (akey_eqb (key x) k); [apply Hf | reflexivity].
Qed.

Lemma core_fun_shape (f : das -> das) : core_fun f -> forall x, shape (f x) = shape x.
Proof.
  intros Hf x. specialize (Hf x). unfold core in Hf. unfold shape. congruence.
Qed.

Lemma map_shape_set_length (t : list das) (k : akey) (n : Z) :
  map shape (update_das t k (fun x => set_length x n)) = shrink k n (map shape t).
Proof.
  unfold update_das, shrink. rewrite !map_map. apply map_ext.
  intros x. change (fst (shape x)) with (key x).
  destruct (akey_eqb (key x) k); reflexivity.
Qed.

Lemma map_key_shape (t : list das) : map key t = map fst (map shape t).
Proof. rewrite map_map. reflexivity. Qed.

Lemma in_shape_insert (l : list (akey * Z)) (v x : akey * Z) :
  In x (shape_insert l v) <-> x = v \/ In x l.
Proof.
  induction l as [|y l IH]; simpl.
  - intuition.
  - destruct (key_compare (fst v) (fst y) <? 0); simpl; intuition.
Qed.

Lemma sorted_unique (l : list (akey * Z)) (a b : akey * Z) :
  StronglySorted shape_before l -> In a l -> In b l -> fst a = fst b -> a = b.
Proof.
  induction 1 as [|x l Hs IH Hall]; simpl; [tauto|].
  rewrite Forall_forall in Hall.
  intros [->|Ha] [->|Hb] E; auto.
  - exfalso. destruct (Hall b Hb) as [H _]. rewrite E in H. exact (lex_lt_irrefl _ H).
  - exfalso. destruct (Hall a Ha) as [H _]. rewrite E in H. exact (lex_lt_irrefl _ H).
Qed.

Lemma sorted_total (l : list (akey * Z)) (a b : akey * Z) :
  StronglySorted shape_before l -> In a l -> In b l ->
  a = b \/ shape_before a b \/ shape_before b a.
Proof.
  induction 1 as [|x l Hs IH Hall]; simpl; [tauto|].
  rewrite Forall_forall in Hall.
  intros [->|Ha] [->|Hb]; auto.
Qed.

(** Inserting a fragment that overlaps no fragment of the tree. *)
Lemma sorted_insert (l : list (akey * Z)) (v : akey * Z) :
  StronglySorted shape_before l -> Forall shape_ok l -> shape_ok v ->
  (forall x, In x l -> fst x <> fst v) ->
  (forall x, In x l ->
     fst (fst (fst x)) = fst (fst (fst v)) -> snd (fst (fst x)) = snd (fst (fst v)) ->
     (snd (fst x) < snd (fst v) -> snd (fst x) + snd x <= snd (fst v))
     /\ (snd (fst v) < snd (fst x) -> snd (fst v) + snd v <= snd (fst x))) ->
  StronglySorted shape_before (shape_insert l v).
Proof.
  intros Hs Hok Hv. induction Hs as [|x l Hs IH Hall]; intros Hne Hcompat; simpl.
  - constructor; constructor.
  - inversion Hok as [|? ? Hx Hok']; subst.
    assert (Hbefore : forall y, In y (x :: l) -> lex_lt (fst v) (fst y) -> shape_before v y).
    { intros y Hy Hlt. split; [exact Hlt|]. intros Eg Eo.
      destruct (Hcompat y Hy (eq_sym Eg) (eq_sym Eo)) as [_ H]. apply H.
      destruct v as [[[gv ov] fv] lv], y as [[[gy oy] fy] ly]. simpl in *.
      unfold lex_lt in Hlt. lia. }
    assert (Hafter : forall y, In y (x :: l) -> lex_lt (fst y) (fst v) -> shape_before y v).
    { intros y Hy Hlt. split; [exact Hlt|]. intros Eg Eo.
      destruct (Hcompat y Hy Eg Eo) as [H _]. apply H.
      destruct v as [[[gv ov] fv] lv], y as [[[gy oy] fy] ly]. simpl in *.
      unfold lex_lt in Hlt. lia. }
    rewrite Forall_forall in Hall.
    destruct (Z.ltb_spec (key_compare (fst v) (fst x)) 0) as [Hc|Hc].
    + apply key_compare_lex in Hc; [|assumption|assumption].
      constructor; [constructor; [exact Hs | apply Forall_forall; exact Hall]|].
      apply Forall_forall. intros y Hy. apply Hbefore; [exact Hy|].
      destruct Hy as [<-|Hy]; [exact Hc|].
      apply (lex_lt_trans _ (fst x)); [exact Hc | apply (Hall y Hy)].
    + assert (Hxv : lex_lt (fst x) (fst v)).
      { destruct (lex_total (fst v) (fst x)) as [H|[H|H]]; [|exfalso|exact H].
        - apply key_compare_lex in H; [lia|assumption|assumption].
        - apply (Hne x); [left; reflexivity | congruence]. }
      constructor.
      * apply IH; [exact Hok'| |].
        -- intros y Hy. apply Hne. right. exact Hy.
        -- intros y Hy. apply Hcompat. right. exact Hy.
      * apply Forall_forall. intros y Hy. apply in_shape_insert in Hy.
        destruct Hy as [->|Hy]; [|apply Hall, Hy].
        apply Hafter; [left; reflexivity | exact Hxv].
Qed.

Lemma in_shrink (k : akey) (n : Z) (l : list (akey * Z)) (x : akey * Z) :
  In x (shrink k n l) ->
  exists y, In y l /\ fst x = fst y
            /\ ((fst y = k /\ snd x = n) \/ (fst y <> k /\ x = y)).
Proof.
  unfold shrink. rewrite in_map_iff. intros (y & Hy & Hin). exists y.
  split; [exact Hin|]. destruct (akey_eqb (fst y) k) eqn:E; subst x.
  - apply akey_eqb_eq in E. simpl. auto.
  - apply akey_eqb_neq in E. auto.
Qed.

(** Shortening a fragment keeps the tree sorted and without overlap. *)
Lemma sorted_shrink (k : akey) (n : Z) (l : list (akey * Z)) :
  StronglySorted shape_before l ->
  (forall x, In x l -> fst x = k -> n <= snd x) ->
  StronglySorted shape_before (shrink k n l).
Proof.
  induction 1 as [|x l Hs IH Hall]; intros Hn; simpl; [constructor|].
  rewrite Forall_forall in Hall.
  constructor.
  - apply IH. intros y Hy. apply Hn. right. exact Hy.
  - apply Forall_forall. intros y Hy. apply in_shrink in Hy.
    destruct Hy as (z & Hz & Hfst & Hcase).
    destruct (Hall z Hz) as [Hlt Hov].
    assert (Hx : fst (if akey_eqb (fst x) k then (fst x, n) else x) = fst x
                 /\ snd (if akey_eqb (fst x) k then (fst x, n) else x) <= snd x).
    { destruct (akey_eqb (fst x) k) eqn:E; simpl; [|split; [reflexivity | lia]].
      apply akey_eqb_eq in E. split; [reflexivity|]. apply Hn; [left; reflexivity | exact E]. }
    destruct Hx as [Hx1 Hx2]. split.
    + rewrite Hx1, Hfst. exact Hlt.
    + rewrite Hx1, Hfst. intros Eg Eo. specialize (Hov Eg Eo). lia.
Qed.

Lemma shrink_insert (k : akey) (n : Z) (l : list (akey * Z)) (v : akey * Z) :
  fst v <> k ->
  shrink k n (shape_insert l v) = shape_insert (shrink k n l) v.
Proof.
  intros Hv. assert (Ev : akey_eqb (fst v) k = false) by (apply akey_eqb_neq; exact Hv).
  induction l as [|x l IH]; simpl.
  - rewrite Ev. reflexivity.
  - assert (Hfst : fst (if akey_eqb (fst x) k then (fst x, n) else x) = fst x)
      by (destruct (akey_eqb (fst x) k); reflexivity).
    rewrite Hfst.
    destruct (key_compare (fst v) (fst x) <? 0); simpl.
    + rewrite Ev. reflexivity.
    + rewrite IH. reflexivity.
Qed.

(** ** Well-formed trees through a repeat *)

Lemma horizon_fields (s s' : stream) :
  horizon s' = horizon s ->
  horizon_group_id s' = horizon_group_id s
  /\ horizon_object_id s' = horizon_object_id s
  /\ horizon_offset s' = horizon_offset s.
Proof. unfold horizon. intros H. injection H. auto. Qed.

Lemma horizon_ok_shapes (s : stream) :
  horizon_ok s <->
  horizon_uninitialized s
  \/ (in_range (horizon_group_id s) /\ in_range (horizon_object_id s)
      /\ in_range (horizon_offset s)
      /\ forall x, In x (map shape (datagram_ack_tree s)) -> lex_le (horizon s) (fst x)).
Proof.
  unfold horizon_ok. rewrite Forall_forall, map_key_shape.
  split; (intros [H|(H1 & H2 & H3 & H4)]; [left; exact H | right]);
    (split; [exact H1|]; split; [exact H2|]; split; [exact H3|]).
  - intros x Hx. apply H4. apply in_map. exact Hx.
  - intros k Hk. apply in_map_iff in Hk. destruct Hk as (x & <- & Hx). apply H4, Hx.
Qed.

(** A change of the stream that keeps the horizon, and the keys and
    lengths of the records, keeps the tree well formed. *)
Lemma ack_wf_same (s s' : stream) :
  horizon s' = horizon s ->
  map shape (datagram_ack_tree s') = map shape (datagram_ack_tree s) ->
  ack_wf s -> ack_wf s'.
Proof.
  intros Hh Hm (W1 & W2 & W3). unfold ack_wf. rewrite Hm.
  split; [exact W1|]. split; [exact W2|].
  apply horizon_ok_shapes. apply horizon_ok_shapes in W3.
  destruct (horizon_fields _ _ Hh) as (Eg & Eo & Ef).
  unfold horizon_uninitialized in *. rewrite Hm, Hh, Eg, Eo, Ef. exact W3.
Qed.

Lemma find_in_shapes (t : list das) (k : akey) (r : das) :
  quicrq_datagram_ack_find t k = Some r -> In (shape r) (map shape t) /\ key r = k.
Proof.
  intros H. destruct (find_some _ _ _ H) as [Hk Hin].
  split; [apply in_map; exact Hin | exact Hk].
Qed.

Lemma find_none_shapes (t : list das) (k : akey) :
  quicrq_datagram_ack_find t k = None ->
  forall x, In x (map shape t) -> fst x <> k.
Proof.
  intros H x Hx E. apply find_none in H. apply H.
  rewrite map_key_shape. rewrite <- E. apply in_map. exact Hx.
Qed.

(** The shapes after a split: the record [found] keeps [fl] bytes and the
    tail gets a record of its own. *)
Lemma split_shapes (t : list das) (found nk : akey) (da : das)
    (f1 g : das -> das) (fl : Z) :
  key da = nk -> nk <> found -> core_fun f1 -> (forall x, shape (g x) = shape x) ->
  map shape
    (update_das (update_das (picosplay_insert (update_das t found f1) da) nk g)
       found (fun x => set_length x fl))
  = shape_insert (shrink found fl (map shape t)) (shape da).
Proof.
  intros Hda Hne Hf1 Hg.
  rewrite map_shape_set_length, (map_shape_update _ nk g Hg), map_shape_insert.
  rewrite (map_shape_update _ found f1 (core_fun_shape f1 Hf1)).
  apply shrink_insert. unfold shape. simpl. congruence.
Qed.

(** Splitting a fragment of a well-formed tree at [fl] bytes, with the
    tail running to [dl] bytes, keeps the tree well formed. *)
Lemma split_wf (l : list (akey * Z)) (g o off len fl dl : Z) :
  StronglySorted shape_before l -> Forall shape_ok l ->
  In ((g, o, off), len) l ->
  1 <= fl -> fl < dl -> dl <= len ->
  (forall x, In x l -> fst x <> (g, o, off + fl)) ->
  let l' := shape_insert (shrink (g, o, off) fl l) ((g, o, off + fl), dl - fl) in
  StronglySorted shape_before l' /\ Forall shape_ok l'
  /\ forall x, In x l' -> fst x = (g, o, off + fl) \/ exists y, In y l /\ fst y = fst x.
Proof.
  intros Hs Hok Hin Hfl1 Hfl2 Hdl Hfresh. cbv zeta.
  assert (Hr : shape_ok ((g, o, off), len)) by (rewrite Forall_forall in Hok; apply Hok, Hin).
  destruct Hr as (Hg & Ho & Hoff & Hlen & Hend). cbn [fst snd] in Hg, Ho, Hoff, Hlen, Hend.
  assert (Hshrunk : forall x, In x (shrink (g, o, off) fl l) ->
            (x = ((g, o, off), fl)) \/ (In x l /\ fst x <> (g, o, off))).
  { intros x Hx. apply in_shrink in Hx. destruct Hx as (y & Hy & Hfst & [[Hk Hn]|[Hk ->]]).
    - left. destruct x as [kx nx]. cbn [fst snd] in Hfst, Hn.
      rewrite Hfst, Hk, Hn. reflexivity.
    - right. split; assumption. }
  assert (Hok' : Forall shape_ok (shrink (g, o, off) fl l)).
  { apply Forall_forall. intros x Hx. destruct (Hshrunk x Hx) as [->|[Hx' _]].
    - unfold shape_ok. simpl. repeat split; try assumption; try apply Hg; try apply Ho; lia.
    - rewrite Forall_forall in Hok. apply Hok, Hx'. }
  assert (Hv : shape_ok ((g, o, off + fl), dl - fl)).
  { unfold shape_ok. simpl. repeat split; try apply Hg; try apply Ho; lia. }
  split; [|split].
  - apply sorted_insert; [|exact Hok'|exact Hv| |].
    + apply sorted_shrink; [exact Hs|].
      intros x Hx Hk.
      assert (x = ((g, o, off), len)) by (apply (sorted_unique l); auto).
      subst x. simpl. lia.
    + intros x Hx. destruct (Hshrunk x Hx) as [->|[Hx' _]].
      * simpl. intros E. inversion E. lia.
      * apply Hfresh, Hx'.
    + intros x Hx Eg Eo. simpl in Eg, Eo. destruct (Hshrunk x Hx) as [->|[Hx' Hne]].
      * simpl. lia.
      * simpl.
        assert (Hxok : shape_ok x) by (rewrite Forall_forall in Hok; apply Hok, Hx').
        destruct Hxok as (_ & _ & Hxo & Hxl & _).
        destruct (sorted_total l x ((g, o, off), len) Hs Hx' Hin) as [E|[[Hlt Hov]|[Hlt Hov]]].
        -- subst x. simpl in Hne. congruence.
        -- simpl in Hov. specialize (Hov Eg Eo). lia.
        -- simpl in Hov. specialize (Hov (eq_sym Eg) (eq_sym Eo)). lia.
  - apply Forall_forall. intros x Hx. apply in_shape_insert in Hx.
    destruct Hx as [->|Hx]; [exact Hv|]. rewrite Forall_forall in Hok'. apply Hok', Hx.
  - intros x Hx. apply in_shape_insert in Hx. destruct Hx as [->|Hx]; [left; reflexivity|].
    right. destruct (Hshrunk x Hx) as [->|[Hx' _]].
    + exists ((g, o, off), len). split; [exact Hin | reflexivity].
    + exists x. split; [exact Hx' | reflexivity].
Qed.

(** ** One turn of the repeat loop *)

Section RepeatFacts.

Variable MAXP QMAX : Z.
Variable hlen : Z -> Z -> Z -> Z -> Z -> Z -> Z -> Z -> Z.
Variable qframe : Z -> Z.

#[local] Abbreviation turn_of := (repeat_turn MAXP QMAX hlen qframe).
#[local] Abbreviation loop_of := (handle_repeat_loop MAXP QMAX hlen qframe).
#[local] Abbreviation hl_of := (repeat_header_length hlen).
#[local] Abbreviation fl_of := (repeat_fragment_length QMAX hlen).
#[local] Abbreviation dg_of := (repeat_datagram QMAX hlen).

Lemma find_update_none (t : list das) (k k' : akey) (f : das -> das) :
  keeps_key f ->
  quicrq_datagram_ack_find (update_das t k f) k' = None
  <-> quicrq_datagram_ack_find t k' = None.
Proof.
  intros Hf. rewrite !find_none, map_key_update by exact Hf. tauto.
Qed.

(** What a turn does, case by case, for the record [r] that [found]
    points to. *)
Lemma repeat_turn_spec (s : stream) (found : akey) (data : list Z) (dl : Z)
    (pe : bool) (now : Z) (r : das) :
  quicrq_datagram_ack_find (datagram_ack_tree s) found = Some r ->
  let hl := hl_of s r now in
  let fl := fl_of s r dl now in
  let dg := dg_of s r data dl now in
  let nk := (group_id r, object_id r, u64 (object_offset r + fl)) in
  let entered := (dl >? 0) || (flags r =? 255) = true in
  let accepted := entered /\ hl + fl <= MAXP /\ qframe (dg_length dg) = 0 in
  let sent s' :=
    accepted
    /\ datagram_queue s' = datagram_queue s ++ [dg]
    /\ (pe = true -> extra_repeat_delay s > 0 -> is_extra_queued r = false ->
        In found (extra_list s')) in
  match turn_of s found data dl pe now with
  | Crash =>
      accepted /\ fl < dl
      /\ quicrq_datagram_check_horizon s (group_id r) (object_id r)
           (u64 (object_offset r + fl)) < 0
  | Done ret s' =>
      env s' = env s /\ incl (extra_list s) (extra_list s')
      /\ (exists f1, core_fun f1
            /\ datagram_ack_tree s' = update_das (datagram_ack_tree s) found f1)
      /\ ((ret = 0 /\ s' = s /\ ~ entered)
          \/ (entered /\ ret <> 0 /\ datagram_queue s' = datagram_queue s
              /\ (MAXP < hl + fl \/ qframe (dg_length dg) <> 0))
          \/ (sent s'
              /\ ((ret = 0 /\ dl <= fl)
                  \/ (ret = 1 /\ fl < dl
                      /\ quicrq_datagram_ack_find (datagram_ack_tree s) nk <> None))))
  | Next s' found' data' dl' =>
      sent s' /\ env s' = env s /\ incl (extra_list s) (extra_list s')
      /\ fl < dl /\ found' = nk
      /\ data' = skipn (Z.to_nat fl) data /\ dl' = u64 (dl - fl)
      /\ quicrq_datagram_ack_find (datagram_ack_tree s) nk = None
      /\ 0 <= quicrq_datagram_check_horizon s (group_id r) (object_id r)
                (u64 (object_offset r + fl))
      /\ exists f1 f2, core_fun f1 /\ core_fun f2
           /\ datagram_ack_tree s'
              = update_das
                  (update_das
                     (picosplay_insert (update_das (datagram_ack_tree s) found f1)
                        (tail_record r (u64 (object_offset r + fl)) dl'))
                     nk (fun x => inherit r (f2 x)))
                  found (fun x => set_length x fl)
  end.
Proof.
  intros Hfind. cbv zeta.
  unfold repeat_turn. rewrite Hfind. cbv zeta.
  fold (repeat_queue_delay now r).
  fold (repeat_header_length hlen s r now).
  fold (repeat_too_long QMAX hlen s r dl now).
  fold (repeat_fragment_length QMAX hlen s r dl now).
  set (hl := hl_of s r now). set (fl := fl_of s r dl now).
  destruct ((dl >? 0) || (flags r =? 255)) eqn:Hent.
  2:{ split; [reflexivity|]. split; [apply incl_refl|]. split.
      - exists (fun x => x). split; [apply core_fun_id | symmetry; apply update_id].
      - left. split; [reflexivity|]. split; [reflexivity | discriminate]. }
  set (s1 := set_tree s (update_das (datagram_ack_tree s) found
                           (fun x => set_last_sent_time x now))).
  assert (Hs1 : exists f1, core_fun f1
            /\ datagram_ack_tree s1 = update_das (datagram_ack_tree s) found f1).
  { exists (fun x => set_last_sent_time x now). split; [auto with das | reflexivity]. }
  destruct (Z.gtb_spec (hl + fl) MAXP) as [Hfit|Hfit].
  { split; [reflexivity|]. split; [apply incl_refl|]. split; [exact Hs1|].
    right; left. split; [reflexivity|]. split; [discriminate|].
    split; [reflexivity|]. left; lia. }
  repeat match goal with
         | |- context [mk_datagram ?a ?b ?c ?d ?e ?f ?g ?h ?i ?j] =>
             change (mk_datagram a b c d e f g h i j) with (dg_of s r data dl now)
         end.
  set (dg := dg_of s r data dl now).
  change (if repeat_too_long QMAX hlen s r dl now then QMAX else u64 (hl + dl))
    with (dg_length dg).
  destruct (Z.eqb_spec (qframe (dg_length dg)) 0) as [Hq|Hq].
  2:{ split; [reflexivity|]. split; [apply incl_refl|]. split; [exact Hs1|].
      right; left. split; [reflexivity|]. split; [exact Hq|].
      split; [reflexivity|]. right; exact Hq. }
  set (s2 := set_datagram_queue s1 (datagram_queue s1 ++ [dg])).
  fold s2.
  set (s3 := if pe && (extra_repeat_delay s2 >? 0)
             then quicrq_datagram_ack_extra_queue s2 found data
                    (u64 (now + extra_repeat_delay s2))
             else s2).
  assert (H3 : env s3 = env s /\ datagram_queue s3 = datagram_queue s ++ [dg]
          /\ (exists f, core_fun f /\ datagram_ack_tree s3 = update_das (datagram_ack_tree s) found f)
          /\ incl (extra_list s) (extra_list s3)
          /\ (pe = true -> extra_repeat_delay s > 0 -> is_extra_queued r = false ->
              In found (extra_list s3))).
  { subst s3. destruct (pe && (extra_repeat_delay s2 >? 0)) eqn:Hpe.
    - destruct (extra_queue_spec s2 found data (u64 (now + extra_repeat_delay s2)))
        as (E1 & E2 & (f & Hf1 & Hf2) & E4 & _ & E6).
      split; [exact E1|]. split; [exact E2|]. split; [|split; [exact E4|]].
      + exists (fun x => f (set_last_sent_time x now)). split.
        * apply (core_fun_comp (fun x => set_last_sent_time x now) f); auto with das.
        * rewrite Hf2. apply update_update. auto with das.
      + intros _ _ Hr. apply (E6 (set_last_sent_time r now)); [|exact Hr].
        simpl. rewrite find_update_same by auto with das. rewrite Hfind. reflexivity.
    - split; [reflexivity|]. split; [reflexivity|]. split; [exact Hs1|].
      split; [apply incl_refl|].
      intros Hp Hd _. subst pe. simpl in Hpe.
      change (extra_repeat_delay s2) with (extra_repeat_delay s) in Hpe.
      destruct (Z.gtb_spec (extra_repeat_delay s) 0); [discriminate | lia]. }
  clearbody s3. destruct H3 as (E1 & E2 & (f1 & Hf1 & Ht3) & E4 & E5).
  assert (Hacc : true = true /\ hl + fl <= MAXP /\ qframe (dg_length dg) = 0).
  { split; [reflexivity|]. split; [lia | exact Hq]. }
  assert (Hsent : forall s', datagram_queue s' = datagram_queue s3 ->
                             incl (extra_list s3) (extra_list s') ->
            (true = true /\ hl + fl <= MAXP /\ qframe (dg_length dg) = 0)
            /\ datagram_queue s' = datagram_queue s ++ [dg]
            /\ (pe = true -> extra_repeat_delay s > 0 -> is_extra_queued r = false ->
                In found (extra_list s'))).
  { intros s' Hq' Hi. split; [exact Hacc|]. split; [congruence|].
    intros H1 H2 H3. apply Hi. auto. }
  destruct (Z.ltb_spec fl dl) as [Hsplit|Hsplit].
  2:{ split; [exact E1|]. split; [exact E4|]. split.
      - exists f1. split; [exact Hf1 | exact Ht3].
      - right; right. split; [apply Hsent; [reflexivity | apply incl_refl]|].
        left. split; [reflexivity | lia]. }
  pose proof (ack_init_spec s3 (group_id r) (object_id r) (u64 (object_offset r + fl))
                (flags r) (nb_objects_previous_group r) (skipn (Z.to_nat fl) data)
                (u64 (dl - fl)) (queue_delay r) (object_length r) (start_time r)) as HA.
  destruct (quicrq_datagram_ack_init s3 (group_id r) (object_id r)
              (u64 (object_offset r + fl)) (flags r) (nb_objects_previous_group r)
              (skipn (Z.to_nat fl) data) (u64 (dl - fl)) (queue_delay r)
              (object_length r) (start_time r)) as [[ret created] s4].
  cbv zeta in HA. destruct HA as (A1 & A2 & A3 & HA).
  assert (Hck : quicrq_datagram_check_horizon s3 (group_id r) (object_id r)
                  (u64 (object_offset r + fl))
                = quicrq_datagram_check_horizon s (group_id r) (object_id r)
                    (u64 (object_offset r + fl))).
  { unfold quicrq_datagram_check_horizon. unfold env, horizon in E1.
    injection E1. intros _ _ _ _ _ _ _ Ef Eo Eg. rewrite Eg, Eo, Ef. reflexivity. }
  rewrite Hck in HA.
  destruct HA as [(-> & -> & Hb & Ht4) | [(-> & -> & Hb & Hdup & ->) | (-> & -> & Hb & Hnone & f2 & Hf2 & Ht4)]].
  - simpl. split; [exact Hacc|]. split; [exact Hsplit | exact Hb].
  - simpl. split; [exact E1|]. split; [exact E4|]. split.
    + exists f1. split; [exact Hf1 | exact Ht3].
    + right; right. split; [apply Hsent; [reflexivity | apply incl_refl]|]. right.
      split; [reflexivity|]. split; [exact Hsplit|].
      rewrite Ht3 in Hdup. intros Hn. apply Hdup.
      apply find_update_none; auto with das.
  - simpl. split.
    { apply Hsent; [exact A2 | exact A3]. }
    split; [exact (eq_trans A1 E1)|].
    split; [exact (incl_tran E4 A3)|].
    split; [exact Hsplit|]. split; [reflexivity|]. split; [reflexivity|].
    split; [reflexivity|]. split.
    { rewrite Ht3 in Hnone. apply (find_update_none _ found) in Hnone; auto with das. }
    split; [exact Hb|].
    exists f1, f2. split; [exact Hf1|]. split; [exact Hf2|].
    rewrite Ht4, Ht3. f_equal.
    apply update_update. auto with das.
Qed.

(** The records after a turn that splits. *)
Lemma split_tree_records (t : list das) (found nk : akey) (r da : das)
    (f1 g : das -> das) (fl : Z) :
  quicrq_datagram_ack_find t found = Some r ->
  quicrq_datagram_ack_find t nk = None ->
  key da = nk -> core_fun f1 -> keeps_key g ->
  let t' := update_das
              (update_das (picosplay_insert (update_das t found f1) da) nk g)
              found (fun x => set_length x fl) in
  quicrq_datagram_ack_find t' nk = Some (g da)
  /\ quicrq_datagram_ack_find t' found = Some (set_length (f1 r) fl)
  /\ (forall k, k <> found -> k <> nk ->
        quicrq_datagram_ack_find t' k = quicrq_datagram_ack_find t k).
Proof.
  intros Hfound Hnone Hda Hf1 Hg.
  assert (Hne : found <> nk) by congruence.
  assert (Hkf1 : keeps_key f1) by auto with das.
  assert (Hnone' : quicrq_datagram_ack_find (update_das t found f1) (key da) = None).
  { rewrite Hda. apply find_update_none; assumption. }
  cbv zeta. split; [|split].
  - rewrite find_update_other by auto with das.
    rewrite find_update_same by assumption.
    rewrite <- Hda. rewrite find_insert_same by exact Hnone'. reflexivity.
  - rewrite find_update_same by auto with das.
    rewrite find_update_other by (auto; congruence).
    rewrite find_insert_other by congruence.
    rewrite find_update_same by assumption. rewrite Hfound. reflexivity.
  - intros k Hk1 Hk2.
    rewrite find_update_other by auto with das.
    rewrite find_update_other by (auto; congruence).
    rewrite find_insert_other by congruence.
    apply find_update_other; auto.
Qed.

Lemma core_fields (x y : das) :
  core x = core y ->
  group_id x = group_id y /\ object_id x = object_id y
  /\ object_offset x = object_offset y /\ flags x = flags y
  /\ nb_objects_previous_group x = nb_objects_previous_group y
  /\ length x = length y /\ object_length x = object_length y
  /\ queue_delay x = queue_delay y /\ start_time x = start_time y
  /\ is_acked x = is_acked y /\ nack_received x = nack_received y.
Proof.
  unfold core, key. intros H. injection H. intros. repeat split; assumption.
Qed.

Lemma lineage_tail (r : das) (f2 : das -> das) (off len : Z) :
  core_fun f2 -> lineage (inherit r (f2 (tail_record r off len))) = lineage r.
Proof.
  intros Hf.
  destruct (core_fields _ _ (Hf (tail_record r off len)))
    as (Hg & Ho & _ & H1 & H2 & _ & _ & H5 & H6 & _).
  unfold lineage, inherit. simpl in *. congruence.
Qed.

Lemma key_tail (r : das) (f2 : das -> das) (off len : Z) :
  core_fun f2 ->
  key (inherit r (f2 (tail_record r off len))) = (group_id r, object_id r, off)
  /\ length (inherit r (f2 (tail_record r off len))) = len.
Proof.
  intros Hf.
  destruct (core_fields _ _ (Hf (tail_record r off len)))
    as (Hg & Ho & Hoff & _ & _ & Hl & _).
  unfold key, inherit. simpl in *. split; congruence.
Qed.

Lemma queue_delay_lineage (now : Z) (x y : das) :
  lineage x = lineage y -> repeat_queue_delay now x = repeat_queue_delay now y.
Proof.
  unfold lineage. intros H. injection H. intros Hk Hs Hq _ _ _ _ _.
  unfold repeat_queue_delay, queue_delay_delta. rewrite Hq, Hs. reflexivity.
Qed.

(** The fuel given by [quicrq_datagram_handle_repeat] is enough. *)
Lemma handle_repeat_loop_fuel (fuel : nat) :
  forall (s : stream) (found : akey) (data : list Z) (dl : Z) (pe : bool) (now : Z),
    (Z.to_nat dl < fuel)%nat ->
    (forall r, quicrq_datagram_ack_find (datagram_ack_tree s) found = Some r ->
               is_u64 (object_offset r)) ->
    loop_of fuel s found data dl pe now <> OutOfFuel.
Proof.
  induction fuel as [|fuel IH]; intros s found data dl pe now Hfuel Hoff; [lia|].
  simpl.
  destruct (quicrq_datagram_ack_find (datagram_ack_tree s) found) as [r|] eqn:Hfind.
  2:{ unfold repeat_turn. rewrite Hfind. discriminate. }
  pose proof (repeat_turn_spec s found data dl pe now r Hfind) as HT. cbv zeta in HT.
  destruct (turn_of s found data dl pe now) as [ret s'|s' found' data' dl'|];
    [discriminate| |discriminate].
  destruct HT as (_ & _ & _ & Hsplit & -> & _ & -> & Hnone & _ & _).
  destruct (find_some _ _ _ Hfind) as [Hkey _].
  specialize (Hoff r eq_refl).
  set (fl := fl_of s r dl now) in *.
  assert (Hfl : 1 <= fl < dl).
  { split; [|exact Hsplit].
    assert (Hnn : 0 <= fl).
    { unfold fl, repeat_fragment_length in *.
      destruct (repeat_too_long QMAX hlen s r dl now); [unfold u64; Z.div_mod_to_equations; lia | lia]. }
    destruct (Z.eq_dec fl 0) as [E|E]; [|lia].
    exfalso. rewrite E in Hnone.
    replace (u64 (object_offset r + 0)) with (object_offset r) in Hnone
      by (unfold is_u64, u64 in *; Z.div_mod_to_equations; lia).
    fold (key r) in Hnone. rewrite Hkey in Hnone. congruence. }
  apply IH.
  - assert (0 <= u64 (dl - fl) < dl) by (unfold u64; Z.div_mod_to_equations; lia). lia.
  - intros r' Hr'. apply find_some in Hr'. destruct Hr' as [Hk' _].
    unfold key in Hk'. inversion Hk' as [[Hg Ho Hf]].
    rewrite Hf. unfold is_u64, u64. Z.div_mod_to_equations; lia.
Qed.

(** What a whole run of the loop keeps and adds. *)
Lemma handle_repeat_loop_spec (fuel : nat) :
  forall (s : stream) (found : akey) (data : list Z) (dl : Z) (pe : bool) (now : Z)
         (r : das) (ret : Z) (s' : stream),
    quicrq_datagram_ack_find (datagram_ack_tree s) found = Some r ->
    loop_of fuel s found data dl pe now = Ok (ret, s') ->
    env s' = env s
    /\ incl (extra_list s) (extra_list s')
    /\ (forall k x, k <> found ->
          quicrq_datagram_ack_find (datagram_ack_tree s) k = Some x ->
          quicrq_datagram_ack_find (datagram_ack_tree s') k = Some x)
    /\ (exists r', quicrq_datagram_ack_find (datagram_ack_tree s') found = Some r'
                   /\ meta r' = meta r)
    /\ exists l,
        datagram_queue s' = datagram_queue s ++ l
        /\ Forall (fun d => dg_queue_delay d = repeat_queue_delay now r) l
        /\ (((dl >? 0) || (flags r =? 255) = true
             /\ hl_of s r now + fl_of s r dl now <= MAXP
             /\ qframe (dg_length (dg_of s r data dl now)) = 0) ->
            (exists l', l = dg_of s r data dl now :: l')
            /\ (pe = true -> extra_repeat_delay s > 0 -> is_extra_queued r = false ->
                In found (extra_list s'))).
Proof.
  induction fuel as [|fuel IH]; intros s found data dl pe now r ret s' Hfind Hrun;
    [discriminate|].
  simpl in Hrun.
  pose proof (repeat_turn_spec s found data dl pe now r Hfind) as HT. cbv zeta in HT.
  destruct (find_some _ _ _ Hfind) as [Hkey _].
  destruct (turn_of s found data dl pe now) as [ret1 s1|s1 found1 data1 dl1|];
    [| |discriminate].
  - inversion Hrun; subst ret1 s1. clear Hrun.
    destruct HT as (E1 & E2 & (f1 & Hf1 & Ht) & Hcases).
    split; [exact E1|]. split; [exact E2|]. split; [|split].
    + intros k x Hk Hx. rewrite Ht. rewrite find_update_other; auto with das.
    + exists (f1 r). split.
      * rewrite Ht. rewrite find_update_same by auto with das. rewrite Hfind. reflexivity.
      * specialize (Hf1 r). unfold core in Hf1. unfold meta. congruence.
    + destruct Hcases as [(_ & -> & Hne) | [(_ & _ & Hq & Hno) | ((Hacc & Hq & Hx) & _)]].
      * exists []. rewrite app_nil_r. split; [reflexivity|]. split; [constructor|].
        intros (H & _). contradiction.
      * exists []. rewrite app_nil_r. split; [exact Hq|]. split; [constructor|].
        intros (_ & H1 & H2). exfalso. destruct Hno; [lia | contradiction].
      * exists [dg_of s r data dl now]. split; [exact Hq|]. split.
        -- constructor; [reflexivity | constructor].
        -- intros _. split; [exists []; reflexivity | exact Hx].
  - destruct HT as ((Hacc & Hq & Hx) & E1 & E2 & Hsplit & -> & -> & -> & Hnone & Hck
                    & f1 & f2 & Hf1 & Hf2 & Ht).
    set (fl := fl_of s r dl now) in *.
    set (nk := (group_id r, object_id r, u64 (object_offset r + fl))) in *.
    set (da := tail_record r (u64 (object_offset r + fl)) (u64 (dl - fl))) in *.
    assert (Hg : keeps_key (fun x => inherit r (f2 x))).
    { intros x. unfold inherit. change (key (f2 x) = key x). apply core_fun_keeps_key, Hf2. }
    destruct (split_tree_records (datagram_ack_tree s) found nk r da f1
                (fun x => inherit r (f2 x)) fl Hfind Hnone eq_refl Hf1 Hg)
      as (R1 & R2 & R3).
    cbv zeta in R1, R2, R3. rewrite <- Ht in R1, R2, R3.
    assert (Hne : found <> nk) by congruence.
    destruct (IH s1 nk _ _ pe now _ ret s' R1 Hrun) as (I1 & I2 & I3 & _ & l & I5 & I6 & _).
    split; [congruence|]. split; [exact (incl_tran E2 I2)|]. split; [|split].
    + intros k x Hk Hx'. apply I3.
      * intros ->. congruence.
      * rewrite R3; [exact Hx' | exact Hk | intros ->; congruence].
    + exists (set_length (f1 r) fl). split.
      * apply I3; [exact Hne | exact R2].
      * specialize (Hf1 r). unfold core in Hf1. unfold meta.
        change (key (set_length (f1 r) fl)) with (key (f1 r)).
        change (flags (set_length (f1 r) fl)) with (flags (f1 r)).
        inversion Hf1 as [[Hk H1 H2 H3 H4 H5 H6 H7 H8]]. simpl. congruence.
    + exists (dg_of s r data dl now :: l). split; [|split].
      * rewrite I5, Hq, <- app_assoc. reflexivity.
      * constructor; [reflexivity|].
        cbv beta in I6. unfold da in I6.
        rewrite (queue_delay_lineage now _ r (lineage_tail r f2 _ _ Hf2)) in I6. exact I6.
      * intros _. split; [exists l; reflexivity|].
        intros H1 H2 H3. apply I2. auto.
Qed.

Lemma env_fields (s s' : stream) :
  env s' = env s ->
  cnx_present s' = cnx_present s /\ nb_fragment_lost s' = nb_fragment_lost s
  /\ extra_repeat_delay s' = extra_repeat_delay s /\ horizon s' = horizon s
  /\ media_id s' = media_id s.
Proof.
  unfold env. intros H. injection H. intros.
  repeat split; try assumption. unfold horizon. congruence.
Qed.

(** C6, as amended. Every datagram that [quicrq_datagram_handle_repeat]
    queues carries the queue delay stored in the record plus a delta that
    is 0 when [current_time <= start_time] and otherwise
    [(current_time - start_time + 500) / 1000], the number of milliseconds
    rounded to the nearest and not truncated, both computed on 64 bits; at
    least one datagram is queued when the connection is there, there is
    something to send, and the frame fits and is accepted. The call never
    runs out of the fuel of the model. *)
Theorem repeat_header_queue_delay (s : stream) (found : akey) (data : list Z)
    (dl : Z) (pe : bool) (now : Z) (r : das) :
  quicrq_datagram_ack_find (datagram_ack_tree s) found = Some r ->
  is_u64 (object_offset r) ->
  quicrq_datagram_handle_repeat MAXP QMAX hlen qframe s found data dl pe now <> OutOfFuel
  /\ forall ret s',
      quicrq_datagram_handle_repeat MAXP QMAX hlen qframe s found data dl pe now
      = Ok (ret, s') ->
      exists l,
        datagram_queue s' = datagram_queue s ++ l
        /\ Forall (fun d =>
                     dg_queue_delay d
                     = u64 (queue_delay r
                            + (if now >? start_time r
                               then u64 (now - start_time r + 500) / 1000
                               else 0))) l
        /\ (cnx_present s = true ->
            (dl >? 0) || (flags r =? 255) = true ->
            hl_of s r now + fl_of s r dl now <= MAXP ->
            qframe (dg_length (dg_of s r data dl now)) = 0 ->
            l <> []).
Proof.
  intros Hfind Hoff. unfold quicrq_datagram_handle_repeat.
  destruct (cnx_present s) eqn:Hc; cbn [negb].
  - split.
    + apply handle_repeat_loop_fuel; [lia|].
      intros r' Hr'. congruence.
    + intros ret s' Hrun.
      destruct (handle_repeat_loop_spec _ s found data dl pe now r ret s' Hfind Hrun)
        as (_ & _ & _ & _ & l & Hq & Hall & Hfirst).
      exists l. split; [exact Hq|]. split; [exact Hall|].
      intros _ H1 H2 H3. destruct (Hfirst (conj H1 (conj H2 H3))) as [[l' ->] _].
      discriminate.
  - split; [discriminate|]. intros ret s' Hrun. inversion Hrun; subst.
    exists []. rewrite app_nil_r. split; [reflexivity|]. split; [constructor|].
    intros H. discriminate.
Qed.

(** C4, as amended. When the record of the key exists, is not
    acknowledged, and either has no extra repeat queued yet or was last
    sent no later than 1000 microseconds after [sent_time],
    [quicrq_datagram_handle_lost] sets [nack_received] on it, counts the
    loss and runs the repeat with [extra_repeat_on_nack] as [prepare_extra]:
    when the connection is there, there is something to send and the first
    frame fits and is accepted, a datagram for the record is queued, and,
    when [extra_repeat_on_nack] is set, [extra_repeat_delay > 0] and no
    extra repeat was queued before, the record enters the list of extra
    repeats. A record with an extra repeat queued and sent later than that
    is left as it is, as is an absent or acknowledged one. *)
Theorem handle_lost_repeats (s : stream) (g o off sent_time : Z) (bytes : list Z)
    (len now : Z) (r : das) :
  quicrq_datagram_ack_find (datagram_ack_tree s) (g, o, off) = Some r ->
  is_acked r = false ->
  is_u64 off ->
  let res := quicrq_datagram_handle_lost MAXP QMAX hlen qframe s g o off sent_time
               bytes len now in
  (is_extra_queued r = true /\ u64 (sent_time + 1000) < last_sent_time r ->
   res = Ok (0, s))
  /\ (is_extra_queued r = false \/ last_sent_time r <= u64 (sent_time + 1000) ->
      res <> OutOfFuel
      /\ forall ret s', res = Ok (ret, s') ->
           (exists r', quicrq_datagram_ack_find (datagram_ack_tree s') (g, o, off) = Some r'
                       /\ nack_received r' = true)
           /\ nb_fragment_lost s' = nb_fragment_lost s + 1
           /\ (cnx_present s = true ->
               (len >? 0) || (flags r =? 255) = true ->
               hl_of s r now + fl_of s r len now <= MAXP ->
               qframe (dg_length (dg_of s r bytes len now)) = 0 ->
               (exists l', datagram_queue s'
                           = datagram_queue s ++ dg_of s r bytes len now :: l')
               /\ (extra_repeat_on_nack s = true -> extra_repeat_delay s > 0 ->
                   is_extra_queued r = false -> In (g, o, off) (extra_list s')))).
Proof.
  intros Hfind Hack Hoff. cbv zeta. unfold quicrq_datagram_handle_lost.
  rewrite Hfind, Hack. simpl negb. cbv iota.
  destruct (find_some _ _ _ Hfind) as [Hkey _].
  split.
  { intros [Hq Hlate]. rewrite Hq. simpl.
    destruct (Z.leb_spec (last_sent_time r) (u64 (sent_time + 1000))); [lia | reflexivity]. }
  intros Hguard.
  assert (Hg : negb (is_extra_queued r) || (last_sent_time r <=? u64 (sent_time + 1000)) = true).
  { destruct Hguard as [-> | H]; [reflexivity|].
    apply orb_true_iff. right. apply Z.leb_le. exact H. }
  rewrite Hg.
  set (s1 := set_tree s (update_das (datagram_ack_tree s) (g, o, off)
                           (fun x => set_nack_received x true))).
  set (s2 := set_counters s1 (nb_horizon_acks s1) (nb_horizon_events s1)
               (nb_fragment_lost s1 + 1)).
  assert (Hfind2 : quicrq_datagram_ack_find (datagram_ack_tree s2) (g, o, off)
                   = Some (set_nack_received r true)).
  { simpl. rewrite find_update_same by auto with das. rewrite Hfind. reflexivity. }
  assert (Hoff2 : is_u64 (object_offset (set_nack_received r true))).
  { unfold key in Hkey. injection Hkey. intros Ho _ _.
    change (is_u64 (object_offset r)). rewrite Ho. exact Hoff. }
  destruct (repeat_header_queue_delay s2 (g, o, off) bytes len (extra_repeat_on_nack s2)
              now _ Hfind2 Hoff2) as [Hfuel _].
  split; [exact Hfuel|].
  intros ret s' Hrun. unfold quicrq_datagram_handle_repeat in Hrun.
  change (cnx_present s2) with (cnx_present s) in Hrun.
  destruct (cnx_present s) eqn:Hc; cbn [negb] in Hrun.
  - destruct (handle_repeat_loop_spec _ s2 (g, o, off) bytes len _ now _ ret s' Hfind2 Hrun)
      as (E1 & _ & _ & (r' & Hr' & Hmeta) & l & Hq & _ & Hfirst).
    destruct (env_fields _ _ E1) as (_ & Hlost & _).
    split; [|split; [exact Hlost|]].
    + exists r'. split; [exact Hr'|]. unfold meta in Hmeta.
      injection Hmeta; intros; assumption.
    + intros _ H1 H2 H3.
      destruct (Hfirst (conj H1 (conj H2 H3))) as [[l' ->] Hx].
      split; [exists l'; exact Hq | exact Hx].
  - inversion Hrun; subst ret s'. split; [|split; [reflexivity|]].
    + eexists. split; [exact Hfind2 | reflexivity].
    + intros H. discriminate.
Qed.

(** *** The repeat keeps the tree well formed *)

Lemma fragment_length_bounds (s : stream) (r : das) (dl now : Z) :
  fl_of s r dl now < dl -> 0 <= fl_of s r dl now < 2 ^ 64.
Proof.
  unfold repeat_fragment_length.
  destruct (repeat_too_long QMAX hlen s r dl now); [|lia].
  intros _. unfold u64. Z.div_mod_to_equations. lia.
Qed.

Lemma shape_record (r : das) :
  shape r = (group_id r, object_id r, object_offset r, length r).
Proof. reflexivity. Qed.

(** No offset of a recorded fragment, and none after it in its object, is
    below the horizon of a well-formed stream. *)
Lemma check_horizon_wf (s : stream) (r : das) (x : Z) :
  ack_wf s -> In (shape r) (map shape (datagram_ack_tree s)) ->
  object_offset r <= x < 2 ^ 62 ->
  0 <= quicrq_datagram_check_horizon s (group_id r) (object_id r) x.
Proof.
  intros (W1 & W2 & W3) Hin Hx.
  rewrite Forall_forall in W2. specialize (W2 _ Hin).
  rewrite shape_record in W2. destruct W2 as (Hg & Ho & Hoff & Hlen & Hend).
  cbn [fst snd] in Hg, Ho, Hoff, Hlen, Hend.
  apply horizon_ok_shapes in W3. destruct W3 as [Hun | (H1 & H2 & H3 & H4)].
  - apply check_horizon_uninitialized; assumption.
  - specialize (H4 _ Hin). rewrite shape_record in H4. cbn [fst] in H4.
    assert (Hxr : in_range x) by (unfold in_range; lia).
    destruct (Z.lt_ge_cases (quicrq_datagram_check_horizon s (group_id r) (object_id r) x) 0)
      as [Hneg|Hpos]; [|exact Hpos].
    exfalso. apply check_horizon_lex in Hneg; try assumption.
    unfold lex_le, lex_lt, horizon in *.
    destruct H4 as [H4|H4]; [|inversion H4]; lia.
Qed.

Lemma repeat_turn_wf (s : stream) (found : akey) (data : list Z) (dl : Z)
    (pe : bool) (now : Z) (r : das) :
  ack_wf s ->
  quicrq_datagram_ack_find (datagram_ack_tree s) found = Some r ->
  0 <= dl <= length r ->
  match turn_of s found data dl pe now with
  | Done ret s' => ack_wf s'
  | Next s' found' data' dl' =>
      ack_wf s' /\ 1 <= fl_of s r dl now < dl /\ dl' = dl - fl_of s r dl now
      /\ found' = (group_id r, object_id r, object_offset r + fl_of s r dl now)
      /\ (exists x, quicrq_datagram_ack_find (datagram_ack_tree s') found = Some x
                    /\ length x = fl_of s r dl now /\ lineage x = lineage r)
      /\ exists r', quicrq_datagram_ack_find (datagram_ack_tree s') found' = Some r'
                    /\ length r' = dl' /\ lineage r' = lineage r
  | Crash => False
  end.
Proof.
  intros Hwf Hfind Hdl.
  pose proof (repeat_turn_spec s found data dl pe now r Hfind) as HT. cbv zeta in HT.
  destruct (find_in_shapes _ _ _ Hfind) as [Hin Hkey].
  pose proof Hwf as (W1 & W2 & W3).
  assert (Hrok : shape_ok (shape r)) by (rewrite Forall_forall in W2; apply W2, Hin).
  rewrite shape_record in Hrok. destruct Hrok as (Hg & Ho & Hoff & Hlen & Hend).
  cbn [fst snd] in Hg, Ho, Hoff, Hlen, Hend.
  set (fl := fl_of s r dl now) in *.
  destruct (turn_of s found data dl pe now) as [ret s'|s' found' data' dl'|].
  - destruct HT as (E1 & _ & (f1 & Hf1 & Ht) & _).
    destruct (env_fields _ _ E1) as (_ & _ & _ & Hh & _).
    apply (ack_wf_same s s' Hh); [|exact Hwf].
    rewrite Ht. apply map_shape_update, core_fun_shape, Hf1.
  - destruct HT as (_ & E1 & _ & Hsplit & -> & -> & -> & Hnone & _ & f1 & f2 & Hf1 & Hf2 & Ht).
    destruct (fragment_length_bounds s r dl now Hsplit) as [Hfl0 _]. fold fl in Hfl0.
    assert (Hoffl : u64 (object_offset r + fl) = object_offset r + fl)
      by (unfold u64; Z.div_mod_to_equations; lia).
    assert (Hdl' : u64 (dl - fl) = dl - fl) by (unfold u64; Z.div_mod_to_equations; lia).
    rewrite Hoffl in *. rewrite Hdl' in *.
    assert (Hfl1 : 1 <= fl).
    { destruct (Z.eq_dec fl 0) as [E|E]; [|lia]. exfalso.
      rewrite E, Z.add_0_r in Hnone. fold (key r) in Hnone. rewrite Hkey in Hnone. congruence. }
    set (nk := (group_id r, object_id r, object_offset r + fl)) in *.
    set (da := tail_record r (object_offset r + fl) (dl - fl)) in *.
    assert (Hne : nk <> found).
    { intros E. rewrite E in Hnone. congruence. }
    assert (Hgs : forall x, shape (inherit r (f2 x)) = shape x).
    { intros x. pose proof (core_fun_shape f2 Hf2 x) as H. exact H. }
    pose proof (split_shapes (datagram_ack_tree s) found nk da f1
                  (fun x => inherit r (f2 x)) fl eq_refl Hne Hf1 Hgs) as Hshapes.
    rewrite <- Ht in Hshapes. rewrite <- Hkey in Hshapes.
    change (shape da) with ((group_id r, object_id r, object_offset r + fl), dl - fl) in Hshapes.
    rewrite shape_record in Hin.
    destruct (split_wf (map shape (datagram_ack_tree s)) (group_id r) (object_id r)
                (object_offset r) (length r) fl dl W1 W2 Hin Hfl1 Hsplit (proj2 Hdl)
                (find_none_shapes _ _ Hnone)) as (S1 & S2 & S3).
    cbv zeta in S1, S2, S3. fold (key r) in S1, S2, S3. rewrite <- Hshapes in S1, S2, S3.
    destruct (env_fields _ _ E1) as (_ & _ & _ & Hh & _).
    destruct (horizon_fields _ _ Hh) as (Eg & Eo & Ef).
    split; [|split; [lia|split; [reflexivity|split; [reflexivity|]]]].
    + split; [exact S1|]. split; [exact S2|].
      apply horizon_ok_shapes. apply horizon_ok_shapes in W3.
      unfold horizon_uninitialized in *. rewrite Hh, Eg, Eo, Ef.
      destruct W3 as [Hun | (H1 & H2 & H3 & H4)]; [left; exact Hun | right].
      split; [exact H1|]. split; [exact H2|]. split; [exact H3|].
      intros x Hx. destruct (S3 x Hx) as [Ex | (y & Hy & Ey)].
      * rewrite Ex. specialize (H4 _ Hin). cbn [fst] in H4.
        unfold lex_le, lex_lt, horizon in *. destruct H4 as [H4|H4]; [|inversion H4]; left; lia.
      * rewrite <- Ey. apply H4, Hy.
    + assert (Hg2 : keeps_key (fun x => inherit r (f2 x))).
      { intros x. change (key (f2 x) = key x). apply core_fun_keeps_key, Hf2. }
      destruct (split_tree_records (datagram_ack_tree s) found nk r da f1
                  (fun x => inherit r (f2 x)) fl Hfind Hnone eq_refl Hf1 Hg2) as (R1 & R2 & _).
      cbv zeta in R1, R2. rewrite <- Ht in R1, R2. split.
      * exists (set_length (f1 r) fl). split; [exact R2|]. split; [reflexivity|].
        destruct (core_fields _ _ (Hf1 r)) as (Cg & Co & _ & C1 & C2 & _ & C4 & C5 & C6 & _ & C8).
        unfold lineage. simpl. congruence.
      * exists (inherit r (f2 da)). split; [exact R1|]. split.
        -- exact (proj2 (key_tail r f2 _ _ Hf2)).
        -- apply lineage_tail, Hf2.
  - destruct HT as (_ & Hsplit & Hneg).
    destruct (fragment_length_bounds s r dl now Hsplit) as [Hfl0 _]. fold fl in Hfl0.
    assert (Hoffl : u64 (object_offset r + fl) = object_offset r + fl)
      by (unfold u64; Z.div_mod_to_equations; lia).
    rewrite Hoffl in Hneg.
    pose proof (check_horizon_wf s r (object_offset r + fl) Hwf Hin) as Hpos.
    lia.
Qed.

(** From a well-formed stream the loop ends, never reads the null pointer,
    and leaves a well-formed stream. *)
Lemma handle_repeat_loop_wf (fuel : nat) :
  forall (s : stream) (found : akey) (data : list Z) (dl : Z) (pe : bool) (now : Z)
         (r : das),
    ack_wf s ->
    quicrq_datagram_ack_find (datagram_ack_tree s) found = Some r ->
    0 <= dl <= length r ->
    (Z.to_nat dl < fuel)%nat ->
    exists ret s', loop_of fuel s found data dl pe now = Ok (ret, s') /\ ack_wf s'.
Proof.
  induction fuel as [|fuel IH]; intros s found data dl pe now r Hwf Hfind Hdl Hfuel; [lia|].
  simpl. pose proof (repeat_turn_wf s found data dl pe now r Hwf Hfind Hdl) as HT.
  destruct (turn_of s found data dl pe now) as [ret s'|s' found' data' dl'|].
  - exists ret, s'. split; [reflexivity | exact HT].
  - destruct HT as (Hwf' & Hfl & -> & -> & _ & r' & Hr' & Hlen & _).
    apply (IH s' _ data' _ pe now r' Hwf' Hr'); lia.
  - contradiction.
Qed.

End RepeatFacts.

Lemma repeat_header_queue_delay_witness :
  quicrq_datagram_ack_find (datagram_ack_tree ex_s) (0, 0, 0) = Some ex_r
  /\ is_u64 (object_offset ex_r)
  /\ quicrq_datagram_handle_repeat 1536 30 ex_hlen ex_qframe ex_s (0, 0, 0)
       ex_data 50 false 700 <> OutOfFuel.
Proof.
  assert (H1 : quicrq_datagram_ack_find (datagram_ack_tree ex_s) (0, 0, 0) = Some ex_r)
    by reflexivity.
  assert (H2 : is_u64 (object_offset ex_r)) by (unfold is_u64; simpl; lia).
  split; [exact H1|]. split; [exact H2|].
  exact (proj1 (repeat_header_queue_delay 1536 30 ex_hlen ex_qframe ex_s (0, 0, 0)
                  ex_data 50 false 700 ex_r H1 H2)).
Defined.

(** C6, as stated, fails: 500 microseconds after the start time the
    truncated quotient (500 - 0) / 1000 is 0, and the datagram that the
    repeat queues carries the stored delay plus 1. *)
Lemma repeat_queue_delay_counterexample :
  start_time ex_r < 500
  /\ queued_delays (quicrq_datagram_handle_repeat 1536 1200 ex_hlen ex_qframe ex_s
                      (0, 0, 0) ex_data 50 false 500) = [1]
  /\ queue_delay ex_r + (500 - start_time ex_r) / 1000 = 0.
Proof. split; [reflexivity|]. split; vm_compute; reflexivity. Qed.

Lemma handle_lost_repeats_witness :
  quicrq_datagram_ack_find (datagram_ack_tree ex_s) (0, 0, 0) = Some ex_r
  /\ is_acked ex_r = false
  /\ is_u64 0
  /\ quicrq_datagram_handle_lost 1536 30 ex_hlen ex_qframe ex_s 0 0 0 0 ex_data 50 700
     <> OutOfFuel.
Proof.
  assert (H1 : quicrq_datagram_ack_find (datagram_ack_tree ex_s) (0, 0, 0) = Some ex_r)
    by reflexivity.
  assert (H2 : is_u64 0) by (unfold is_u64; lia).
  split; [exact H1|]. split; [reflexivity|]. split; [exact H2|].
  destruct (handle_lost_repeats 1536 30 ex_hlen ex_qframe ex_s 0 0 0 0 ex_data 50 700
              ex_r H1 eq_refl H2) as [_ H].
  exact (proj1 (H (or_introl eq_refl))).
Defined.

(** C4, as stated, fails: the record of [late_s2] exists and is not
    acknowledged, but its extra repeat was queued and it was last sent at
    time 10100; the loss of the copy sent at time 100 is ignored: the flag
    stays clear and nothing is queued. *)
Lemma handle_lost_ignored_counterexample :
  exists r,
    quicrq_datagram_ack_find (datagram_ack_tree late_s2) (0, 0, 0) = Some r
    /\ is_acked r = false /\ nack_received r = false
    /\ extra_repeat_on_nack late_s2 = true
    /\ quicrq_datagram_handle_lost 1536 1200 ex_hlen ex_qframe late_s2 0 0 0 100
         (List.repeat 0 10) 10 10200 = Ok (0, late_s2).
Proof.
  eexists. split; [vm_compute; reflexivity|].
  split; [reflexivity|]. split; [reflexivity|]. split; [reflexivity|].
  vm_compute. reflexivity.
Qed.

(** ** The tree stays well formed *)

Lemma lex_le_of_check (s : stream) (g o off : Z) :
  in_range g -> in_range o -> in_range off ->
  in_range (horizon_group_id s) -> in_range (horizon_object_id s) ->
  in_range (horizon_offset s) ->
  0 <= quicrq_datagram_check_horizon s g o off -> lex_le (horizon s) (g, o, off).
Proof.
  intros Hg Ho Hf Hhg Hho Hhf Hc.
  destruct (lex_total (horizon s) (g, o, off)) as [H|[H|H]].
  - left; exact H.
  - right; exact H.
  - apply check_horizon_lex in H; try assumption. lia.
Qed.

(** X1. [quicrq_datagram_ack_init] keeps the tree well formed: sorted by
    key, fragments of one object not overlapping, no record below an
    initialized horizon. The fragment announced has to be made of values
    that variable-length integers carry and to overlap no recorded
    fragment; whether it is recorded, refused as below the horizon or as
    a duplicate does not matter. *)
Theorem ack_init_keeps_tree (s : stream) (g o off fl nb : Z) (data : list Z)
    (len qd ol now : Z) :
  ack_wf s ->
  shape_ok ((g, o, off), len) ->
  (forall x, In x (map shape (datagram_ack_tree s)) ->
     fst (fst (fst x)) = g -> snd (fst (fst x)) = o ->
     (snd (fst x) < off -> snd (fst x) + snd x <= off)
     /\ (off < snd (fst x) -> off + len <= snd (fst x))) ->
  ack_wf (snd (quicrq_datagram_ack_init s g o off fl nb data len qd ol now)).
Proof.
  intros Hwf Hv Hcompat.
  pose proof (ack_init_spec s g o off fl nb data len qd ol now) as HS.
  destruct (quicrq_datagram_ack_init s g o off fl nb data len qd ol now) as [[ret cr] s'].
  cbv zeta in HS. cbn [snd].
  destruct HS as (E1 & _ & _ & [(_ & _ & _ & Ht) | [(_ & _ & _ & _ & ->) | (_ & _ & Hc & Hnone & f & Hf & Ht)]]).
  - destruct (env_fields _ _ E1) as (_ & _ & _ & Hh & _).
    apply (ack_wf_same s s' Hh); [rewrite Ht; reflexivity | exact Hwf].
  - exact Hwf.
  - destruct (env_fields _ _ E1) as (_ & _ & _ & Hh & _).
    destruct (horizon_fields _ _ Hh) as (Eg & Eo & Ef).
    destruct Hwf as (W1 & W2 & W3).
    set (da := mk_das g o off fl nb len ol qd now 0 false false false None 0) in *.
    assert (Hm : map shape (datagram_ack_tree s')
                 = shape_insert (map shape (datagram_ack_tree s)) ((g, o, off), len)).
    { rewrite Ht, (map_shape_update _ _ f (core_fun_shape f Hf)), map_shape_insert.
      reflexivity. }
    unfold ack_wf. rewrite Hm. split; [|split].
    + apply sorted_insert; try assumption.
      apply (find_none_shapes _ _ Hnone).
    + rewrite Forall_forall in *. intros x Hx. apply in_shape_insert in Hx.
      destruct Hx as [->|Hx]; [exact Hv | apply W2, Hx].
    + apply horizon_ok_shapes. apply horizon_ok_shapes in W3.
      unfold horizon_uninitialized in *. rewrite Hm, Hh, Eg, Eo, Ef.
      destruct W3 as [Hun | (H1 & H2 & H3 & H4)]; [left; exact Hun | right].
      split; [exact H1|]. split; [exact H2|]. split; [exact H3|].
      intros x Hx. apply in_shape_insert in Hx. destruct Hx as [->|Hx]; [|apply H4, Hx].
      cbn [fst]. destruct Hv as (Vg & Vo & Voff & Vlen & Vend). cbn [fst snd] in *.
      apply lex_le_of_check; try assumption. unfold in_range. lia.
Qed.

Lemma mark_acked_shapes (l : list das) :
  forall (g o a n : Z) (l' : list das),
    mark_acked l g o a n = Ok l' -> map shape l' = map shape l.
Proof.
  induction l as [|x l IH]; intros g o a n l' H; simpl in H.
  - injection H as <-. reflexivity.
  - destruct (n >? 0); [|injection H as <-; reflexivity].
    destruct (i64 (n - length x) >? 0); [|injection H as <-; reflexivity].
    destruct l as [|y l]; [discriminate|].
    destruct (negb (group_id y =? g) || negb (object_id y =? o)
              || negb (object_offset y =? u64 (a + length x)));
      [injection H as <-; reflexivity|].
    destruct (mark_acked (y :: l) g o (u64 (a + length x)) (i64 (n - length x)))
      as [rest| |] eqn:E; simpl in H; [|discriminate|discriminate].
    injection H as <-. simpl. rewrite (IH _ _ _ _ _ E). reflexivity.
Qed.

Lemma mark_from_shapes (t : list das) (k : akey) (n : Z) :
  forall t', mark_from t k n = Ok t' -> map shape t' = map shape t.
Proof.
  induction t as [|x t IH]; intros t' H; cbn [mark_from] in H.
  - injection H as <-. reflexivity.
  - destruct (akey_eqb (key x) k).
    + apply (mark_acked_shapes _ _ _ _ _ _ H).
    + destruct (mark_from t k n) as [t''| |]; simpl in H; [|discriminate|discriminate].
      injection H as <-. simpl. rewrite (IH _ eq_refl). reflexivity.
Qed.

Lemma ack_versus_horizon_stream (s : stream) (g o off len : Z) :
  let '(_, _, _, _, sa) := ack_versus_horizon s g o off len in
  horizon sa = horizon s /\ datagram_ack_tree sa = datagram_ack_tree s
  /\ horizon_is_last_fragment sa = horizon_is_last_fragment s.
Proof.
  unfold ack_versus_horizon. cbv zeta.
  repeat match goal with
         | |- context [if ?b then _ else _] => destruct b
         end; repeat split.
Qed.

Lemma delete_hint_horizon (s : stream) (k : akey) :
  horizon (picosplay_delete_hint s k) = horizon s.
Proof.
  unfold picosplay_delete_hint.
  match goal with |- horizon (set_tree ?x _) = _ => change (horizon x = horizon s) end.
  apply dequeue_horizon.
Qed.

Lemma collapse_horizon (s : stream) (r : das) :
  horizon (collapse s r) = (group_id r, object_id r, u64 (object_offset r + length r)).
Proof. unfold collapse. rewrite delete_hint_horizon. reflexivity. Qed.

(** A collapse over the first record of a well-formed tree. *)
Lemma collapse_wf (s : stream) (r : das) (rest : list das) :
  ack_wf s -> datagram_ack_tree s = r :: rest ->
  ack_wf (collapse s r) /\ datagram_ack_tree (collapse s r) = rest
  /\ horizon (collapse s r) = (group_id r, object_id r, object_offset r + length r).
Proof.
  intros (W1 & W2 & _) Ht. rewrite Ht in W1, W2. simpl in W1, W2.
  apply StronglySorted_inv in W1. destruct W1 as [W1 Hall].
  apply Forall_cons_iff in W2. destruct W2 as [Hr W2].
  rewrite shape_record in Hr. destruct Hr as (Hg & Ho & Hoff & Hlen & Hend).
  cbn [fst snd] in Hg, Ho, Hoff, Hlen, Hend.
  assert (Hu : u64 (object_offset r + length r) = object_offset r + length r)
    by (unfold u64; Z.div_mod_to_equations; lia).
  assert (Hn : ~ In (key r) (map key rest)).
  { intros Hin. rewrite map_key_shape in Hin. apply in_map_iff in Hin.
    destruct Hin as (x & Ex & Hx). rewrite Forall_forall in Hall.
    destruct (Hall x Hx) as [Hlt _]. change (fst (shape r)) with (key r) in Hlt.
    rewrite Ex in Hlt. exact (lex_lt_irrefl _ Hlt). }
  assert (Hrest : datagram_ack_tree (collapse s r) = rest).
  { unfold collapse. apply delete_hint_head; [exact Ht | exact Hn]. }
  pose proof (collapse_horizon s r) as Hh. rewrite Hu in Hh.
  split; [|split; [exact Hrest | exact Hh]].
  unfold ack_wf. rewrite Hrest. split; [exact W1|]. split; [exact W2|].
  apply horizon_ok_shapes. right. rewrite Hrest, Hh.
  assert (Hf : horizon_group_id (collapse s r) = group_id r
               /\ horizon_object_id (collapse s r) = object_id r
               /\ horizon_offset (collapse s r) = object_offset r + length r).
  { unfold horizon in Hh. injection Hh. auto. }
  destruct Hf as (-> & -> & ->).
  unfold in_range in *. repeat split; try lia.
  intros x Hx. rewrite Forall_forall in Hall, W2.
  destruct (Hall x Hx) as [Hlt Hov]. rewrite shape_record in Hlt, Hov. cbn [fst snd] in Hlt, Hov.
  destruct x as [[[xg xo] xoff] xlen]. cbn [fst snd] in *.
  unfold lex_le, lex_lt in *. cbn [fst snd] in *.
  destruct (Z.eq_dec (group_id r) xg) as [Eg|Ng]; [|left; lia].
  destruct (Z.eq_dec (object_id r) xo) as [Eo|No]; [|left; lia].
  specialize (Hov Eg Eo). subst xg xo.
  destruct (Z.eq_dec (object_offset r + length r) xoff) as [E|N];
    [right; congruence | left; lia].
Qed.

(** Where the test [just_after] holds, the record is not below an
    initialized horizon. *)
Lemma just_after_above (s : stream) (r : das) :
  in_range (horizon_group_id s) -> in_range (horizon_object_id s) ->
  in_range (horizon_offset s) -> shape_ok (shape r) ->
  just_after s r = true -> lex_le (horizon s) (key r).
Proof.
  intros Hhg Hho Hhf Hr. rewrite shape_record in Hr.
  destruct Hr as (Hg & Ho & Hoff & Hlen & Hend). cbn [fst snd] in *.
  unfold just_after, lex_le, lex_lt, horizon, key, in_range in *. cbn [fst snd].
  destruct (Z.eqb_spec (group_id r) (horizon_group_id s)) as [Eg|Ng].
  - destruct (Z.eqb_spec (object_id r) (horizon_object_id s)) as [Eo|No].
    + rewrite Z.eqb_eq. intros E. right. congruence.
    + destruct (horizon_is_last_fragment s); [|discriminate].
      rewrite andb_true_iff, !Z.eqb_eq. intros [H1 H2]. left.
      assert (object_id r = horizon_object_id s + 1)
        by (unfold u64 in H1; Z.div_mod_to_equations; lia).
      lia.
  - rewrite !andb_true_iff, !Z.eqb_eq. intros [[[H1 H2] H3] H4]. left.
    assert (group_id r = horizon_group_id s + 1)
      by (unfold u64 in H2; Z.div_mod_to_equations; lia).
    lia.
Qed.

(** The loop that progresses the horizon keeps the tree well formed, and
    never moves an initialized horizon backwards. *)
Lemma progress_horizon_wf (nodes : list das) :
  forall s, datagram_ack_tree s = nodes -> ack_wf s ->
    ack_wf (progress_horizon s nodes)
    /\ (~ horizon_uninitialized s ->
        lex_le (horizon s) (horizon (progress_horizon s nodes))
        /\ ~ horizon_uninitialized (progress_horizon s nodes)).
Proof.
  induction nodes as [|r nodes IH]; intros s Ht Hwf; simpl.
  - split; [exact Hwf|]. intros Hi. split; [right; reflexivity | exact Hi].
  - destruct (is_acked r); simpl;
      [|split; [exact Hwf | intros Hi; split; [right; reflexivity | exact Hi]]].
    destruct (just_after s r) eqn:J; simpl;
      [|split; [exact Hwf | intros Hi; split; [right; reflexivity | exact Hi]]].
    destruct (collapse_wf s r nodes Hwf Ht) as (Hwf' & Ht' & Hh).
    destruct (IH _ Ht' Hwf') as [I1 I2]. split; [exact I1|].
    intros Hi.
    destruct Hwf as (_ & W2 & W3). rewrite Ht in W2. simpl in W2.
    apply Forall_cons_iff in W2. destruct W2 as [Hr _].
    destruct W3 as [Hun | (H1 & H2 & H3 & _)]; [contradiction|].
    pose proof (just_after_above s r H1 H2 H3 Hr J) as Hge.
    pose proof Hr as Hr'. rewrite shape_record in Hr'.
    destruct Hr' as (Hg & Ho & Hoff & Hlen & Hend). cbn [fst snd] in *.
    assert (Hi' : ~ horizon_uninitialized (collapse s r)).
    { unfold horizon_uninitialized.
      assert (Eg : horizon_group_id (collapse s r) = group_id r)
        by (unfold horizon in Hh; injection Hh; auto).
      rewrite Eg. unfold UINT64_MAX, in_range in *. lia. }
    destruct (I2 Hi') as [I3 I4]. split; [|exact I4].
    assert (Hstep : lex_le (horizon s) (horizon (collapse s r))).
    { rewrite Hh. destruct Hge as [Hge|Hge].
      - left. unfold lex_lt, key, horizon in Hge |- *. cbn [fst snd] in Hge |- *. lia.
      - rewrite Hge. unfold lex_le, lex_lt, key. cbn [fst snd].
        destruct (Z.eq_dec (length r) 0) as [E|E].
        + right. rewrite E, Z.add_0_r. reflexivity.
        + left. lia. }
    destruct Hstep as [Hs|Hs]; [|rewrite Hs; exact I3].
    destruct I3 as [I3|I3]; [left; exact (lex_lt_trans _ _ _ Hs I3) | left; rewrite <- I3; exact Hs].
Qed.

(** X2. When [quicrq_datagram_handle_ack] returns, the tree is still well
    formed: the records are sorted by key and do not overlap, and none is
    below an initialized horizon. An initialized horizon never moves
    backwards, and stays initialized. *)
Theorem handle_ack_keeps_tree (s s' : stream) (g o off len : Z) :
  ack_wf s ->
  quicrq_datagram_handle_ack s g o off len = Ok s' ->
  ack_wf s'
  /\ (~ horizon_uninitialized s ->
      lex_le (horizon s) (horizon s') /\ ~ horizon_uninitialized s').
Proof.
  intros Hwf H. unfold quicrq_datagram_handle_ack in H.
  pose proof (ack_versus_horizon_stream s g o off len) as HA.
  destruct (ack_versus_horizon s g o off len) as [[[[below check] aoff] alen] sa].
  destruct HA as (Hh & Ht & _).
  assert (Hwa : ack_wf sa) by (apply (ack_wf_same s sa Hh); [rewrite Ht; reflexivity | exact Hwf]).
  assert (Hia : ~ horizon_uninitialized s -> ~ horizon_uninitialized sa).
  { unfold horizon_uninitialized. destruct (horizon_fields _ _ Hh) as (-> & _). auto. }
  assert (Hm : forall s1, ack_mark sa g o below aoff alen = Ok s1 ->
                 ack_wf s1 /\ horizon s1 = horizon sa).
  { intros s1 E. unfold ack_mark in E. destruct below; [injection E as <-; auto|].
    destruct (mark_from (datagram_ack_tree sa) (g, o, aoff) alen) as [t| |] eqn:Em;
      simpl in E; [|discriminate|discriminate].
    injection E as <-. split; [|reflexivity].
    apply (ack_wf_same sa (set_tree sa t) eq_refl); [|exact Hwa].
    simpl. apply (mark_from_shapes _ _ _ _ Em). }
  destruct (ack_mark sa g o below aoff alen) as [s1| |]; simpl in H; [|discriminate|discriminate].
  destruct (Hm s1 eq_refl) as [Hw1 Hh1].
  assert (Hi1 : ~ horizon_uninitialized s -> ~ horizon_uninitialized s1).
  { intros Hi. apply Hia in Hi. unfold horizon_uninitialized in *.
    destruct (horizon_fields _ _ Hh1) as (-> & _). exact Hi. }
  destruct check; injection H as <-.
  - destruct (progress_horizon_wf (datagram_ack_tree s1) s1 eq_refl Hw1) as [P1 P2].
    split; [exact P1|]. intros Hi. rewrite <- Hh, <- Hh1. apply P2, Hi1, Hi.
  - split; [exact Hw1|]. intros Hi. split; [right; congruence | apply Hi1, Hi].
Qed.

(** ** A repeat followed to its end *)

Lemma firstn_split (A : Type) (a b : nat) (l : list A) :
  firstn (a + b) l = firstn a l ++ firstn b (skipn a l).
Proof.
  revert l. induction a as [|a IH]; intros l; simpl; [reflexivity|].
  destruct l as [|x l]; simpl.
  - rewrite firstn_nil. reflexivity.
  - rewrite IH. reflexivity.
Qed.

Lemma lineage_fields (x y : das) :
  lineage x = lineage y ->
  group_id x = group_id y /\ object_id x = object_id y /\ flags x = flags y
  /\ nb_objects_previous_group x = nb_objects_previous_group y
  /\ object_length x = object_length y /\ queue_delay x = queue_delay y
  /\ start_time x = start_time y.
Proof. unfold lineage. intros H. injection H. intros. repeat split; assumption. Qed.

Section SplitFacts.

Variables MAXP QMAX : Z.
Variable hlen : Z -> Z -> Z -> Z -> Z -> Z -> Z -> Z -> Z.
Variable qframe : Z -> Z.
Hypothesis Htr : transport_ok MAXP QMAX hlen qframe.

#[local] Abbreviation turn_of := (repeat_turn MAXP QMAX hlen qframe).
#[local] Abbreviation loop_of := (handle_repeat_loop MAXP QMAX hlen qframe).
#[local] Abbreviation hl_of := (repeat_header_length hlen).
#[local] Abbreviation fl_of := (repeat_fragment_length QMAX hlen).
#[local] Abbreviation dg_of := (repeat_datagram QMAX hlen).

(** The lengths that a turn computes. *)
Lemma split_bounds (s : stream) (r : das) (data : list Z) (dl now : Z) :
  0 <= dl < 2 ^ 62 ->
  let hl := hl_of s r now in
  let fl := fl_of s r dl now in
  0 <= hl < QMAX /\ fl = Z.min dl (QMAX - hl)
  /\ dg_length (dg_of s r data dl now) = hl + fl
  /\ (QMAX < hl + dl <-> fl < dl).
Proof.
  intros Hdl. destruct Htr as (H1 & H2 & H3 & H4). cbv zeta.
  unfold repeat_datagram, repeat_fragment_length, repeat_too_long. cbn [dg_length].
  pose proof (H3 (media_id s) (group_id r) (object_id r) (object_offset r)
                (repeat_queue_delay now r) (flags r) (nb_objects_previous_group r)
                (object_length r)) as Hh.
  fold (repeat_header_length hlen s r now) in Hh.
  set (hl := hl_of s r now) in *.
  assert (E1 : u64 (hl + dl) = hl + dl) by (unfold u64; Z.div_mod_to_equations; lia).
  assert (E2 : u64 (QMAX - hl) = QMAX - hl) by (unfold u64; Z.div_mod_to_equations; lia).
  rewrite E1, E2.
  destruct (Z.gtb_spec (hl + dl) QMAX); repeat split; lia.
Qed.

Lemma handle_repeat_loop_split (fuel : nat) :
  forall (s : stream) (found : akey) (data : list Z) (dl : Z) (pe : bool) (now : Z)
         (r : das),
    ack_wf s ->
    quicrq_datagram_ack_find (datagram_ack_tree s) found = Some r ->
    dl = length r -> dl <= Z.of_nat (List.length data) ->
    (Z.to_nat dl < fuel)%nat ->
    exists s' l,
      loop_of fuel s found data dl pe now = Ok (0, s')
      /\ ack_wf s' /\ env s' = env s
      /\ datagram_queue s' = datagram_queue s ++ l
      /\ concat (map dg_payload l) = firstn (Z.to_nat dl) data
      /\ chained (object_offset r) l
      /\ Forall (fragment_of QMAX hlen now s' r) l
      /\ (0 < dl -> l <> [])
      /\ (QMAX < hl_of s r now + dl -> (2 <= List.length l)%nat).
Proof.
  induction fuel as [|fuel IH]; intros s found data dl pe now r Hwf Hfind Hlen Hdata Hfuel;
    [lia|].
  destruct (find_in_shapes _ _ _ Hfind) as [Hin Hkey].
  pose proof Hwf as (W1 & W2 & W3).
  assert (Hrok : shape_ok (shape r)) by (rewrite Forall_forall in W2; apply W2, Hin).
  rewrite shape_record in Hrok. destruct Hrok as (Rg & Ro & Roff & Rlen & Rend).
  cbn [fst snd] in Rg, Ro, Roff, Rlen, Rend.
  assert (Hdl : 0 <= dl < 2 ^ 62) by lia.
  assert (Hdl' : 0 <= dl <= length r) by lia.
  pose proof (split_bounds s r data dl now Hdl) as (Bh & Bfl & Bdg & Btl).
  pose proof (repeat_turn_spec MAXP QMAX hlen qframe s found data dl pe now r Hfind) as HT.
  pose proof (repeat_turn_wf MAXP QMAX hlen qframe s found data dl pe now r Hwf Hfind Hdl') as HW.
  cbv zeta in HT. cbn [handle_repeat_loop].
  set (hl := hl_of s r now) in *. set (fl := fl_of s r dl now) in *.
  set (dg := dg_of s r data dl now) in *.
  assert (Hacc : hl + fl <= MAXP /\ qframe (dg_length dg) = 0).
  { destruct Htr as (H1 & H2 & H3 & H4). split; [lia|]. apply H4. lia. }
  assert (Hpay : Z.of_nat (List.length (dg_payload dg)) = fl).
  { unfold dg, repeat_datagram. cbn [dg_payload]. fold fl.
    rewrite length_firstn. lia. }
  destruct (turn_of s found data dl pe now) as [ret s'|s' found' data' dl'|];
    [| |contradiction].
  - destruct HT as (E1 & _ & (f1 & Hf1 & Ht) & HC).
    destruct HC as [(-> & -> & Hne) | [(_ & _ & _ & Hbad) | (Hsent & HC)]].
    + exists s, []. rewrite app_nil_r.
      assert (dl = 0).
      { destruct (Z.gtb_spec dl 0); [exfalso; apply Hne; reflexivity | lia]. }
      subst dl. rewrite H. simpl.
      repeat split; auto; try lia.
    + exfalso. destruct Hacc. destruct Hbad; [lia | contradiction].
    + destruct Hsent as (_ & Hq & _).
      destruct HC as [(-> & Hfit) | (_ & Hlt & Hdup)].
      * assert (Efl : fl = dl) by lia.
        exists s', [dg]. split; [reflexivity|]. split; [exact HW|]. split; [exact E1|].
        split; [exact Hq|]. split.
        { simpl. rewrite app_nil_r. unfold dg, repeat_datagram. cbn [dg_payload].
          fold fl. rewrite Efl. reflexivity. }
        split; [simpl; auto|]. split.
        { constructor; [|constructor].
          destruct (env_fields _ _ E1) as (_ & _ & _ & _ & Em).
          unfold fragment_of. rewrite Hpay, Bdg.
          repeat split; try reflexivity; try (symmetry; exact Em); try lia.
          exists (f1 r). change (dg_object_offset dg) with (object_offset r).
          fold (key r). rewrite Hkey, Ht.
          rewrite find_update_same by (apply core_fun_keeps_key, Hf1).
          rewrite Hfind. split; [reflexivity|].
          destruct (core_fields _ _ (Hf1 r)) as (Cg & Co & _ & C1 & C2 & C3 & C4 & C5 & C6 & _ & C8).
          split; [lia|]. unfold lineage. congruence. }
        split; [discriminate|]. intros Hlong. apply Btl in Hlong. lia.
      * exfalso.
        assert (Hfl1 : 1 <= fl) by lia.
        assert (Hu : u64 (object_offset r + fl) = object_offset r + fl)
          by (unfold u64; Z.div_mod_to_equations; lia).
        rewrite Hu in Hdup.
        destruct (quicrq_datagram_ack_find (datagram_ack_tree s)
                    (group_id r, object_id r, object_offset r + fl)) as [x|] eqn:Hx;
          [|apply Hdup; reflexivity].
        destruct (find_in_shapes _ _ _ Hx) as [Hxin Hxkey].
        rewrite shape_record in Hin, Hxin.
        unfold key in Hxkey. injection Hxkey as Xg Xo Xoff.
        destruct (sorted_total _ _ _ W1 Hin Hxin) as [E | [[Hlt' Hov] | [Hlt' _]]].
        -- injection E as _ _ E _. lia.
        -- cbn [fst snd] in Hov. specialize (Hov (eq_sym Xg) (eq_sym Xo)). lia.
        -- unfold lex_lt in Hlt'. cbn [fst snd] in Hlt'. lia.
  - destruct HT as (Hsent & E1 & _ & Hlt & _ & -> & _).
    destruct Hsent as (_ & Hq & _).
    destruct HW as (Hwf1 & Hfl & -> & -> & (x & Hx & Hxlen & Hxlin) & r1 & Hr1 & Hr1len & Hr1lin).
    fold fl in Hfl, Hxlen, Hr1.
    destruct (find_in_shapes _ _ _ Hr1) as [_ Hr1key].
    assert (Hoff1 : object_offset r1 = object_offset r + fl)
      by (unfold key in Hr1key; injection Hr1key; auto).
    assert (Hdata1 : dl - fl <= Z.of_nat (List.length (skipn (Z.to_nat fl) data)))
      by (rewrite length_skipn; lia).
    assert (Hfuel1 : (Z.to_nat (dl - fl) < fuel)%nat) by lia.
    destruct (IH s' _ (skipn (Z.to_nat fl) data) (dl - fl) pe now r1 Hwf1 Hr1
                (eq_sym Hr1len) Hdata1 Hfuel1)
      as (s2 & l1 & Hrun & Hwf2 & E2 & Hq2 & Hcat & Hch & Hfr & Hne & _).
    exists s2, (dg :: l1). split; [exact Hrun|]. split; [exact Hwf2|].
    split; [rewrite E2; exact E1|]. split.
    { rewrite Hq2, Hq, <- app_assoc. reflexivity. }
    split.
    { simpl. rewrite Hcat. unfold dg, repeat_datagram. cbn [dg_payload]. fold fl.
      replace (Z.to_nat dl) with (Z.to_nat fl + Z.to_nat (dl - fl))%nat by lia.
      symmetry. apply firstn_split. }
    split.
    { cbn [chained]. split; [reflexivity|]. rewrite Hpay, <- Hoff1. exact Hch. }
    destruct (lineage_fields _ _ Hr1lin) as (Lg & Lo & Lf & Ln & Lol & Lq & Ls).
    split.
    { constructor.
      - destruct (env_fields _ _ E1) as (_ & _ & _ & _ & Em1).
        destruct (env_fields _ _ E2) as (_ & _ & _ & _ & Em2).
        unfold fragment_of. rewrite Hpay, Bdg.
        repeat split; try reflexivity; try lia.
        + change (dg_media_id dg) with (media_id s). congruence.
        + exists x. change (dg_object_offset dg) with (object_offset r).
          fold (key r). rewrite Hkey. split; [|split; [exact Hxlen | exact Hxlin]].
          destruct (handle_repeat_loop_spec MAXP QMAX hlen qframe fuel s' _ _ _ pe now r1 0 s2
                      Hr1 Hrun) as (_ & _ & Hkeep & _).
          apply Hkeep; [|exact Hx].
          rewrite <- Hkey. unfold key. intros E. injection E as E. lia.
      - rewrite Forall_forall in *. intros d Hd. specialize (Hfr d Hd).
        unfold fragment_of in *. rewrite <- Lg, <- Lo, <- Lf, <- Ln, <- Lol, <- Lq, <- Ls, <- Hr1lin.
        exact Hfr. }
    split; [discriminate|]. intros _.
    assert (l1 <> []) by (apply Hne; lia).
    destruct l1; [contradiction|]. simpl. lia.
Qed.

(** X5. A repeat followed to its end. On a well-formed tree, with the
    connection there and a transport that takes the frames that fit,
    [quicrq_datagram_handle_repeat] called for a whole record returns 0.
    The payloads of the datagrams it queues, put end to end, are the data
    of the record; each datagram starts where the one before it ends, has
    the header of the record but for the offset, fits the queue, and is
    recorded in the tree at its offset with its own length and with the
    flags, object length and nack mark of the record. A record that does
    not fit the queue with its header gives at least two datagrams. The
    tree stays well formed. *)
Theorem handle_repeat_splits (s : stream) (found : akey) (data : list Z) (dl : Z)
    (pe : bool) (now : Z) (r : das) :
  ack_wf s -> cnx_present s = true ->
  quicrq_datagram_ack_find (datagram_ack_tree s) found = Some r ->
  dl = length r -> dl <= Z.of_nat (List.length data) ->
  exists s' l,
    quicrq_datagram_handle_repeat MAXP QMAX hlen qframe s found data dl pe now = Ok (0, s')
    /\ ack_wf s'
    /\ datagram_queue s' = datagram_queue s ++ l
    /\ concat (map dg_payload l) = firstn (Z.to_nat dl) data
    /\ chained (object_offset r) l
    /\ Forall (fragment_of QMAX hlen now s' r) l
    /\ (0 < dl -> l <> [])
    /\ (QMAX < repeat_header_length hlen s r now + dl -> (2 <= List.length l)%nat).
Proof.
  intros Hwf Hcnx Hfind Hlen Hdata.
  unfold quicrq_datagram_handle_repeat. rewrite Hcnx. cbn [negb].
  destruct (handle_repeat_loop_split (S (Z.to_nat dl)) s found data dl pe now r
              Hwf Hfind Hlen Hdata) as (s' & l & H1 & H2 & _ & H3); [lia|].
  exists s', l. split; [exact H1|]. split; [exact H2 | exact H3].
Qed.

(** X3. On a well-formed tree [quicrq_datagram_handle_repeat] returns:
    it never reads through the null pointer that a refused
    [quicrq_datagram_ack_init] leaves, whatever the transport answers, and
    the tree is still well formed. The data length is at most the length
    of the record repeated. *)
Theorem handle_repeat_keeps_tree (s : stream) (found : akey) (data : list Z) (dl : Z)
    (pe : bool) (now : Z) (r : das) :
  ack_wf s ->
  quicrq_datagram_ack_find (datagram_ack_tree s) found = Some r ->
  0 <= dl <= length r ->
  exists ret s',
    quicrq_datagram_handle_repeat MAXP QMAX hlen qframe s found data dl pe now = Ok (ret, s')
    /\ ack_wf s'.
Proof.
  intros Hwf Hfind Hdl. unfold quicrq_datagram_handle_repeat.
  destruct (cnx_present s); cbn [negb].
  - apply (handle_repeat_loop_wf MAXP QMAX hlen qframe _ s found data dl pe now r Hwf Hfind Hdl).
    lia.
  - exists (-1), s. split; [reflexivity | exact Hwf].
Qed.

End SplitFacts.

(** X4. On a well-formed tree [quicrq_datagram_handle_lost] returns,
    whatever the transport answers, and the tree is still well formed;
    the length reported lost is at most the length of the record. *)
Theorem handle_lost_keeps_tree (MAXP QMAX : Z)
    (hlen : Z -> Z -> Z -> Z -> Z -> Z -> Z -> Z -> Z) (qframe : Z -> Z)
    (s : stream) (g o off sent_time : Z) (bytes : list Z) (len now : Z) :
  ack_wf s ->
  (forall r, quicrq_datagram_ack_find (datagram_ack_tree s) (g, o, off) = Some r ->
             0 <= len <= length r) ->
  exists ret s',
    quicrq_datagram_handle_lost MAXP QMAX hlen qframe s g o off sent_time bytes len now
    = Ok (ret, s')
    /\ ack_wf s'.
Proof.
  intros Hwf Hlen. unfold quicrq_datagram_handle_lost.
  destruct (quicrq_datagram_ack_find (datagram_ack_tree s) (g, o, off)) as [r|] eqn:Hfind;
    [|exists 0, s; auto].
  specialize (Hlen r eq_refl).
  destruct (negb (is_acked r)); [|exists 0, s; auto].
  destruct (negb (is_extra_queued r) || (last_sent_time r <=? u64 (sent_time + 1000)));
    [|exists 0, s; auto].
  set (s1 := set_tree s (update_das (datagram_ack_tree s) (g, o, off)
                           (fun x => set_nack_received x true))).
  set (s2 := set_counters s1 (nb_horizon_acks s1) (nb_horizon_events s1)
               (nb_fragment_lost s1 + 1)).
  assert (Hwf2 : ack_wf s2).
  { apply (ack_wf_same s s2 eq_refl); [|exact Hwf].
    change (datagram_ack_tree s2)
      with (update_das (datagram_ack_tree s) (g, o, off) (fun x => set_nack_received x true)).
    apply map_shape_update. reflexivity. }
  assert (Hfind2 : quicrq_datagram_ack_find (datagram_ack_tree s2) (g, o, off)
                   = Some (set_nack_received r true)).
  { change (datagram_ack_tree s2)
      with (update_das (datagram_ack_tree s) (g, o, off) (fun x => set_nack_received x true)).
    rewrite find_update_same by auto with das. rewrite Hfind. reflexivity. }
  unfold quicrq_datagram_handle_repeat. destruct (cnx_present s2); cbn [negb].
  - apply (handle_repeat_loop_wf MAXP QMAX hlen qframe _ s2 (g, o, off) bytes len
             (extra_repeat_on_nack s2) now _ Hwf2 Hfind2 Hlen).
    lia.
  - exists (-1), s2. split; [reflexivity | exact Hwf2].
Qed.

(** *** The examples are well formed *)

Lemma walk_s1_wf : ack_wf walk_s1.
Proof.
  split; [repeat constructor|]. split.
  - constructor; [|constructor]. unfold shape_ok, in_range. simpl. lia.
  - right. unfold in_range. simpl. repeat split; try lia.
    constructor; [|constructor]. left. unfold lex_lt. simpl. lia.
Qed.

Lemma ex_s_wf : ack_wf ex_s.
Proof.
  split; [repeat constructor|]. split.
  - constructor; [|constructor]. unfold shape_ok, in_range. simpl. lia.
  - left. reflexivity.
Qed.

Lemma ex_transport_ok : transport_ok 1536 30 ex_hlen ex_qframe.
Proof.
  unfold transport_ok, ex_hlen, ex_qframe. repeat split; lia.
Qed.

Lemma ack_init_keeps_tree_witness :
  ack_wf ex_s
  /\ shape_ok ((0, 0, 50), 10)
  /\ (forall x, In x (map shape (datagram_ack_tree ex_s)) ->
        fst (fst (fst x)) = 0 -> snd (fst (fst x)) = 0 ->
        (snd (fst x) < 50 -> snd (fst x) + snd x <= 50)
        /\ (50 < snd (fst x) -> 50 + 10 <= snd (fst x)))
  /\ ack_wf (snd (quicrq_datagram_ack_init ex_s 0 0 50 0 0 (List.repeat 0 10) 10 0 60 100)).
Proof.
  assert (H1 : shape_ok ((0, 0, 50), 10)) by (unfold shape_ok, in_range; simpl; lia).
  assert (H2 : forall x, In x (map shape (datagram_ack_tree ex_s)) ->
                 fst (fst (fst x)) = 0 -> snd (fst (fst x)) = 0 ->
                 (snd (fst x) < 50 -> snd (fst x) + snd x <= 50)
                 /\ (50 < snd (fst x) -> 50 + 10 <= snd (fst x))).
  { intros x [<-|[]] _ _. simpl. lia. }
  split; [exact ex_s_wf|]. split; [exact H1|]. split; [exact H2|].
  exact (ack_init_keeps_tree ex_s 0 0 50 0 0 (List.repeat 0 10) 10 0 60 100 ex_s_wf H1 H2).
Defined.

Lemma handle_ack_keeps_tree_witness :
  ack_wf walk_s1
  /\ quicrq_datagram_handle_ack walk_s1 0 1 0 50 = Ok walk_s2
  /\ ack_wf walk_s2
  /\ (~ horizon_uninitialized walk_s1 ->
      lex_le (horizon walk_s1) (horizon walk_s2) /\ ~ horizon_uninitialized walk_s2).
Proof.
  assert (H : quicrq_datagram_handle_ack walk_s1 0 1 0 50 = Ok walk_s2)
    by (vm_compute; reflexivity).
  split; [exact walk_s1_wf|]. split; [exact H|].
  exact (handle_ack_keeps_tree walk_s1 walk_s2 0 1 0 50 walk_s1_wf H).
Defined.

Lemma handle_repeat_keeps_tree_witness :
  ack_wf ex_s
  /\ quicrq_datagram_ack_find (datagram_ack_tree ex_s) (0, 0, 0) = Some ex_r
  /\ 0 <= 50 <= length ex_r
  /\ exists ret s',
       quicrq_datagram_handle_repeat 1536 30 ex_hlen ex_qframe ex_s (0, 0, 0) ex_data 50
         false 700 = Ok (ret, s')
       /\ ack_wf s'.
Proof.
  assert (H1 : quicrq_datagram_ack_find (datagram_ack_tree ex_s) (0, 0, 0) = Some ex_r)
    by reflexivity.
  assert (H2 : 0 <= 50 <= length ex_r) by (simpl; lia).
  split; [exact ex_s_wf|]. split; [exact H1|]. split; [exact H2|].
  exact (handle_repeat_keeps_tree 1536 30 ex_hlen ex_qframe ex_s (0, 0, 0) ex_data 50
           false 700 ex_r ex_s_wf H1 H2).
Defined.

Lemma handle_lost_keeps_tree_witness :
  ack_wf ex_s
  /\ (forall r, quicrq_datagram_ack_find (datagram_ack_tree ex_s) (0, 0, 0) = Some r ->
                0 <= 50 <= length r)
  /\ exists ret s',
       quicrq_datagram_handle_lost 1536 30 ex_hlen ex_qframe ex_s 0 0 0 0 ex_data 50 700
       = Ok (ret, s')
       /\ ack_wf s'.
Proof.
  assert (H : forall r, quicrq_datagram_ack_find (datagram_ack_tree ex_s) (0, 0, 0) = Some r ->
                        0 <= 50 <= length r).
  { intros r Hr. assert (E : r = ex_r) by (simpl in Hr; congruence).
    rewrite E. simpl. lia. }
  split; [exact ex_s_wf|]. split; [exact H|].
  exact (handle_lost_keeps_tree 1536 30 ex_hlen ex_qframe ex_s 0 0 0 0 ex_data 50 700
           ex_s_wf H).
Defined.

Lemma handle_repeat_splits_witness :
  transport_ok 1536 30 ex_hlen ex_qframe
  /\ ack_wf ex_s /\ cnx_present ex_s = true
  /\ quicrq_datagram_ack_find (datagram_ack_tree ex_s) (0, 0, 0) = Some ex_r
  /\ 50 = length ex_r /\ 50 <= Z.of_nat (List.length ex_data)
  /\ exists s' l,
       quicrq_datagram_handle_repeat 1536 30 ex_hlen ex_qframe ex_s (0, 0, 0) ex_data 50
         false 700 = Ok (0, s')
       /\ ack_wf s'
       /\ datagram_queue s' = datagram_queue ex_s ++ l
       /\ concat (map dg_payload l) = firstn (Z.to_nat 50) ex_data
       /\ chained (object_offset ex_r) l
       /\ Forall (fragment_of 30 ex_hlen 700 s' ex_r) l
       /\ (0 < 50 -> l <> [])
       /\ (30 < repeat_header_length ex_hlen ex_s ex_r 700 + 50 -> (2 <= List.length l)%nat).
Proof.
  assert (H1 : quicrq_datagram_ack_find (datagram_ack_tree ex_s) (0, 0, 0) = Some ex_r)
    by reflexivity.
  assert (H2 : 50 <= Z.of_nat (List.length ex_data)) by (simpl; lia).
  split; [exact ex_transport_ok|]. split; [exact ex_s_wf|]. split; [reflexivity|].
  split; [exact H1|]. split; [reflexivity|]. split; [exact H2|].
  exact (handle_repeat_splits 1536 30 ex_hlen ex_qframe ex_transport_ok ex_s (0, 0, 0)
           ex_data 50 false 700 ex_r ex_s_wf eq_refl H1 eq_refl H2).
Defined.

(** ** Acknowledgements below and at the horizon *)

Lemma i64_in_range (z : Z) : in_range z -> i64 z = z.
Proof.
  intros H. replace z with (z - 0) by lia. apply i64_small; [exact H|].
  unfold in_range. lia.
Qed.

(** X6. An acknowledgement of bytes that all lie below the horizon (an
    object before the one of the horizon, or bytes that end before its
    offset) is counted in [nb_horizon_acks] and changes nothing else:
    no record is marked, the horizon is not checked. *)
Theorem handle_ack_below_horizon (s : stream) (g o off len : Z) :
  in_range g -> in_range o -> in_range off -> in_range len -> in_range (off + len) ->
  in_range (horizon_group_id s) -> in_range (horizon_object_id s) ->
  in_range (horizon_offset s) ->
  lex_lt (g, o, off + len) (horizon s) ->
  quicrq_datagram_handle_ack s g o off len
  = Ok (set_counters s (u64 (nb_horizon_acks s + 1)) (nb_horizon_events s)
          (nb_fragment_lost s)).
Proof.
  intros Hg Ho Hoff Hlen Hend Hhg Hho Hhf Hlt.
  unfold quicrq_datagram_handle_ack, ack_versus_horizon. cbv zeta.
  rewrite !i64_small by assumption.
  assert (Hu : u64 (off + len) = off + len)
    by (unfold in_range, u64 in *; Z.div_mod_to_equations; lia).
  rewrite Hu. unfold lex_lt, horizon in Hlt. cbn [fst snd] in Hlt.
  unfold in_range in *.
  destruct (Z.eqb_spec (g - horizon_group_id s) 0) as [Eg|Ng];
    destruct (Z.eqb_spec (o - horizon_object_id s) 0) as [Eo|No]; cbn [andb].
  - destruct (Z.ltb_spec (off + len) (horizon_offset s)); [reflexivity | lia].
  - destruct (Z.ltb_spec (g - horizon_group_id s) 0); cbn [orb]; [reflexivity|].
    destruct (Z.ltb_spec (o - horizon_object_id s) 0); [reflexivity | lia].
  - destruct (Z.ltb_spec (g - horizon_group_id s) 0); [reflexivity | lia].
  - destruct (Z.ltb_spec (g - horizon_group_id s) 0); [reflexivity | lia].
Qed.

Lemma handle_ack_below_horizon_witness :
  in_range 0 /\ in_range 40 /\ in_range 20 /\ in_range (40 + 20)
  /\ in_range (horizon_group_id walk_s1) /\ in_range (horizon_object_id walk_s1)
  /\ in_range (horizon_offset walk_s1)
  /\ lex_lt (0, 0, 40 + 20) (horizon walk_s1)
  /\ quicrq_datagram_handle_ack walk_s1 0 0 40 20
     = Ok (set_counters walk_s1 (u64 (nb_horizon_acks walk_s1 + 1))
             (nb_horizon_events walk_s1) (nb_fragment_lost walk_s1)).
Proof.
  assert (R : forall z, 0 <= z < 2 ^ 62 -> in_range z) by (intros z H; exact H).
  assert (H0 : in_range 0) by (apply R; lia).
  assert (H40 : in_range 40) by (apply R; lia).
  assert (H20 : in_range 20) by (apply R; lia).
  assert (H60 : in_range (40 + 20)) by (apply R; lia).
  assert (H100 : in_range (horizon_offset walk_s1)) by (apply R; simpl; lia).
  assert (Hlt : lex_lt (0, 0, 40 + 20) (horizon walk_s1)) by (unfold lex_lt; simpl; lia).
  repeat (split; [assumption|]).
  exact (handle_ack_below_horizon walk_s1 0 0 40 20 H0 H0 H40 H20 H60 H0 H0 H100 Hlt).
Defined.

Lemma sorted_least_first (l : list (akey * Z)) (x : akey * Z) :
  StronglySorted shape_before l -> In x l ->
  (forall y, In y l -> lex_le (fst x) (fst y)) ->
  exists l', l = x :: l'.
Proof.
  intros Hs Hin Hle. destruct l as [|a l]; [destruct Hin|].
  destruct Hin as [->|Hin]; [exists l; reflexivity|]. exfalso.
  apply StronglySorted_inv in Hs. destruct Hs as [_ Hall].
  rewrite Forall_forall in Hall. destruct (Hall x Hin) as [Hlt _].
  destruct (Hle a (or_introl eq_refl)) as [H|H].
  - exact (lex_lt_irrefl _ (lex_lt_trans _ _ _ Hlt H)).
  - rewrite H in Hlt. exact (lex_lt_irrefl _ Hlt).
Qed.

Lemma lex_lt_le_trans (a b c : akey) : lex_lt a b -> lex_le b c -> lex_lt a c.
Proof.
  intros H [H'|<-]; [exact (lex_lt_trans _ _ _ H H') | exact H].
Qed.

(** X7. An acknowledgement for the fragment recorded at the horizon, of
    at most the fragment's length, always moves the horizon to the end
    of the fragment or further, and the record of the fragment leaves
    the tree, which stays well formed. *)
Theorem handle_ack_at_horizon (s : stream) (r : das) (len : Z) :
  ack_wf s -> ~ horizon_uninitialized s ->
  quicrq_datagram_ack_find (datagram_ack_tree s) (horizon s) = Some r ->
  0 < len <= length r ->
  exists s',
    quicrq_datagram_handle_ack s (group_id r) (object_id r) (object_offset r) len = Ok s'
    /\ ack_wf s'
    /\ lex_le (group_id r, object_id r, object_offset r + length r) (horizon s')
    /\ quicrq_datagram_ack_find (datagram_ack_tree s') (key r) = None.
Proof.
  intros Hwf Hinit Hfind Hlen.
  destruct (find_in_shapes _ _ _ Hfind) as [Hin Hkey].
  pose proof Hwf as (W1 & W2 & W3).
  assert (Hrok : shape_ok (shape r)) by (rewrite Forall_forall in W2; apply W2, Hin).
  pose proof Hrok as Hrok'. rewrite shape_record in Hrok'.
  destruct Hrok' as (Rg & Ro & Roff & Rlen & Rend). cbn [fst snd] in Rg, Ro, Roff, Rlen, Rend.
  pose proof W3 as W3'. apply horizon_ok_shapes in W3'.
  destruct W3' as [Hun | (Hhg & Hho & Hhf & Hall)]; [contradiction|].
  assert (Hhead : exists rest, datagram_ack_tree s = r :: rest).
  { destruct (sorted_least_first _ (shape r) W1 Hin) as [l' Hl'].
    - intros y Hy. change (fst (shape r)) with (key r). rewrite Hkey. apply Hall, Hy.
    - destruct (datagram_ack_tree s) as [|a rest]; [discriminate|].
      assert (Ha : shape a = shape r) by (cbn [map] in Hl'; congruence).
      exists rest.
      cbn [quicrq_datagram_ack_find] in Hfind.
      assert (Ea : akey_eqb (key a) (horizon s) = true).
      { apply akey_eqb_eq. rewrite <- Hkey.
        change (fst (shape a) = fst (shape r)). rewrite Ha. reflexivity. }
      rewrite Ea in Hfind. congruence. }
  destruct Hhead as [rest Ht].
  unfold key in Hkey. unfold horizon in Hkey. injection Hkey as Kg Ko Koff.
  assert (Hlr : in_range len) by (unfold in_range; lia).
  assert (Hor : in_range (object_offset r)) by (unfold in_range; lia).
  unfold quicrq_datagram_handle_ack, ack_versus_horizon. cbv zeta.
  rewrite <- Kg, <- Ko, <- Koff, !Z.sub_diag. change (i64 0) with 0. cbn [Z.eqb andb].
  rewrite (i64_in_range len Hlr).
  assert (Hu : u64 (object_offset r + len) = object_offset r + len)
    by (unfold u64; Z.div_mod_to_equations; lia).
  rewrite Hu.
  destruct (Z.ltb_spec (object_offset r + len) (object_offset r)); [lia|].
  rewrite Z.ltb_irrefl, Z.eqb_refl.
  unfold ack_mark. rewrite Ht. cbn [mark_from].
  change (key r) with (group_id r, object_id r, object_offset r).
  rewrite akey_eqb_refl. cbn [mark_acked fst snd].
  destruct (Z.gtb_spec len 0); [|lia].
  assert (Hrem : (i64 (len - length r) >? 0) = false).
  { assert (E : i64 (len - length r) = len - length r)
      by (apply i64_small; [exact Hlr | unfold in_range; lia]).
    rewrite E. destruct (Z.gtb_spec (len - length r) 0); [lia | reflexivity]. }
  rewrite Hrem. cbn [ebind].
  set (r' := set_is_acked r true).
  set (s1 := set_tree s (r' :: rest)).
  assert (Hw1 : ack_wf s1).
  { apply (ack_wf_same s s1 eq_refl); [|exact Hwf].
    change (datagram_ack_tree s1) with (r' :: rest). rewrite Ht. reflexivity. }
  change (datagram_ack_tree s1) with (r' :: rest). cbn [progress_horizon].
  change (is_acked r') with true. cbn [negb].
  assert (J : just_after s1 r' = true).
  { unfold just_after. change (group_id r') with (group_id r).
    change (object_id r') with (object_id r). change (object_offset r') with (object_offset r).
    change (horizon_group_id s1) with (horizon_group_id s).
    change (horizon_object_id s1) with (horizon_object_id s).
    change (horizon_offset s1) with (horizon_offset s).
    rewrite <- Kg, <- Ko, <- Koff, !Z.eqb_refl. reflexivity. }
  rewrite J. cbn [negb].
  destruct (collapse_wf s1 r' rest Hw1 eq_refl) as (Hw2 & Ht2 & Hh2).
  change (group_id r') with (group_id r) in Hh2. change (object_id r') with (object_id r) in Hh2.
  change (object_offset r') with (object_offset r) in Hh2.
  change (length r') with (length r) in Hh2.
  destruct (progress_horizon_wf rest (collapse s1 r') Ht2 Hw2) as [P1 P2].
  assert (Hi2 : ~ horizon_uninitialized (collapse s1 r')).
  { unfold horizon_uninitialized.
    assert (Eg : horizon_group_id (collapse s1 r') = group_id r)
      by (unfold horizon in Hh2; injection Hh2; auto).
    rewrite Eg. unfold UINT64_MAX, in_range in *. lia. }
  destruct (P2 Hi2) as [P3 P4]. rewrite Hh2 in P3.
  eexists. split; [reflexivity|]. split; [exact P1|]. split; [exact P3|].
  apply find_none. intros Hk.
  destruct P1 as (_ & _ & Q3). destruct Q3 as [Q3 | (_ & _ & _ & Q3)]; [contradiction|].
  rewrite Forall_forall in Q3. specialize (Q3 _ Hk).
  assert (Hlt : lex_lt (key r) (group_id r, object_id r, object_offset r + length r)).
  { unfold lex_lt, key. cbn [fst snd]. lia. }
  pose proof (lex_lt_le_trans _ _ _ Hlt P3) as H1.
  pose proof (lex_lt_le_trans _ _ _ H1 Q3) as H2.
  exact (lex_lt_irrefl _ H2).
Qed.

Lemma handle_ack_at_horizon_witness :
  ack_wf walk_s3 /\ ~ horizon_uninitialized walk_s3
  /\ quicrq_datagram_ack_find (datagram_ack_tree walk_s3) (horizon walk_s3) = Some walk_r3
  /\ 0 < 30 <= length walk_r3
  /\ exists s',
       quicrq_datagram_handle_ack walk_s3 (group_id walk_r3) (object_id walk_r3)
         (object_offset walk_r3) 30 = Ok s'
       /\ ack_wf s'
       /\ lex_le (group_id walk_r3, object_id walk_r3, object_offset walk_r3 + length walk_r3)
            (horizon s')
       /\ quicrq_datagram_ack_find (datagram_ack_tree s') (key walk_r3) = None.
Proof.
  assert (Hwf : ack_wf walk_s3).
  { split; [repeat constructor|]. split.
    - constructor; [|constructor]. unfold shape_ok, in_range. simpl. lia.
    - right. unfold in_range. simpl. repeat split; try lia.
      constructor; [|constructor]. right. reflexivity. }
  assert (Hi : ~ horizon_uninitialized walk_s3) by (unfold horizon_uninitialized; simpl; discriminate).
  assert (Hf : quicrq_datagram_ack_find (datagram_ack_tree walk_s3) (horizon walk_s3)
               = Some walk_r3) by reflexivity.
  assert (Hl : 0 < 30 <= length walk_r3) by (simpl; lia).
  split; [exact Hwf|]. split; [exact Hi|]. split; [exact Hf|]. split; [exact Hl|].
  exact (handle_ack_at_horizon walk_s3 walk_r3 30 Hwf Hi Hf Hl).
Defined.

End AckFacts.

(** * Properties of the choice of the next message *)
Module SendFacts.
Import Send.

(** C7. A sender stream in the ready state chooses what to send by the
    first of these that applies: a start point other than (0, 0) not yet
    sent gives a START_POINT message and the state start_point; else a
    final point that is set and not yet sent gives a FIN_DATAGRAM message
    and the state final_point; else a real-time cache policy not yet sent
    gives a CACHE_POLICY message and the state cache_policy; else
    single-stream transport with fragment data ready gives the state
    single_stream; else the stream is marked inactive. A message is
    prepared when its buffer can be allocated and filled. *)
Theorem ready_priority (msg_prepared : quicrq_message_t -> bool)
    (fragment_ready : Z -> Z -> bool) (s : quicrq_stream_ctx_t) (space now : Z) :
  ready_sender s ->
  let out := prepare_to_send_ready msg_prepared fragment_ready s space now in
  let start_msg := QUICRQ_ACTION_START_POINT (start_group_id s) (start_object_id s) in
  let fin_msg := QUICRQ_ACTION_FIN_DATAGRAM (final_group_id s) (final_object_id s) in
  let data_ready :=
    transport_mode s = quicrq_transport_mode_single_stream
    /\ fragment_ready space now = true in
  (start_pending s -> msg_prepared start_msg = true ->
   fst out = 0 /\ send_state (snd out) = quicrq_sending_start_point
   /\ message_sent (snd out) = Some start_msg)
  /\ (~ start_pending s -> final_pending s -> msg_prepared fin_msg = true ->
      fst out = 0 /\ send_state (snd out) = quicrq_sending_final_point
      /\ message_sent (snd out) = Some fin_msg)
  /\ (~ start_pending s -> ~ final_pending s -> cache_policy_pending s ->
      msg_prepared (QUICRQ_ACTION_CACHE_POLICY 1) = true ->
      fst out = 0 /\ send_state (snd out) = quicrq_sending_cache_policy
      /\ message_sent (snd out) = Some (QUICRQ_ACTION_CACHE_POLICY 1))
  /\ (~ start_pending s -> ~ final_pending s -> ~ cache_policy_pending s ->
      data_ready ->
      fst out = 0 /\ send_state (snd out) = quicrq_sending_single_stream
      /\ message_sent (snd out) = message_sent s)
  /\ (~ start_pending s -> ~ final_pending s -> ~ cache_policy_pending s ->
      ~ data_ready ->
      fst out = 0 /\ send_state (snd out) = quicrq_sending_ready
      /\ is_active (snd out) = false /\ message_sent (snd out) = message_sent s).
Proof.
  intros (Hst & Hsender & Hsg & Hso & Hfg & Hfo). cbv zeta.
  unfold prepare_to_send_ready, quicrq_prepare_start_point, prepare_message.
  rewrite Hsender.
  assert (Hstart : ((start_group_id s >? 0) || (start_object_id s >? 0))
                   && negb (is_start_object_id_sent s) = true <-> start_pending s).
  { unfold start_pending. rewrite andb_true_iff, orb_true_iff, negb_true_iff.
    rewrite !Z.gtb_ltb, !Z.ltb_lt. split.
    - intros [H ->]. split; [|reflexivity]. intros E. inversion E. lia.
    - intros [H ->]. split; [|reflexivity].
      destruct (Z.eq_dec (start_group_id s) 0) as [E1|E1];
        [destruct (Z.eq_dec (start_object_id s) 0) as [E2|E2]|]; [|lia|lia].
      exfalso. apply H. congruence. }
  assert (Hfinal : ((final_group_id s >? 0) || (final_object_id s >? 0))
                   && negb (is_final_object_id_sent s) = true <-> final_pending s).
  { unfold final_pending. rewrite andb_true_iff, orb_true_iff, negb_true_iff.
    rewrite !Z.gtb_ltb, !Z.ltb_lt. split.
    - intros [H ->]. split; [|reflexivity]. intros E. inversion E. lia.
    - intros [H ->]. split; [|reflexivity].
      destruct (Z.eq_dec (final_group_id s) 0) as [E1|E1];
        [destruct (Z.eq_dec (final_object_id s) 0) as [E2|E2]|]; [|lia|lia].
      exfalso. apply H. congruence. }
  assert (Hcache : is_cache_real_time s && negb (is_cache_policy_sent s) = true
                   <-> cache_policy_pending s).
  { unfold cache_policy_pending. rewrite andb_true_iff, negb_true_iff. tauto. }
  assert (Hdata : is_single_stream (transport_mode s) && fragment_ready space now = true
                  <-> transport_mode s = quicrq_transport_mode_single_stream
                      /\ fragment_ready space now = true).
  { rewrite andb_true_iff. destruct (transport_mode s); simpl; intuition congruence. }
  destruct (((start_group_id s >? 0) || (start_object_id s >? 0))
            && negb (is_start_object_id_sent s)) eqn:E1.
  { assert (H1 : start_pending s) by (apply Hstart; reflexivity).
    split; [intros _ ->; simpl; auto|]. repeat split; intros; contradiction. }
  assert (N1 : ~ start_pending s) by (intros H; apply Hstart in H; discriminate).
  split; [intros H; contradiction|].
  destruct (((final_group_id s >? 0) || (final_object_id s >? 0))
            && negb (is_final_object_id_sent s)) eqn:E2.
  { assert (H2 : final_pending s) by (apply Hfinal; reflexivity).
    split; [intros _ _ ->; simpl; auto|]. repeat split; intros; contradiction. }
  assert (N2 : ~ final_pending s) by (intros H; apply Hfinal in H; discriminate).
  split; [intros _ H; contradiction|].
  destruct (is_cache_real_time s && negb (is_cache_policy_sent s)) eqn:E3.
  { assert (H3 : cache_policy_pending s) by (apply Hcache; reflexivity).
    split; [intros _ _ _ ->; simpl; auto|]. repeat split; intros; contradiction. }
  assert (N3 : ~ cache_policy_pending s) by (intros H; apply Hcache in H; discriminate).
  split; [intros _ _ H; contradiction|].
  destruct (is_single_stream (transport_mode s) && fragment_ready space now) eqn:E4.
  { assert (H4 := proj1 Hdata eq_refl).
    split; [intros _ _ _ _; simpl; auto|]. intros _ _ _ H. contradiction. }
  assert (N4 : ~ (transport_mode s = quicrq_transport_mode_single_stream
                  /\ fragment_ready space now = true))
    by (intros H; apply Hdata in H; discriminate).
  split; [intros _ _ _ H; contradiction|].
  intros _ _ _ _. simpl. auto.
Qed.

Lemma ready_priority_witness :
  let s := mk_stream quicrq_sending_ready true 1 0 false 2 0 false true false
             quicrq_transport_mode_datagram None true in
  ready_sender s
  /\ send_state (snd (prepare_to_send_ready (fun _ => true) (fun _ _ => false) s 1000 0))
     = quicrq_sending_start_point.
Proof.
  cbv zeta.
  assert (H : ready_sender (mk_stream quicrq_sending_ready true 1 0 false 2 0 false true
                              false quicrq_transport_mode_datagram None true)).
  { unfold ready_sender. simpl. repeat split; lia. }
  split; [exact H|].
  destruct (ready_priority (fun _ => true) (fun _ _ => false) _ 1000 0 H) as [H1 _].
  apply H1; [|reflexivity].
  unfold start_pending. simpl. split; [discriminate | reflexivity].
Defined.

End SendFacts.

(** * Properties of the receive check of object headers *)
Module UniFacts.
Import Uni.

(** C8, as amended. An OBJECT_HEADER is refused with a protocol error, and
    nothing changes, when the substream is not waiting for a header, when
    it has no control stream, or when the ordering rule of the transport
    mode fails: in rush mode the object id kept by the substream, which is
    0 on a new substream and moves on after each object, must be 0,
    whatever object id the header carries; in warp mode the object id of
    the header must equal the object id kept by the substream. Otherwise a
    header with a length above 0 opens the data of the object, and an
    empty object is handed to the consumer and the kept object id moves to
    the next. *)
Theorem object_header_check (consumer_fn : Z -> Z -> Z -> Z -> Z) (finished : Z)
    (handle_finished : Z -> Z) (u : quicrq_uni_stream_ctx_t) (incoming : quicrq_message_t) :
  let out := receive_object_header consumer_fn finished handle_finished u incoming in
  (header_expected (receive_state u) = false -> out = (-1, u))
  /\ (control_stream_ctx u = None -> out = (-1, u))
  /\ forall mode,
      header_expected (receive_state u) = true ->
      control_stream_ctx u = Some mode ->
      (~ header_rule mode u incoming -> out = (-1, u))
      /\ (header_rule mode u incoming ->
          (0 < object_length incoming ->
           fst out = 0
           /\ receive_state (snd out) = quicrq_receive_object_data
           /\ current_object_id (snd out) = object_id incoming
           /\ current_object_length (snd out) = object_length incoming
           /\ current_object_offset (snd out) = 0)
          /\ (object_length incoming <= 0 ->
              receive_state (snd out) = quicrq_receive_object_header
              /\ current_object_id (snd out) = u64 (current_object_id u + 1))).
Proof.
  cbv zeta. unfold receive_object_header. split; [intros ->; reflexivity|].
  split.
  { intros ->. destruct (header_expected (receive_state u)); reflexivity. }
  intros mode -> ->. cbn [negb].
  assert (Hrule : (is_rush mode && negb (current_object_id u =? 0))
                  || (is_warp mode && negb (current_object_id u =? object_id incoming))
                  = false <-> header_rule mode u incoming).
  { unfold header_rule. rewrite orb_false_iff, !andb_false_iff, !negb_false_iff, !Z.eqb_eq.
    destruct mode; simpl; intuition congruence. }
  destruct ((is_rush mode && negb (current_object_id u =? 0))
            || (is_warp mode && negb (current_object_id u =? object_id incoming))) eqn:E.
  { split; [reflexivity|]. intros H. apply Hrule in H. discriminate. }
  split; [intros H; exfalso; apply H, Hrule; reflexivity|].
  intros _. split.
  - intros Hlen. destruct (Z.gtb_spec (object_length incoming) 0); [|lia].
    simpl. auto.
  - intros Hlen. destruct (Z.gtb_spec (object_length incoming) 0); [lia|].
    simpl. auto.
Qed.

Lemma object_header_check_witness :
  let u := after_warp_header quicrq_transport_mode_rush 3 in
  let incoming := mk_object_header 7 0 0 10 in
  header_expected (receive_state u) = true
  /\ current_object_id (snd (receive_object_header (fun _ _ _ _ => 0) 1 (fun r => r)
                               u incoming)) = 7.
Proof.
  cbv zeta. split; [reflexivity|].
  destruct (object_header_check (fun _ _ _ _ => 0) 1 (fun r => r)
              (after_warp_header quicrq_transport_mode_rush 3)
              (mk_object_header 7 0 0 10)) as (_ & _ & H).
  destruct (H quicrq_transport_mode_rush eq_refl eq_refl) as [_ H1].
  assert (Hr : header_rule quicrq_transport_mode_rush
                 (after_warp_header quicrq_transport_mode_rush 3)
                 (mk_object_header 7 0 0 10)).
  { split; [reflexivity | discriminate]. }
  destruct (H1 Hr) as [H2 _].
  assert (Hlen : 0 < object_length (mk_object_header 7 0 0 10)) by (simpl; lia).
  exact (proj1 (proj2 (proj2 (H2 Hlen)))).
Defined.

(** C8, as stated, fails in rush mode, both ways: a new rush substream
    accepts a first header with object id 7, and a rush substream that has
    received an empty object refuses a header with object id 0. *)
Lemma rush_header_counterexample :
  let u := after_warp_header quicrq_transport_mode_rush 3 in
  let first := mk_object_header 7 0 0 10 in
  let empty := mk_object_header 0 0 0 0 in
  let u1 := snd (receive_object_header (fun _ _ _ _ => 0) 1 (fun r => r) u empty) in
  ~ spec_header_rule u first
  /\ fst (receive_object_header (fun _ _ _ _ => 0) 1 (fun r => r) u first) = 0
  /\ fst (receive_object_header (fun _ _ _ _ => 0) 1 (fun r => r) u empty) = 0
  /\ spec_header_rule u1 empty
  /\ fst (receive_object_header (fun _ _ _ _ => 0) 1 (fun r => r) u1 empty) = -1.
Proof.
  cbv zeta. split; [intros H; vm_compute in H; discriminate|].
  repeat split; vm_compute; reflexivity.
Qed.

End UniFacts.

(** * Properties of the dispatch of notifications *)
Module NotifyFacts.
Import Notify.

Lemma memcmp_prefix_spec (p u : list Z) :
  memcmp_prefix p u = true <-> prefix_of p u.
Proof.
  unfold prefix_of. revert u. induction p as [|x p IH]; intros u; simpl.
  - split; [exists u; reflexivity | reflexivity].
  - destruct u as [|y u].
    + split; [discriminate | intros [rest H]; discriminate].
    + rewrite andb_true_iff, Z.eqb_eq, IH. split.
      * intros [-> [rest ->]]. exists rest. reflexivity.
      * intros [rest H]. inversion H; subst. split; [reflexivity | exists rest; reflexivity].
Qed.

Lemma prefix_of_length (p u : list Z) :
  prefix_of p u -> (List.length p <= List.length u)%nat.
Proof. intros [rest ->]. rewrite length_app. lia. Qed.

(** The test of [quicrq_notify_url_to_stream]. *)
Lemma notify_url_to_stream_spec (s : quicrq_stream_ctx_t) (url : list Z) :
  (prefix_of (subscribe_prefix s) url ->
   quicrq_notify_url_to_stream s url = (1, enqueue_notify s url))
  /\ (~ prefix_of (subscribe_prefix s) url ->
      quicrq_notify_url_to_stream s url = (0, s)).
Proof.
  unfold quicrq_notify_url_to_stream. split; intros H.
  - pose proof (prefix_of_length _ _ H) as Hl.
    apply memcmp_prefix_spec in H. rewrite H.
    destruct (Z.leb_spec (Z.of_nat (List.length (subscribe_prefix s)))
                (Z.of_nat (List.length url))); [reflexivity | lia].
  - destruct (memcmp_prefix (subscribe_prefix s) url) eqn:E.
    + apply memcmp_prefix_spec in E. contradiction.
    + rewrite andb_false_r. reflexivity.
Qed.

Lemma is_notify_ready_spec (s : quicrq_stream_ctx_t) :
  is_notify_ready (send_state s) = true <-> send_state s = quicrq_notify_ready.
Proof. destruct (send_state s); simpl; split; congruence. Qed.

Lemma prefix_of_dec (p u : list Z) : prefix_of p u \/ ~ prefix_of p u.
Proof.
  destruct (memcmp_prefix p u) eqn:E.
  - left. apply memcmp_prefix_spec, E.
  - right. intros H. apply memcmp_prefix_spec in H. congruence.
Qed.

(** The inner loop notifies the first subscribed stream and ends with 0,
    whatever the value on entry was when it is 0 or 1. *)
Lemma notify_url_to_streams_spec (url : list Z) (c : list quicrq_stream_ctx_t) :
  forall ret, ret = 0 ->
    exists c', notify_url_to_streams ret c url = (0, c') /\ cnx_notified url c c'.
Proof.
  induction c as [|s c IH]; intros ret ->.
  - exists []. split; [reflexivity | apply notified_none; constructor].
  - simpl.
    destruct (is_notify_ready (send_state s)) eqn:Er.
    + apply is_notify_ready_spec in Er.
      destruct (prefix_of_dec (subscribe_prefix s) url) as [Hp|Hp].
      * rewrite (proj1 (notify_url_to_stream_spec s url) Hp). simpl.
        exists (enqueue_notify s url :: c). split; [reflexivity|].
        apply (notified_first url [] s c); [constructor | split; assumption].
      * rewrite (proj2 (notify_url_to_stream_spec s url) Hp). simpl.
        destruct (IH 0 eq_refl) as (c' & Hrun & Hn). rewrite Hrun.
        exists (s :: c'). split; [reflexivity|].
        assert (Hs : ~ subscribed_to s url) by (intros [_ H]; contradiction).
        inversion Hn; subst.
        -- apply notified_none. constructor; assumption.
        -- apply (notified_first url (s :: before) s0 after);
             [constructor; assumption | assumption].
    + destruct (IH 0 eq_refl) as (c' & Hrun & Hn). rewrite Hrun.
      exists (s :: c'). split; [reflexivity|].
      assert (Hs : ~ subscribed_to s url).
      { intros [H _]. apply is_notify_ready_spec in H. congruence. }
      inversion Hn; subst.
      * apply notified_none. constructor; assumption.
      * apply (notified_first url (s :: before) s0 after);
          [constructor; assumption | assumption].
Qed.

Lemma notify_url_to_cnx_spec (url : list Z) (qr : list (list quicrq_stream_ctx_t)) :
  exists qr', notify_url_to_cnx 0 qr url = (0, qr') /\ Forall2 (cnx_notified url) qr qr'.
Proof.
  induction qr as [|c qr IH].
  - exists []. split; [reflexivity | constructor].
  - simpl. destruct (notify_url_to_streams_spec url c 0 eq_refl) as (c' & Hc & Hn).
    rewrite Hc. destruct IH as (qr' & Hq & Hall). rewrite Hq.
    exists (c' :: qr'). split; [reflexivity | constructor; assumption].
Qed.

Lemma notify_sources_spec (sources : list (list Z)) :
  forall s,
    fst (notify_sources s sources) = 0
    /\ first_notify_url (snd (notify_sources s sources))
       = rev (filter (memcmp_prefix (subscribe_prefix s)) sources) ++ first_notify_url s
    /\ subscribe_prefix (snd (notify_sources s sources)) = subscribe_prefix s
    /\ send_state (snd (notify_sources s sources)) = send_state s.
Proof.
  induction sources as [|u sources IH]; intros s; simpl; [auto|].
  destruct (prefix_of_dec (subscribe_prefix s) u) as [Hp|Hp].
  - rewrite (proj1 (notify_url_to_stream_spec s u) Hp). simpl.
    destruct (IH (enqueue_notify s u)) as (I1 & I2 & I3 & I4).
    apply memcmp_prefix_spec in Hp. rewrite Hp. simpl.
    split; [exact I1|]. split; [|split; [exact I3 | exact I4]].
    rewrite I2. simpl. rewrite <- app_assoc. reflexivity.
  - rewrite (proj2 (notify_url_to_stream_spec s u) Hp). simpl.
    destruct (IH s) as (I1 & I2 & I3 & I4).
    destruct (memcmp_prefix (subscribe_prefix s) u) eqn:E;
      [apply memcmp_prefix_spec in E; contradiction|].
    auto.
Qed.

(** C9, as amended. When a URL is notified to all, in each connection the
    first stream, in the order of the list of streams, that is in the
    state notify_ready and whose subscribe prefix is a prefix of the URL
    gets one NOTIFY for the URL queued, and no other stream of that
    connection changes: the scan of a connection stops at the first
    NOTIFY. So a connection with a single subscription gets exactly one
    NOTIFY for a matching URL and none for another. An incoming SUBSCRIBE
    puts the stream in the state notify_ready and queues one NOTIFY for
    each registered source that its prefix matches. *)
Theorem notify_url_first_subscriber (qr : list (list quicrq_stream_ctx_t))
    (url : list Z) :
  (exists qr', quicrq_notify_url_to_all qr url = (0, qr')
               /\ Forall2 (cnx_notified url) qr qr')
  /\ (forall s,
        (subscribed_to s url ->
         quicrq_notify_url_to_all [[s]] url = (0, [[enqueue_notify s url]]))
        /\ (~ subscribed_to s url -> quicrq_notify_url_to_all [[s]] url = (0, [[s]])))
  /\ (forall s prefix sources,
        let out := quicrq_process_incoming_subscribe s prefix sources in
        fst out = 0 /\ send_state (snd out) = quicrq_notify_ready
        /\ subscribe_prefix (snd out) = prefix
        /\ first_notify_url (snd out)
           = rev (filter (memcmp_prefix prefix) sources) ++ first_notify_url s).
Proof.
  split; [apply notify_url_to_cnx_spec|]. split.
  - intros s. unfold quicrq_notify_url_to_all. simpl. split.
    + intros [Hr Hp]. apply is_notify_ready_spec in Hr. rewrite Hr.
      rewrite (proj1 (notify_url_to_stream_spec s url) Hp). reflexivity.
    + intros Hn. destruct (is_notify_ready (send_state s)) eqn:Er; [|reflexivity].
      apply is_notify_ready_spec in Er.
      assert (Hp : ~ prefix_of (subscribe_prefix s) url) by (intros H; apply Hn; split; assumption).
      rewrite (proj2 (notify_url_to_stream_spec s url) Hp). reflexivity.
  - intros s prefix sources. cbv zeta. unfold quicrq_process_incoming_subscribe.
    destruct (notify_sources_spec sources
                (mk_stream (stream_id s) quicrq_notify_ready quicrq_receive_done prefix
                   (first_notify_url s) (is_woken s))) as (I1 & I2 & I3 & I4).
    split; [exact I1|]. split; [exact I4|]. split; [exact I3 | exact I2].
Qed.

Lemma notify_url_first_subscriber_witness :
  let s := mk_stream 0 quicrq_notify_ready quicrq_receive_done [118] [] false in
  subscribed_to s [118; 105]
  /\ quicrq_notify_url_to_all [[s]] [118; 105] = (0, [[enqueue_notify s [118; 105]]]).
Proof.
  cbv zeta.
  assert (H : subscribed_to (mk_stream 0 quicrq_notify_ready quicrq_receive_done [118] [] false)
                [118; 105]).
  { split; [reflexivity | exists [105]; reflexivity]. }
  split; [exact H|].
  destruct (notify_url_first_subscriber [] [118; 105]) as (_ & Hone & _).
  exact (proj1 (Hone _) H).
Defined.

(** C9, as stated, fails: of two streams of one connection that are in
    the state notify_ready with the prefix "v", only the first gets the
    NOTIFY for "vi". *)
Lemma second_subscriber_counterexample :
  Forall (fun s => subscribed_to s [118; 105]) two_subscribers
  /\ map first_notify_url
       (concat (snd (quicrq_notify_url_to_all [two_subscribers] [118; 105])))
     = [[[118; 105]]; []].
Proof.
  split; [|reflexivity].
  repeat constructor; exists [105]; reflexivity.
Qed.

End NotifyFacts.

(** * Message buffers *)
Module MsgBufferFacts.
Import MsgBuffer MsgBufferExamples.

#[local] Abbreviation len l := (Z.of_nat (List.length l)).

Lemma memcpy_length (dst src : list Z) (off n : Z) :
  0 <= off -> 0 <= n -> off + n <= len dst -> n <= len src ->
  len (memcpy dst off src n) = len dst.
Proof.
  intros H1 H2 H3 H4. unfold memcpy.
  rewrite !length_app, !length_firstn, length_skipn. lia.
Qed.

Lemma memcpy_firstn (dst src : list Z) (off n : Z) :
  0 <= off -> 0 <= n -> off + n <= len dst -> n <= len src ->
  firstn (Z.to_nat (off + n)) (memcpy dst off src n)
  = firstn (Z.to_nat off) dst ++ firstn (Z.to_nat n) src.
Proof.
  intros H1 H2 H3 H4. unfold memcpy. rewrite app_assoc.
  rewrite firstn_app.
  replace (Z.to_nat (off + n)
           - List.length (firstn (Z.to_nat off) dst ++ firstn (Z.to_nat n) src))%nat
    with 0%nat by (rewrite length_app, !length_firstn; lia).
  rewrite firstn_O, app_nil_r. apply firstn_all2.
  rewrite length_app, !length_firstn. lia.
Qed.

Lemma size_read_app (p q : list Z) :
  (2 <= List.length p)%nat -> size_read (p ++ q) = size_read p.
Proof.
  destruct p as [|a [|b p]]; simpl; intros; lia.
Qed.

Lemma framed_length (msg : list Z) : len (framed msg) = 2 + len msg.
Proof. unfold framed. cbn [List.length]. lia. Qed.

Lemma size_read_framed (msg q : list Z) :
  size_read (framed msg ++ q) = len msg.
Proof.
  unfold framed. cbn [size_read app]. Z.div_mod_to_equations. lia.
Qed.

(** A prefix of at least two bytes of a framed message gives its size. *)
Lemma size_read_prefix (p bytes msg rest : list Z) :
  p ++ bytes = framed msg ++ rest -> (2 <= List.length p)%nat ->
  size_read p = len msg.
Proof.
  intros E Hp. rewrite <- (size_read_app p bytes Hp), E. apply size_read_framed.
Qed.

Lemma framed_bytes (msg : list Z) :
  len msg < 65536 ->
  0 <= len msg / 256 < 256 /\ 0 <= len msg mod 256 < 256.
Proof. intros H. Z.div_mod_to_equations. lia. Qed.

Lemma returns_buffer (A : Type) (a a' : A) (b b' n n' sz sz' al : Z) (bf : list Z) :
  a = a' -> b = b' -> n = n' -> sz = sz' ->
  Returns (a, b, mk_buffer n sz al bf) = Returns (a', b', mk_buffer n' sz' al bf).
Proof. intros -> -> -> ->. reflexivity. Qed.

Ltac wrap64 := unfold u64; Z.div_mod_to_equations; lia.

(** The loop that reads the size, on a buffer that has read [p]. *)
Lemma store_size_spec (p bytes : list Z) (length : Z) (mb : quicrq_message_buffer_t)
    (msg rest : list Z) :
  nb_bytes_read mb = len p -> message_size mb = size_read p ->
  p ++ bytes = framed msg ++ rest -> len msg < 65536 ->
  0 <= length <= len bytes ->
  let h := Z.min length (Z.max 0 (2 - len p)) in
  store_size 2 bytes length mb
  = Returns (skipn (Z.to_nat h) bytes, length - h,
             set_read mb (len p + h) (size_read (p ++ firstn (Z.to_nat h) bytes))).
Proof.
  intros Hnb Hsz E Hmsg Hlen. cbv zeta.
  destruct (framed_bytes msg Hmsg) as [Hhi Hlo].
  unfold framed in E. cbv zeta in E.
  set (hi := len msg / 256) in *. set (lo := len msg mod 256) in *.
  destruct mb as [nb sz al bf]. cbn [nb_bytes_read message_size] in Hnb, Hsz.
  destruct p as [|a [|b p']].
  - cbn [app] in E. subst bytes nb sz. cbn [List.length size_read app] in *.
    cbn [store_size nb_bytes_read message_size]. unfold set_read.
    cbn [nb_bytes_read message_size buffer_alloc buffer].
    change (Z.of_nat 0 <? 2) with true. cbn [andb].
    destruct (Z.gtb_spec length 0) as [H0|H0].
    + change (u64 (Z.of_nat 0 + 1) <? 2) with true. cbn [andb].
      destruct (Z.gtb_spec (length - 1) 0) as [H1|H1].
      * replace (Z.min length (Z.max 0 (2 - Z.of_nat 0))) with 2 by lia.
        change (Z.to_nat 2) with 2%nat. cbn [skipn firstn size_read].
        apply returns_buffer; [reflexivity | lia | reflexivity | wrap64].
      * replace (Z.min length (Z.max 0 (2 - Z.of_nat 0))) with 1 by lia.
        change (Z.to_nat 1) with 1%nat. cbn [skipn firstn size_read].
        apply returns_buffer; [reflexivity | lia | reflexivity | wrap64].
    + replace (Z.min length (Z.max 0 (2 - Z.of_nat 0))) with 0 by lia.
      cbn [Z.to_nat skipn firstn size_read].
      apply returns_buffer; [reflexivity | lia | reflexivity | reflexivity].
  - cbn [app] in E. injection E as Ea E. subst a nb sz.
    cbn [List.length size_read app] in *.
    cbn [store_size nb_bytes_read message_size]. unfold set_read.
    cbn [nb_bytes_read message_size buffer_alloc buffer].
    change (Z.of_nat 1 <? 2) with true. cbn [andb].
    destruct (Z.gtb_spec length 0) as [H0|H0].
    + subst bytes. change (u64 (Z.of_nat 1 + 1) <? 2) with false. cbn [andb].
      replace (Z.min length (Z.max 0 (2 - Z.of_nat 1))) with 1 by lia.
      change (Z.to_nat 1) with 1%nat. cbn [skipn firstn size_read].
      apply returns_buffer; [reflexivity | lia | reflexivity | wrap64].
    + replace (Z.min length (Z.max 0 (2 - Z.of_nat 1))) with 0 by lia.
      cbn [Z.to_nat skipn firstn size_read].
      apply returns_buffer; [reflexivity | lia | reflexivity | reflexivity].
  - subst nb sz. cbn [store_size nb_bytes_read]. unfold set_read.
    cbn [nb_bytes_read message_size buffer_alloc buffer].
    assert (H2 : (len (a :: b :: p') <? 2) = false).
    { apply Z.ltb_ge. cbn [List.length]. lia. }
    rewrite H2. cbn [andb].
    replace (Z.min length (Z.max 0 (2 - len (a :: b :: p')))) with 0
      by (cbn [List.length]; lia).
    cbn [Z.to_nat skipn firstn]. rewrite app_nil_r.
    apply returns_buffer; [reflexivity | lia | lia | reflexivity].
Qed.

Section Heap.

Variable malloc : Z -> option (list Z).

(** [malloc] gives a block of the size asked. *)
Hypothesis malloc_gives : forall n, 0 <= n -> exists x, malloc n = Some x /\ len x = n.

(** The block after [quicrq_msg_buffer_alloc]: large enough, with the
    bytes stored so far. *)
Lemma alloc_keeps (mb : quicrq_message_buffer_t) (space stored : Z) :
  len (buffer mb) = buffer_alloc mb -> 0 <= stored <= buffer_alloc mb ->
  stored <= space ->
  exists mb',
    quicrq_msg_buffer_alloc malloc mb space stored = (0, mb')
    /\ nb_bytes_read mb' = nb_bytes_read mb /\ message_size mb' = message_size mb
    /\ len (buffer mb') = buffer_alloc mb' /\ space <= buffer_alloc mb'
    /\ firstn (Z.to_nat stored) (buffer mb') = firstn (Z.to_nat stored) (buffer mb).
Proof.
  intros Hb Hs Hsp. unfold quicrq_msg_buffer_alloc.
  destruct (Z.gtb_spec stored (buffer_alloc mb)); [lia|].
  destruct (Z.gtb_spec space (buffer_alloc mb)) as [Hgt|Hle].
  - destruct (malloc_gives space ltac:(lia)) as (x & -> & Hx).
    eexists. split; [reflexivity|]. cbn [set_block nb_bytes_read message_size buffer buffer_alloc].
    split; [reflexivity|]. split; [reflexivity|].
    destruct (Z.gtb_spec stored 0) as [Hpos|Hz]; cbn [andb].
    + destruct (Z.leb_spec stored space); [|lia].
      split; [rewrite memcpy_length; lia|]. split; [lia|].
      replace stored with (0 + stored) at 1 by lia.
      rewrite memcpy_firstn by lia. reflexivity.
    + split; [exact Hx|]. split; [lia|].
      replace stored with 0 by lia. reflexivity.
  - exists mb. repeat split; auto; lia.
Qed.

Lemma app_same_length (A : Type) (a c b d : list A) :
  List.length a = List.length c -> a ++ b = c ++ d -> a = c /\ b = d.
Proof.
  revert c. induction a as [|x a IH]; intros [|y c] Hl E; simpl in *; try discriminate.
  - auto.
  - injection E as -> E. destruct (IH c ltac:(lia) E) as [-> ->]. auto.
Qed.

(** After the loop that reads the size the buffer has read the bytes it
    took. *)
Lemma has_read_size (mb : quicrq_message_buffer_t) (p q : list Z) :
  has_read mb p -> (List.length p + List.length q <= 2)%nat \/ q = [] ->
  has_read (set_read mb (len p + len q) (size_read (p ++ q))) (p ++ q).
Proof.
  intros (Hnb & Hsz & Hbl & Hbuf) Hq. unfold has_read, set_read.
  cbn [nb_bytes_read message_size buffer_alloc buffer].
  rewrite length_app. split; [lia|]. split; [reflexivity|]. split; [exact Hbl|].
  destruct Hq as [Hq| ->].
  - replace (List.length p + List.length q - 2)%nat with 0%nat by lia.
    rewrite skipn_all2 by (rewrite length_app; lia). reflexivity.
  - rewrite app_nil_r, Nat.add_0_r. exact Hbuf.
Qed.

(** One call of [quicrq_msg_buffer_store] on a buffer that has read [p]. *)
Lemma store_step (mb : quicrq_message_buffer_t) (p bytes : list Z)
    (length : Z) (msg rest : list Z) :
  has_read mb p -> len msg < 65536 ->
  p ++ bytes = framed msg ++ rest -> len p < len (framed msg) ->
  0 <= length <= len bytes ->
  let n := Z.min length (len (framed msg) - len p) in
  let fin := len p + n =? len (framed msg) in
  exists mb',
    quicrq_msg_buffer_store malloc bytes length mb
    = Returns (Some (skipn (Z.to_nat n) bytes), mb', fin)
    /\ has_read mb' (p ++ firstn (Z.to_nat n) bytes)
    /\ (fin = true ->
        message_size mb' = len msg
        /\ firstn (List.length msg) (buffer mb') = msg
        /\ skipn (Z.to_nat n) bytes = rest).
Proof.
  intros Hread Hmsg E Hp Hlen. cbv zeta.
  pose proof Hread as (Hnb & Hsz & Hbl & Hbuf).
  pose proof (framed_length msg) as Hfl.
  set (n := Z.min length (len (framed msg) - len p)).
  assert (Hdone : forall mb',
             has_read mb' (p ++ firstn (Z.to_nat n) bytes) ->
             (len p + n =? len (framed msg)) = true ->
             message_size mb' = len msg
             /\ firstn (List.length msg) (buffer mb') = msg
             /\ skipn (Z.to_nat n) bytes = rest).
  { intros mb' (_ & Hsz' & _ & Hbuf') Hfin. apply Z.eqb_eq in Hfin.
    assert (Hl : List.length (p ++ firstn (Z.to_nat n) bytes) = List.length (framed msg)).
    { rewrite length_app, length_firstn. lia. }
    assert (Ep : p ++ firstn (Z.to_nat n) bytes = framed msg
                 /\ skipn (Z.to_nat n) bytes = rest).
    { apply app_same_length; [exact Hl|].
      rewrite <- app_assoc, firstn_skipn. exact E. }
    destruct Ep as [Ep Er]. rewrite Ep in Hsz', Hbuf'.
    split; [rewrite Hsz'; rewrite <- (app_nil_r (framed msg)); apply size_read_framed|].
    split; [|exact Er].
    replace (List.length msg) with (List.length (framed msg) - 2)%nat
      by (unfold framed; cbn [List.length]; lia).
    rewrite Hbuf'. reflexivity. }
  unfold quicrq_msg_buffer_store.
  rewrite (store_size_spec p bytes length mb msg rest Hnb Hsz E Hmsg Hlen). cbv zeta.
  set (h := Z.min length (Z.max 0 (2 - len p))).
  set (p1 := p ++ firstn (Z.to_nat h) bytes).
  set (bytes1 := skipn (Z.to_nat h) bytes).
  assert (Hh : len (firstn (Z.to_nat h) bytes) = h) by (rewrite length_firstn; lia).
  assert (Hp1 : len p1 = len p + h) by (unfold p1; rewrite length_app; lia).
  assert (E1 : p1 ++ bytes1 = framed msg ++ rest).
  { unfold p1, bytes1. rewrite <- app_assoc, firstn_skipn. exact E. }
  assert (Hread1 : has_read (set_read mb (len p + h) (size_read p1)) p1).
  { rewrite <- Hh. apply has_read_size; [exact Hread|].
    destruct (Z.eq_dec h 0) as [E0|N0].
    - right. rewrite E0. reflexivity.
    - left. lia. }
  set (mb1 := set_read mb (len p + h) (size_read p1)) in *.
  change (nb_bytes_read mb1) with (len p + h).
  change (message_size mb1) with (size_read p1).
  destruct (Z.geb_spec (len p + h) 2) as [H2|H2].
  2:{ (* the size is not complete *)
    assert (Hn : n = h) by lia.
    exists mb1. rewrite Hn.
    replace (len p + h =? len (framed msg)) with false by (symmetry; apply Z.eqb_neq; lia).
    split; [reflexivity|]. split; [exact Hread1 | discriminate]. }
  assert (Hsize : size_read p1 = len msg).
  { apply (size_read_prefix p1 bytes1 msg rest E1). lia. }
  rewrite Hsize.
  assert (Hst : u64 (len p + h - 2) = len p + h - 2) by wrap64.
  rewrite Hst.
  assert (Hreq : u64 (len msg - (len p + h - 2)) = len (framed msg) - len p - h) by wrap64.
  rewrite Hreq.
  destruct (Z.gtb_spec (len (framed msg) - len p - h) 0) as [Hr|Hr].
  2:{ (* an empty message *)
    assert (Hn : n = h) by lia.
    exists mb1. rewrite Hn.
    replace (len p + h =? len (framed msg)) with true by (symmetry; apply Z.eqb_eq; lia).
    split; [reflexivity|]. split; [exact Hread1|].
    intros _. rewrite <- Hn. apply Hdone; [rewrite Hn; exact Hread1 | apply Z.eqb_eq; lia]. }
  destruct Hread1 as (Hnb1 & Hsz1 & Hbl1 & Hbuf1).
  assert (Hstored : len p + h - 2 <= buffer_alloc mb1).
  { rewrite <- Hbl1. apply (f_equal (@List.length Z)) in Hbuf1.
    rewrite length_firstn, length_skipn in Hbuf1. lia. }
  destruct (alloc_keeps mb1 (len msg) (len p + h - 2) Hbl1 ltac:(lia) ltac:(lia))
    as (mb2 & -> & Hnb2 & Hsz2 & Hbl2 & Hal2 & Hkeep).
  cbn [Z.eqb negb].
  set (l2 := if length - h >=? len (framed msg) - len p - h
             then len (framed msg) - len p - h else length - h).
  assert (Hl2 : l2 = Z.min (length - h) (len (framed msg) - len p - h)).
  { unfold l2. destruct (Z.geb_spec (length - h) (len (framed msg) - len p - h)); lia. }
  assert (Hb1 : len bytes1 = len bytes - h) by (unfold bytes1; rewrite length_skipn; lia).
  destruct (Z.gtb_spec (len p + h - 2 + l2) (buffer_alloc mb2)); [lia|].
  destruct (Z.gtb_spec l2 (len bytes1)); [lia|]. cbn [orb].
  assert (Hn : n = h + l2) by lia.
  assert (Hres : has_read
                   (mk_buffer (u64 (nb_bytes_read mb2 + l2)) (message_size mb2)
                      (buffer_alloc mb2)
                      (memcpy (buffer mb2) (len p + h - 2) bytes1 l2))
                   (p ++ firstn (Z.to_nat n) bytes)).
  { assert (Ep : p ++ firstn (Z.to_nat n) bytes = p1 ++ firstn (Z.to_nat l2) bytes1).
    { unfold p1, bytes1. rewrite <- app_assoc. f_equal.
      replace (Z.to_nat n) with (Z.to_nat h + Z.to_nat l2)%nat by lia.
      apply AckFacts.firstn_split. }
    rewrite Ep. unfold has_read. cbn [nb_bytes_read message_size buffer_alloc buffer].
    rewrite length_app, length_firstn. split; [rewrite Hnb2; wrap64|].
    split; [rewrite Hsz2, size_read_app by lia; exact Hsz1|].
    split; [rewrite memcpy_length; lia|].
    replace (List.length p1 + Nat.min (Z.to_nat l2) (List.length bytes1) - 2)%nat
      with (Z.to_nat (len p + h - 2 + l2)) by lia.
    rewrite memcpy_firstn by lia. rewrite Hkeep.
    replace (Z.to_nat (len p + h - 2)) with (List.length p1 - 2)%nat by lia.
    rewrite Hbuf1. rewrite skipn_app.
    replace (2 - List.length p1)%nat with 0%nat by lia. reflexivity. }
  eexists. split; [|split; [exact Hres | intros Hfin; apply Hdone; [exact Hres | exact Hfin]]].
  f_equal. f_equal; [f_equal|].
  - f_equal. unfold bytes1. rewrite skipn_skipn. f_equal. lia.
  - destruct (Z.geb_spec (length - h) (len (framed msg) - len p - h));
      symmetry; [apply Z.eqb_eq | apply Z.eqb_neq]; lia.
Qed.

(** X8. Receiving a framed message. The buffer has read the bytes [p]
    of a message framed by its length on two bytes, and is not at its end;
    the bytes that follow on the stream are [bytes], of which [length] have
    arrived. Then [quicrq_msg_buffer_store] takes the bytes that have
    arrived, up to the end of the message, and returns the pointer behind
    them; it never writes outside of the block; [*is_finished] is set
    exactly when the message is complete, and then [message_size] is the
    length of the message, the block starts with the message, and the
    pointer returned is at the first byte after it. *)
Theorem store_accumulates (mb : quicrq_message_buffer_t) (p bytes : list Z)
    (length : Z) (msg rest : list Z) :
  has_read mb p -> len msg < 65536 ->
  p ++ bytes = framed msg ++ rest -> len p < len (framed msg) ->
  0 <= length <= len bytes ->
  let n := Z.min length (len (framed msg) - len p) in
  let fin := len p + n =? len (framed msg) in
  exists mb',
    quicrq_msg_buffer_store malloc bytes length mb
    = Returns (Some (skipn (Z.to_nat n) bytes), mb', fin)
    /\ has_read mb' (p ++ firstn (Z.to_nat n) bytes)
    /\ (fin = true ->
        message_size mb' = len msg
        /\ firstn (List.length msg) (buffer mb') = msg
        /\ skipn (Z.to_nat n) bytes = rest).
Proof. exact (store_step mb p bytes length msg rest). Qed.

End Heap.

Lemma size_bytes (n : Z) :
  0 <= n < 65536 ->
  Z.land (Z.shiftr n 8) 255 = n / 256 /\ Z.land n 255 = n mod 256.
Proof.
  intros H. change 255 with (Z.ones 8). rewrite !Z.land_ones by lia.
  rewrite Z.shiftr_div_pow2 by lia. change (2 ^ 8) with 256.
  split; [|reflexivity]. apply Z.mod_small. Z.div_mod_to_equations. lia.
Qed.

(** The loop that writes the size, after [k] bytes sent. *)
Lemma send_size_spec (msg : list Z) (a k : Z) :
  len msg < 65536 -> 0 <= a -> 0 <= k ->
  let h := Z.min a (Z.max 0 (2 - k)) in
  send_size 2 (len msg) [] a k
  = (firstn (Z.to_nat h) (skipn (Z.to_nat k) (firstn 2 (framed msg))), a - h, k + h).
Proof.
  intros Hmsg Ha Hk. cbv zeta.
  destruct (size_bytes (len msg) ltac:(lia)) as [Ehi Elo].
  unfold framed. cbv zeta. cbn [firstn].
  destruct (Z.eq_dec k 0) as [->|N0]; [|destruct (Z.eq_dec k 1) as [->|N1]].
  - cbn [send_size]. change (0 <? 2) with true. change (0 =? 0) with true.
    change (u64 (0 + 1)) with 1. change (1 <? 2) with true. change (1 =? 0) with false.
    change (u64 (1 + 1)) with 2. cbn [andb app Z.to_nat skipn].
    destruct (Z.gtb_spec a 0) as [H0|H0].
    + destruct (Z.gtb_spec (a - 1) 0) as [H1|H1].
      * replace (Z.min a (Z.max 0 (2 - 0))) with 2 by lia.
        change (Z.to_nat 2) with 2%nat. cbn [firstn app].
        rewrite Ehi, Elo. f_equal. f_equal. lia.
      * replace (Z.min a (Z.max 0 (2 - 0))) with 1 by lia.
        change (Z.to_nat 1) with 1%nat. cbn [firstn app]. rewrite Ehi. reflexivity.
    + replace (Z.min a (Z.max 0 (2 - 0))) with 0 by lia.
      cbn [Z.to_nat firstn]. f_equal. f_equal. lia.
  - cbn [send_size]. change (1 <? 2) with true. change (1 =? 0) with false.
    change (u64 (1 + 1)) with 2. change (2 <? 2) with false. cbn [andb app].
    change (Z.to_nat 1) with 1%nat. cbn [skipn].
    destruct (Z.gtb_spec a 0) as [H0|H0].
    + replace (Z.min a (Z.max 0 (2 - 1))) with 1 by lia.
      change (Z.to_nat 1) with 1%nat. cbn [firstn app]. rewrite Elo. reflexivity.
    + replace (Z.min a (Z.max 0 (2 - 1))) with 0 by lia.
      cbn [Z.to_nat firstn]. f_equal. f_equal. lia.
  - cbn [send_size]. destruct (Z.ltb_spec k 2); [lia|]. cbn [andb].
    replace (Z.min a (Z.max 0 (2 - k))) with 0 by lia.
    cbn [Z.to_nat firstn]. f_equal; [f_equal|]; lia.
Qed.

Lemma firstn_skipn_framed (msg : list Z) (a k : Z) :
  0 <= a -> 0 <= k ->
  let h := Z.min a (Z.max 0 (2 - k)) in
  firstn (Z.to_nat a) (skipn (Z.to_nat k) (framed msg))
  = firstn (Z.to_nat h) (skipn (Z.to_nat k) (firstn 2 (framed msg)))
    ++ firstn (Z.to_nat (a - h)) (skipn (Z.to_nat (k + h - 2)) msg).
Proof.
  intros Ha Hk. cbv zeta. unfold framed. cbv zeta. cbn [firstn].
  set (hi := len msg / 256). set (lo := len msg mod 256).
  destruct (Z.eq_dec k 0) as [->|N0]; [|destruct (Z.eq_dec k 1) as [->|N1]].
  - cbn [Z.to_nat skipn].
    destruct (Z.eq_dec a 0) as [->|A0]; [reflexivity|].
    destruct (Z.eq_dec a 1) as [->|A1]; [reflexivity|].
    replace (Z.min a (Z.max 0 (2 - 0))) with 2 by lia.
    replace (Z.to_nat a) with (S (S (Z.to_nat (a - 2)))) by lia.
    change (Z.to_nat 2) with 2%nat. change (Z.to_nat (0 + 2 - 2)) with 0%nat.
    cbn [firstn skipn app]. reflexivity.
  - change (Z.to_nat 1) with 1%nat. cbn [skipn].
    destruct (Z.eq_dec a 0) as [->|A0]; [reflexivity|].
    replace (Z.min a (Z.max 0 (2 - 1))) with 1 by lia.
    replace (Z.to_nat a) with (S (Z.to_nat (a - 1))) by lia.
    change (Z.to_nat 1) with 1%nat. change (Z.to_nat (1 + 1 - 2)) with 0%nat.
    cbn [firstn skipn app]. reflexivity.
  - replace (Z.min a (Z.max 0 (2 - k))) with 0 by lia.
    replace (Z.to_nat k) with (S (S (Z.to_nat (k - 2)))) by lia.
    cbn [skipn Z.to_nat firstn app]. rewrite Z.sub_0_r, Z.add_0_r. reflexivity.
Qed.

Section Stream.

Variable provide : Z -> bool.

(** One call of [quicrq_msg_buffer_prepare_to_send_message] after [k] bytes sent. *)
Lemma send_step (mb : quicrq_message_buffer_t) (msg : list Z) (k space : Z)
    (more : bool) :
  has_sent mb msg k -> len msg < 65536 -> 0 <= k < 2 + len msg -> 0 <= space ->
  let a := Z.min space (2 + len msg - k) in
  provide a = true ->
  exists mb',
    quicrq_msg_buffer_prepare_to_send_message provide mb space more
    = Returns (0, mb', Some (firstn (Z.to_nat a) (skipn (Z.to_nat k) (framed msg))),
               (space <? 2 + len msg - k) || more)
    /\ (k + a < 2 + len msg -> has_sent mb' msg (k + a))
    /\ (k + a = 2 + len msg -> nb_bytes_read mb' = 0 /\ message_size mb' = 0).
Proof.
  intros (Hnb & Hsz & Hbl & Hbuf) Hmsg Hk Hspace. cbv zeta. intros Hprov.
  set (a := Z.min space (2 + len msg - k)) in *.
  unfold quicrq_msg_buffer_prepare_to_send_message. cbv zeta.
  rewrite Hnb, Hsz.
  assert (Ht : u64 (2 + len msg) = 2 + len msg) by wrap64.
  assert (Ht' : u64 (len msg + 2) = 2 + len msg) by wrap64.
  rewrite Ht, Ht'.
  destruct (Z.ltb_spec k (2 + len msg)); [|lia].
  assert (Hav : u64 (2 + len msg - k) = 2 + len msg - k) by wrap64.
  rewrite Hav.
  assert (Ea : (if 2 + len msg - k >? space then space else 2 + len msg - k) = a).
  { destruct (Z.gtb_spec (2 + len msg - k) space); lia. }
  assert (Em : (if 2 + len msg - k >? space then true else more)
               = (space <? 2 + len msg - k) || more).
  { destruct (Z.gtb_spec (2 + len msg - k) space);
      destruct (Z.ltb_spec space (2 + len msg - k)); try lia; reflexivity. }
  rewrite Ea, Em, Hprov.
  rewrite (send_size_spec msg a k Hmsg ltac:(lia) ltac:(lia)). cbv zeta.
  set (h := Z.min a (Z.max 0 (2 - k))).
  rewrite (firstn_skipn_framed msg a k ltac:(lia) ltac:(lia)). cbv zeta. fold h.
  assert (Hlb : len msg <= buffer_alloc mb).
  { rewrite <- Hbl. apply (f_equal (@List.length Z)) in Hbuf.
    rewrite length_firstn in Hbuf. lia. }
  assert (Hfin : forall nb,
             nb = k + a ->
             let mb' := (if nb >=? 2 + len msg
                         then set_read (set_read mb nb (len msg)) 0 0
                         else set_read mb nb (len msg)) in
             (k + a < 2 + len msg -> has_sent mb' msg (k + a))
             /\ (k + a = 2 + len msg -> nb_bytes_read mb' = 0 /\ message_size mb' = 0)).
  { intros nb ->. cbv zeta.
    destruct (Z.geb_spec (k + a) (2 + len msg)); split; intros; try lia.
    - split; reflexivity.
    - unfold has_sent, set_read. cbn [nb_bytes_read message_size buffer_alloc buffer].
      auto. }
  destruct (Z.gtb_spec (a - h) 0) as [Hd|Hd]; cbn [andb].
  - destruct (Z.ltb_spec (k + h) (2 + len msg)); [|lia].
    assert (Hoff : u64 (k + h - 2) = k + h - 2) by wrap64.
    rewrite Hoff.
    destruct (Z.gtb_spec (k + h - 2 + (a - h)) (buffer_alloc mb)); [lia|].
    assert (Hnb' : u64 (k + h + (a - h)) = k + a) by wrap64.
    rewrite Hnb'. cbn [set_read nb_bytes_read].
    eexists. split; [|apply (Hfin (k + a) eq_refl)].
    f_equal. f_equal. f_equal. f_equal. f_equal.
    rewrite <- Hbuf at 1.
    rewrite skipn_firstn_comm, firstn_firstn. f_equal. lia.
  - assert (Hah : a - h = 0) by lia.
    cbn [set_read nb_bytes_read]. rewrite Hah. cbn [Z.to_nat firstn].
    rewrite app_nil_r.
    eexists. split; [|apply (Hfin (k + h) ltac:(lia))]. reflexivity.
Qed.

(** X9. Sending a framed message. The sender has a message of less
    than 65536 bytes in the block and has sent [k] bytes of its framed
    form. When picoquic gives the buffer asked,
    [quicrq_msg_buffer_prepare_to_send_message] writes the next bytes of the
    framed message, as many as there is space for, and returns 0; it tells
    picoquic that more is to come when the space is too short or the
    caller says so; it never reads outside of the block; when the last
    byte is written the buffer is reset, and otherwise it has sent that
    many bytes more. *)
Theorem send_slices (mb : quicrq_message_buffer_t) (msg : list Z) (k space : Z)
    (more : bool) :
  has_sent mb msg k -> len msg < 65536 -> 0 <= k < 2 + len msg -> 0 <= space ->
  let a := Z.min space (2 + len msg - k) in
  provide a = true ->
  exists mb',
    quicrq_msg_buffer_prepare_to_send_message provide mb space more
    = Returns (0, mb', Some (firstn (Z.to_nat a) (skipn (Z.to_nat k) (framed msg))),
               (space <? 2 + len msg - k) || more)
    /\ (k + a < 2 + len msg -> has_sent mb' msg (k + a))
    /\ (k + a = 2 + len msg -> nb_bytes_read mb' = 0 /\ message_size mb' = 0).
Proof. exact (send_step mb msg k space more). Qed.

End Stream.

Section RoundTrip.

Variable malloc : Z -> option (list Z).
Variable provide : Z -> bool.
Hypothesis malloc_gives : forall n, 0 <= n -> exists x, malloc n = Some x /\ len x = n.

(** X10. What [quicrq_msg_buffer_prepare_to_send_message] writes,
    [quicrq_msg_buffer_store] reads back. A sender with a message of less
    than 65536 bytes and space for all of it writes bytes [w]; a receiver
    that was reset, and gets [w] and the bytes [rest] that follow in two
    parts cut anywhere inside of [w], is not finished after the first part,
    is finished after the second with the message at the start of its
    block and its length in [message_size], and returns the pointer to
    [rest]. *)
Theorem framed_round_trip (sb rb : quicrq_message_buffer_t) (msg rest : list Z)
    (space j : Z) (more : bool) :
  has_sent sb msg 0 -> has_read rb [] -> len msg < 65536 ->
  2 + len msg <= space -> provide (2 + len msg) = true ->
  0 <= j < 2 + len msg ->
  exists sb' w rb1 rb2,
    quicrq_msg_buffer_prepare_to_send_message provide sb space more
    = Returns (0, sb', Some w, more)
    /\ quicrq_msg_buffer_store malloc (w ++ rest) j rb
       = Returns (Some (skipn (Z.to_nat j) (w ++ rest)), rb1, false)
    /\ quicrq_msg_buffer_store malloc (skipn (Z.to_nat j) (w ++ rest))
         (len (w ++ rest) - j) rb1
       = Returns (Some rest, rb2, true)
    /\ message_size rb2 = len msg
    /\ firstn (List.length msg) (buffer rb2) = msg.
Proof.
  intros Hs Hr Hmsg Hspace Hprov Hj.
  pose proof (framed_length msg) as Hfl.
  destruct (send_step provide sb msg 0 space more Hs Hmsg ltac:(lia) ltac:(lia)) as (sb' & S1 & _).
  { replace (Z.min space (2 + len msg - 0)) with (2 + len msg) by lia. exact Hprov. }
  replace (Z.min space (2 + len msg - 0)) with (len (framed msg)) in S1 by lia.
  rewrite Nat2Z.id in S1. cbn [Z.to_nat skipn] in S1. rewrite firstn_all in S1.
  replace (space <? 2 + len msg - 0) with false in S1 by (symmetry; apply Z.ltb_ge; lia).
  cbn [orb] in S1.
  set (bytes := framed msg ++ rest).
  assert (Hb : len bytes = 2 + len msg + len rest) by (unfold bytes; rewrite length_app; lia).
  destruct (store_step malloc malloc_gives rb [] bytes j msg rest Hr Hmsg eq_refl)
    as (rb1 & R1 & Hr1 & _); [cbn [List.length]; lia | lia |].
  cbn [List.length Z.of_nat] in R1, Hr1.
  replace (Z.min j (len (framed msg) - 0)) with j in R1, Hr1 by lia.
  replace (0 + j =? len (framed msg)) with false in R1 by (symmetry; apply Z.eqb_neq; lia).
  cbn [app] in Hr1.
  assert (Hp : len (firstn (Z.to_nat j) bytes) = j) by (rewrite length_firstn; lia).
  destruct (store_step malloc malloc_gives rb1 (firstn (Z.to_nat j) bytes)
              (skipn (Z.to_nat j) bytes) (len bytes - j) msg rest Hr1 Hmsg
              (firstn_skipn _ _))
    as (rb2 & R2 & _ & Hfin); [lia | rewrite length_skipn; lia |].
  rewrite Hp in R2, Hfin.
  replace (Z.min (len bytes - j) (len (framed msg) - j)) with (len (framed msg) - j)
    in R2, Hfin by lia.
  replace (j + (len (framed msg) - j) =? len (framed msg)) with true in R2, Hfin
    by (symmetry; apply Z.eqb_eq; lia).
  destruct (Hfin eq_refl) as (F1 & F2 & F3). rewrite F3 in R2.
  exists sb', (framed msg), rb1, rb2. fold bytes.
  split; [exact S1|]. split; [exact R1|]. split; [exact R2|]. split; [exact F1 | exact F2].
Qed.

End RoundTrip.

Lemma ex_malloc_gives : forall n, 0 <= n -> exists x, ex_malloc n = Some x /\ len x = n.
Proof.
  intros n Hn. unfold ex_malloc. eexists. split; [reflexivity|].
  rewrite repeat_length. lia.
Qed.

Lemma ex_receiver_has_read : has_read ex_receiver [0; 3; 7].
Proof. repeat split. Qed.

Lemma ex_sender_has_sent : has_sent ex_sender ex_msg 1.
Proof. repeat split. Qed.

Lemma store_accumulates_witness :
  has_read ex_receiver [0; 3; 7] /\ len ex_msg < 65536
  /\ [0; 3; 7] ++ [8; 9; 1; 2] = framed ex_msg ++ [1; 2]
  /\ len [0; 3; 7] < len (framed ex_msg)
  /\ 0 <= 1 <= len [8; 9; 1; 2]
  /\ exists mb',
       quicrq_msg_buffer_store ex_malloc [8; 9; 1; 2] 1 ex_receiver
       = Returns (Some [9; 1; 2], mb', false)
       /\ has_read mb' [0; 3; 7; 8].
Proof.
  assert (H1 : len ex_msg < 65536) by (simpl; lia).
  assert (H2 : [0; 3; 7] ++ [8; 9; 1; 2] = framed ex_msg ++ [1; 2]) by reflexivity.
  assert (H3 : len [0; 3; 7] < len (framed ex_msg)) by (simpl; lia).
  assert (H4 : 0 <= 1 <= len [8; 9; 1; 2]) by (simpl; lia).
  split; [exact ex_receiver_has_read|]. split; [exact H1|]. split; [exact H2|].
  split; [exact H3|]. split; [exact H4|].
  destruct (store_accumulates ex_malloc ex_malloc_gives ex_receiver [0; 3; 7] [8; 9; 1; 2] 1
              ex_msg [1; 2] ex_receiver_has_read H1 H2 H3 H4) as (mb' & E & Hr & _).
  exists mb'. split; [exact E | exact Hr].
Defined.

Lemma send_slices_witness :
  has_sent ex_sender ex_msg 1 /\ len ex_msg < 65536 /\ 0 <= 1 < 2 + len ex_msg /\ 0 <= 2
  /\ ex_provide (Z.min 2 (2 + len ex_msg - 1)) = true
  /\ exists mb',
       quicrq_msg_buffer_prepare_to_send_message ex_provide ex_sender 2 false
       = Returns (0, mb', Some [3; 7], true)
       /\ has_sent mb' ex_msg 3.
Proof.
  assert (H1 : len ex_msg < 65536) by (simpl; lia).
  assert (H2 : 0 <= 1 < 2 + len ex_msg) by (simpl; lia).
  assert (H3 : 0 <= 2) by lia.
  split; [exact ex_sender_has_sent|]. split; [exact H1|]. split; [exact H2|].
  split; [exact H3|]. split; [reflexivity|].
  destruct (send_slices ex_provide ex_sender ex_msg 1 2 false ex_sender_has_sent H1 H2 H3
              eq_refl) as (mb' & E & Hs & _).
  exists mb'. split; [exact E|]. apply Hs. simpl. lia.
Defined.

Lemma framed_round_trip_witness :
  has_sent ex_sender_start ex_msg 0 /\ has_read ex_reset [] /\ len ex_msg < 65536
  /\ 2 + len ex_msg <= 100 /\ ex_provide (2 + len ex_msg) = true
  /\ 0 <= 3 < 2 + len ex_msg
  /\ exists sb' w rb1 rb2,
       quicrq_msg_buffer_prepare_to_send_message ex_provide ex_sender_start 100 false
       = Returns (0, sb', Some w, false)
       /\ quicrq_msg_buffer_store ex_malloc (w ++ [1; 2]) 3 ex_reset
          = Returns (Some (skipn (Z.to_nat 3) (w ++ [1; 2])), rb1, false)
       /\ quicrq_msg_buffer_store ex_malloc (skipn (Z.to_nat 3) (w ++ [1; 2]))
            (len (w ++ [1; 2]) - 3) rb1
          = Returns (Some [1; 2], rb2, true)
       /\ message_size rb2 = len ex_msg
       /\ firstn (List.length ex_msg) (buffer rb2) = ex_msg.
Proof.
  assert (H0 : has_sent ex_sender_start ex_msg 0) by (repeat split).
  assert (H1 : has_read ex_reset []) by (repeat split).
  assert (H2 : len ex_msg < 65536) by (simpl; lia).
  assert (H3 : 2 + len ex_msg <= 100) by (simpl; lia).
  assert (H4 : 0 <= 3 < 2 + len ex_msg) by (simpl; lia).
  split; [exact H0|]. split; [exact H1|]. split; [exact H2|]. split; [exact H3|].
  split; [reflexivity|]. split; [exact H4|].
  exact (framed_round_trip ex_malloc ex_provide ex_malloc_gives ex_sender_start ex_reset
           ex_msg [1; 2] 100 3 false H0 H1 H2 H3 eq_refl H4).
Defined.

End MsgBufferFacts.

(** * Names written as text *)
Module TextFacts.
Import Text.

#[local] Abbreviation len l := (Z.of_nat (List.length l)).

(** One turn of the first loop writes the text of one byte. *)
Lemma text_loop_step (available : Z) (c : Z) (u out : list Z) :
  text_loop available (c :: u) out
  = if len out <? available then text_loop available u (out ++ escape_char c)
    else (c :: u, out).
Proof.
  cbn [text_loop]. destruct (len out <? available); [|reflexivity].
  unfold escape_char.
  destruct (Z.eqb_spec c 92) as [E|N]; [reflexivity|]. cbn [negb].
  rewrite andb_true_r.
  replace (c >=? 32) with (32 <=? c)
    by (destruct (Z.geb_spec c 32); destruct (Z.leb_spec 32 c); lia || reflexivity).
  destruct ((32 <=? c) && (c <=? 126)); [reflexivity|]. cbv zeta.
  replace (c - 100 * (c / 100)) with (c mod 100) by (Z.div_mod_to_equations; lia).
  replace (c mod 100 - 10 * (c mod 100 / 10)) with (c mod 10)
    by (Z.div_mod_to_equations; lia).
  reflexivity.
Qed.

Lemma escape_char_length (c : Z) : 1 <= len (escape_char c) <= 4.
Proof.
  unfold escape_char. destruct (c =? 92); [simpl; lia|].
  destruct ((32 <=? c) && (c <=? 126)); simpl; lia.
Qed.

Lemma escape_char_printable (c : Z) : is_u8 c -> Forall printable (escape_char c).
Proof.
  unfold is_u8, escape_char, printable. intros H.
  destruct (Z.eqb_spec c 92); [repeat constructor; lia|].
  destruct (Z.leb_spec 32 c); destruct (Z.leb_spec c 126); cbn [andb];
    repeat constructor; try lia; Z.div_mod_to_equations; lia.
Qed.

Lemma escape_app (u v : list Z) : escape (u ++ v) = escape u ++ escape v.
Proof. unfold escape. apply flat_map_app. Qed.

Lemma escape_printable (u : list Z) : Forall is_u8 u -> Forall printable (escape u).
Proof.
  induction 1 as [|c u Hc Hu IH]; [constructor|].
  unfold escape. cbn [flat_map]. apply Forall_app. split; [|exact IH].
  apply escape_char_printable, Hc.
Qed.

(** The first loop converts the bytes [done], and stops before [rest]
    when the text has reached [available] characters. *)
Lemma text_loop_spec (available : Z) (u : list Z) :
  forall out,
    exists done rest,
      text_loop available u out = (rest, out ++ escape done)
      /\ u = done ++ rest
      /\ (rest <> [] -> available <= len (out ++ escape done))
      /\ (done <> [] -> len (out ++ escape done) <= available + 3).
Proof.
  induction u as [|c u IH]; intros out.
  - exists [], []. cbn [text_loop escape flat_map]. rewrite app_nil_r.
    repeat split; congruence.
  - rewrite text_loop_step. destruct (Z.ltb_spec (len out) available) as [Hlt|Hge].
    + destruct (IH (out ++ escape_char c)) as (done & rest & E & Hu & Hr & Hd).
      exists (c :: done), rest.
      assert (Eo : out ++ escape (c :: done) = (out ++ escape_char c) ++ escape done).
      { unfold escape. cbn [flat_map]. rewrite app_assoc. reflexivity. }
      rewrite Eo. split; [exact E|]. split; [rewrite Hu; reflexivity|].
      split; [exact Hr|]. intros _.
      destruct done as [|d done].
      * cbn [escape flat_map]. rewrite app_nil_r, length_app.
        pose proof (escape_char_length c). lia.
      * apply Hd. discriminate.
    + exists [], (c :: u). cbn [escape flat_map]. rewrite app_nil_r.
      split; [reflexivity|]. split; [reflexivity|]. split; [intros _; exact Hge|].
      congruence.
Qed.

(** A text that fits is converted to the end. *)
Lemma text_loop_all (available : Z) (u : list Z) :
  forall out,
    len out + len (escape u) <= available ->
    text_loop available u out = ([], out ++ escape u).
Proof.
  induction u as [|c u IH]; intros out H.
  - cbn [text_loop escape flat_map]. rewrite app_nil_r. reflexivity.
  - rewrite text_loop_step.
    assert (Ee : escape (c :: u) = escape_char c ++ escape u) by reflexivity.
    rewrite Ee, length_app in H. pose proof (escape_char_length c) as Hc.
    destruct (Z.ltb_spec (len out) available); [|lia].
    rewrite IH by (rewrite length_app; lia).
    rewrite Ee, app_assoc. reflexivity.
Qed.

Lemma text_dots_three (available : Z) (out : list Z) :
  len out + 3 <= available -> text_dots 3 available out = out ++ [46; 46; 46].
Proof.
  intros H. cbn [text_dots].
  destruct (Z.ltb_spec (len out) available); [|lia].
  destruct (Z.ltb_spec (len (out ++ [46])) available);
    [|rewrite length_app in *; cbn [List.length] in *; lia].
  destruct (Z.ltb_spec (len ((out ++ [46]) ++ [46])) available);
    [|rewrite !length_app in *; cbn [List.length] in *; lia].
  rewrite <- !app_assoc. reflexivity.
Qed.

(** X11. [quicrq_uint8_t_to_text] stays inside of the buffer and writes
    printable text. With less than 16 characters of buffer it writes
    nothing and returns three question marks. Otherwise the characters it
    writes, the final null included, are at most [buffer_length]; all of
    the text is printable ASCII; and the text is the escaped form of the
    first bytes of the name, followed by three dots exactly when some
    bytes are left out. *)
Theorem text_in_buffer (u : list Z) (buffer_length : Z) :
  Forall is_u8 u ->
  let '(text, written) := quicrq_uint8_t_to_text u buffer_length in
  Forall printable text
  /\ (buffer_length < 16 -> text = [63; 63; 63] /\ written = 0)
  /\ (16 <= buffer_length ->
      written = len text + 1 /\ written <= buffer_length
      /\ exists done rest,
           u = done ++ rest
           /\ (rest = [] -> text = escape done)
           /\ (rest <> [] ->
               text = escape done ++ [46; 46; 46]
               /\ buffer_length - 8 <= len (escape done))).
Proof.
  intros Hu. unfold quicrq_uint8_t_to_text.
  destruct (Z.ltb_spec buffer_length 16) as [Hs|Hl].
  { split; [repeat constructor; unfold printable; lia|].
    split; [auto | lia]. }
  destruct (text_loop_spec (buffer_length - 8) u []) as (done & rest & E & Eu & Hr & Hd).
  rewrite E. cbn [app] in *.
  assert (Hpd : Forall printable (escape done)).
  { apply escape_printable. rewrite Eu in Hu. apply Forall_app in Hu. tauto. }
  assert (Hlen : len (escape done) <= buffer_length - 5).
  { destruct done as [|d done]; [cbn [escape flat_map List.length]; lia|].
    specialize (Hd ltac:(discriminate)). lia. }
  destruct rest as [|r rest].
  - split; [exact Hpd|]. split; [lia|]. intros _.
    split; [reflexivity|]. split; [lia|].
    exists done, []. split; [exact Eu|]. split; [reflexivity | congruence].
  - rewrite text_dots_three by lia.
    split.
    { apply Forall_app. split; [exact Hpd|]. repeat constructor; unfold printable; lia. }
    split; [lia|]. intros _.
    split; [reflexivity|]. split; [rewrite length_app; cbn [List.length]; lia|].
    exists done, (r :: rest). split; [exact Eu|]. split; [discriminate|].
    intros _. split; [reflexivity|]. apply Hr. discriminate.
Qed.

Lemma text_in_buffer_witness :
  Forall is_u8 [97; 0; 92; 98]
  /\ quicrq_uint8_t_to_text [97; 0; 92; 98] 17 = ([97; 92; 48; 48; 48; 92; 92; 98], 9)
  /\ Forall printable [97; 92; 48; 48; 48; 92; 92; 98].
Proof.
  assert (H : Forall is_u8 [97; 0; 92; 98]) by (repeat constructor; unfold is_u8; lia).
  split; [exact H|]. split; [reflexivity|].
  exact (proj1 (text_in_buffer [97; 0; 92; 98] 17 H)).
Defined.

Lemma unescape_char (c : Z) (t : list Z) :
  is_u8 c -> unescape (escape_char c ++ t) = c :: unescape t.
Proof.
  unfold is_u8, escape_char. intros H.
  destruct (Z.eqb_spec c 92) as [->|N]; [reflexivity|].
  destruct ((32 <=? c) && (c <=? 126)).
  - cbn [app unescape]. destruct (Z.eqb_spec c 92); [contradiction | reflexivity].
  - cbn [app unescape]. change (92 =? 92) with true. cbv iota.
    destruct (Z.eqb_spec (48 + c / 100) 92) as [E|_];
      [exfalso; Z.div_mod_to_equations; lia|].
    f_equal. Z.div_mod_to_equations. lia.
Qed.

Lemma unescape_escape (u : list Z) : Forall is_u8 u -> unescape (escape u) = u.
Proof.
  induction 1 as [|c u Hc Hu IH]; [reflexivity|].
  unfold escape. cbn [flat_map]. rewrite (unescape_char c _ Hc).
  f_equal. exact IH.
Qed.

(** X12. A name whose text fits [buffer_length - 8] characters is
    written in full, and can be read back: no two names that fit have
    the same text. *)
Theorem text_round_trip (u : list Z) (buffer_length : Z) :
  Forall is_u8 u -> 16 <= buffer_length ->
  len (escape u) <= buffer_length - 8 ->
  fst (quicrq_uint8_t_to_text u buffer_length) = escape u
  /\ unescape (fst (quicrq_uint8_t_to_text u buffer_length)) = u.
Proof.
  intros Hu Hb Hfit. unfold quicrq_uint8_t_to_text.
  destruct (Z.ltb_spec buffer_length 16); [lia|].
  rewrite text_loop_all by (cbn [List.length]; lia). cbn [app fst].
  split; [reflexivity | apply unescape_escape, Hu].
Qed.

Lemma text_round_trip_witness :
  Forall is_u8 [97; 0; 92; 98] /\ 16 <= 17
  /\ len (escape [97; 0; 92; 98]) <= 17 - 8
  /\ fst (quicrq_uint8_t_to_text [97; 0; 92; 98] 17) = escape [97; 0; 92; 98]
  /\ unescape (fst (quicrq_uint8_t_to_text [97; 0; 92; 98] 17)) = [97; 0; 92; 98].
Proof.
  assert (H : Forall is_u8 [97; 0; 92; 98]) by (repeat constructor; unfold is_u8; lia).
  assert (H1 : 16 <= 17) by lia.
  assert (H2 : len (escape [97; 0; 92; 98]) <= 17 - 8) by (simpl; lia).
  split; [exact H|]. split; [exact H1|]. split; [exact H2|].
  exact (text_round_trip [97; 0; 92; 98] 17 H H1 H2).
Defined.

End TextFacts.
